(** * KhojDaSearch: the file indexer and the search query of [src/main.py]

    A shallow embedding of [FileIndexer] (the indexing thread), of
    [SearchBar.search] (the query) and of the part of [KhojDaSearch] that
    starts the thread and receives its signals, with the SQLite table
    [files] as an ordered list of rows.

    Modelling conventions.
    - Text is [string]; a character is a code point below U+0100, the range
      in which [str.lower] and [str.isspace] act on one character at a time.
      Case folding of SQLite's [LIKE] touches ASCII letters only, as SQLite's
      does.
    - Python integers are [Z].  A Python float is the rational number it
      denotes; every operation on floats gives the exact result rounded to 53
      significant bits, ties to even, as IEEE 754 double precision does.  The
      range of the exponent is not modelled (no overflow, no subnormal
      numbers); [int] truncates toward zero.
    - An exception that leaves a function is the [inl] of its result.  Inside
      [run] the exception that has left the loops is kept in the state
      ([raised]), with the state as it was when the exception was raised:
      that state is what the other connections and the receivers of the
      signals have seen.
    - What depends on the machine is given from outside: the text
      [datetime.fromtimestamp(...).strftime(...)] returns or the exception
      it raises, and the exception [cursor.execute] raises for the values
      of an [INSERT], if it raises one.  [conn.commit()] on the open
      connection succeeds.
    - [self.stopped] is written by another thread.  The worker sees the flag
      only when it reads it, so the interleaving is given by the number of
      reads that still see [False] ([pending_stop]). *)

From Stdlib Require Import ZArith QArith Qround Qpower List String Ascii Bool.
From Stdlib Require Import Lia Lqa.
From Stdlib Require Import Sorted Permutation.
Import ListNotations.

#[local] Open Scope Z_scope.
#[local] Open Scope string_scope.

(* ------------------------------------------------------------------ *)
(** ** Text *)

Module Text.

(** [str.startswith] with a one-character prefix. *)
Definition startswith (s : string) (c : ascii) : bool :=
  match s with
  | EmptyString => false
  | String d _ => Ascii.eqb d c
  end.

Fixpoint endswith (s : string) (c : ascii) : bool :=
  match s with
  | EmptyString => false
  | String d EmptyString => Ascii.eqb d c
  | String _ s' => endswith s' c
  end.

Definition in_range (lo hi : nat) (c : ascii) : bool :=
  ((lo <=? nat_of_ascii c) && (nat_of_ascii c <=? hi))%nat.

(** [str.isspace] on the code points below 256. *)
Definition isspace (c : ascii) : bool :=
  in_range 9 13 c || in_range 28 32 c || in_range 133 133 c
  || in_range 160 160 c.

Fixpoint lstrip (s : string) : string :=
  match s with
  | EmptyString => EmptyString
  | String c s' => if isspace c then lstrip s' else s
  end.

Fixpoint rstrip (s : string) : string :=
  match s with
  | EmptyString => EmptyString
  | String c s' =>
      match rstrip s' with
      | EmptyString => if isspace c then EmptyString else String c EmptyString
      | r => String c r
      end
  end.

(** [str.strip()] *)
Definition strip (s : string) : string := rstrip (lstrip s).

(** [str.lower] on one code point below 256: the ASCII capitals and the
    Latin-1 capitals (0xC0..0xDE without the multiplication sign).  Below
    U+0100 no character becomes two and none depends on its neighbours, as
    the final sigma does, so [str.lower] is this map on every character. *)
Definition lower_char (c : ascii) : ascii :=
  if in_range 65 90 c
     || (in_range 192 222 c && negb (in_range 215 215 c))
  then ascii_of_nat (nat_of_ascii c + 32)
  else c.

Fixpoint lower (s : string) : string :=
  match s with
  | EmptyString => EmptyString
  | String c s' => String (lower_char c) (lower s')
  end.

(** Index of the last ["."] of [s], counted from position [i]. *)
Fixpoint rfind_dot (s : string) (i : nat) : option nat :=
  match s with
  | EmptyString => None
  | String c s' =>
      match rfind_dot s' (S i) with
      | Some j => Some j
      | None => if Ascii.eqb c "." then Some i else None
      end
  end.

(** Is there a character other than ["."] among the first [n] of [s]? *)
Fixpoint has_nondot (s : string) (n : nat) : bool :=
  match n, s with
  | S n', String c s' => negb (Ascii.eqb c ".") || has_nondot s' n'
  | _, _ => false
  end.

Fixpoint drop (n : nat) (s : string) : string :=
  match n, s with
  | S n', String _ s' => drop n' s'
  | _, _ => s
  end.

(** [os.path.splitext(name)[1]] for a name without a separator: the text
    from the last dot on, unless only dots precede that dot. *)
Definition splitext_ext (name : string) : string :=
  match rfind_dot name 0 with
  | Some i => if has_nondot name i then drop i name else EmptyString
  | None => EmptyString
  end.

(** [os.path.join(a, b)] of [posixpath], two components. *)
Definition path_join (a b : string) : string :=
  if startswith b "/" then b
  else if (String.length a =? 0)%nat || endswith a "/" then a ++ b
  else a ++ "/" ++ b.

End Text.

(* ------------------------------------------------------------------ *)
(** ** Floats *)

Module Float.
#[local] Open Scope Z_scope.

(** A finite double, as the rational it denotes. *)
Definition float : Type := Q.

Definition pow2 (e : Z) : Q := Qpower (inject_Z 2) e.

(** The nearest integer, a tie going to the even one. *)
Definition round_half_even (x : Q) : Z :=
  let f := Qfloor x in
  match (x - inject_Z f ?= 1 # 2)%Q with
  | Lt => f
  | Gt => f + 1
  | Eq => if Z.even f then f else f + 1
  end.

(** For [x > 0], the [k] with [2^k <= x < 2^(k+1)]. *)
Definition ilog2 (x : Q) : Z :=
  let k := Z.log2 (Qnum x) - Z.log2 (Z.pos (Qden x)) in
  if Qle_bool (pow2 k) x then k else k - 1.

(** [x > 0] rounded to 53 significant bits. *)
Definition round53 (x : Q) : Q :=
  let e := ilog2 x - 52 in
  (inject_Z (round_half_even (x / pow2 e)) * pow2 e)%Q.

(** The double nearest to [x]. *)
Definition rne (x : Q) : float :=
  match Qnum x with
  | Z0 => 0%Q
  | Zpos _ => round53 x
  | Zneg _ => (- round53 (- x))%Q
  end.

(** Half the gap between 1 and the next double. *)
Definition u : Q := pow2 (-53).

(** [float(z)] *)
Definition of_int (z : Z) : float := rne (inject_Z z).

(** [a / b] of two [int]s, for [b] other than 0. *)
Definition true_div (a b : Z) : float := rne (inject_Z a / inject_Z b).

(** [x * y] *)
Definition mul (x y : float) : float := rne (x * y).

(** [int(x)]: truncation toward zero. *)
Definition int (x : float) : Z := Z.quot (Qnum x) (Z.pos (Qden x)).

End Float.

(* ------------------------------------------------------------------ *)
(** ** The store: table [files] of the SQLite database *)

Module Store.

(** The values bound by [INSERT OR REPLACE INTO files (name, path, type, size,
    modified_date)]. *)
Record entry := mk_entry {
  e_name : string;
  e_path : string;
  e_type : string;
  e_size : Z;
  e_modified_date : string
}.

(** A row: the entry and its [id INTEGER PRIMARY KEY]. *)
Record row := mk_row {
  id : Z;
  fields : entry
}.

Definition name (r : row) : string := e_name (fields r).
Definition path (r : row) : string := e_path (fields r).
Definition type (r : row) : string := e_type (fields r).

(** The table, in rowid order. *)
Definition table := list row.

(** The rowid SQLite gives a row inserted without one: one more than the
    largest in use. *)
Definition next_id (t : table) : Z :=
  fold_right (fun r m => Z.max (id r) m) 0 t + 1.

(** [INSERT OR REPLACE]: the row that holds the same [path] (the [UNIQUE]
    column) is deleted, the new row is appended. *)
Definition insert_or_replace (t : table) (e : entry) : table :=
  (filter (fun r => negb (path r =? e_path e)) t
   ++ [mk_row (next_id t) e])%list.

(** How SQLite's [LIKE] compares two characters: ASCII letters without
    case. *)
Definition like_fold (c : ascii) : ascii :=
  if Text.in_range 97 122 c then ascii_of_nat (nat_of_ascii c - 32) else c.

Definition like_char_eq (c d : ascii) : bool :=
  Ascii.eqb (like_fold c) (like_fold d).

(** [s LIKE pattern] without an [ESCAPE] clause: ["%"] stands for any text,
    ["_"] for any one character. *)
Fixpoint like (pattern s : string) : bool :=
  match pattern with
  | EmptyString =>
      match s with EmptyString => true | String _ _ => false end
  | String c p' =>
      if Ascii.eqb c "%" then
        (fix star (s : string) : bool :=
           like p' s
           || match s with
              | EmptyString => false
              | String _ s' => star s'
              end) s
      else
        match s with
        | EmptyString => false
        | String d s' =>
            (Ascii.eqb c "_" || like_char_eq c d) && like p' s'
        end
  end.

(** [ORDER BY name], binary collation, rows of equal name in table order. *)
Fixpoint insert_by_name (r : row) (l : list row) : list row :=
  match l with
  | [] => [r]
  | x :: l' =>
      if String.leb (name r) (name x) then r :: l
      else x :: insert_by_name r l'
  end.

Definition order_by_name (l : list row) : list row :=
  fold_right insert_by_name [] l.

(** [SELECT name, path, type FROM files WHERE name LIKE ? ORDER BY name
    LIMIT 100] *)
Definition select_like (pattern : string) (t : table)
  : list (string * string * string) :=
  firstn 100
    (map (fun r => (name r, path r, type r))
       (order_by_name (filter (fun r => like pattern (name r)) t))).

(** [sqlite3.Error] with its text. *)
Inductive sqlite3_Error := OperationalError (msg : string).

(** What the database file holds: no table [files] yet, or the table. *)
Definition database := option table.

(** The number of bytes of the text in UTF-8, the encoding in which SQLite
    holds it: two bytes for a code point from U+0080 on. *)
Fixpoint utf8_length (s : string) : Z :=
  match s with
  | EmptyString => 0
  | String c s' =>
      (if (nat_of_ascii c <? 128)%nat then 1 else 2) + utf8_length s'
  end.

(** [SQLITE_MAX_LIKE_PATTERN_LENGTH], the default of the limit on the bytes
    of a [LIKE] pattern. *)
Definition like_pattern_limit : Z := 50000.

(** [cursor.execute] of the [SELECT].  Without the table SQLite raises; it
    also raises when [LIKE] is evaluated, which it is for the first row of
    a table that has one, on a pattern longer than the limit. *)
Definition execute_select (pattern : string) (db : database)
  : sqlite3_Error + list (string * string * string) :=
  match db with
  | None => inl (OperationalError "no such table: files")
  | Some [] => inr []
  | Some t =>
      if (like_pattern_limit <? utf8_length pattern)%Z
      then inl (OperationalError "LIKE or GLOB pattern too complex")
      else inr (select_like pattern t)
  end.

(** [CREATE TABLE IF NOT EXISTS files] *)
Definition create_table_if_not_exists (db : database) : table :=
  match db with
  | None => []
  | Some t => t
  end.

(** *** Views of the table used in the statements *)

(** The entries of the rows, without the rowids. *)
Definition entries (t : table) : list entry := map fields t.


(** Upserts seen on entries alone. *)
Definition upsert_entry (l : list entry) (e : entry) : list entry :=
  filter (fun x => negb (e_path x =? e_path e)) l ++ [e].

(** No entry of [es] has the path of [x]. *)
Definition path_notin (es : list entry) (x : entry) : bool :=
  negb (existsb (fun e => e_path x =? e_path e) es).

(** Rows and result rows in the order of [ORDER BY name]. *)
Definition name_le (a b : row) : Prop := String.leb (name a) (name b) = true.

Definition columns (r : row) : string * string * string :=
  (name r, path r, type r).

Definition result_le (a b : string * string * string) : Prop :=
  String.leb (fst (fst a)) (fst (fst b)) = true.

End Store.

(* ------------------------------------------------------------------ *)
(** ** The words of the specification *)

Module Spec.
Import Store.
#[local] Open Scope Z_scope.

(** "case-insensitive containment of the fragment within name": does [s]
    start with [q], letters compared without case? *)
Fixpoint prefix_ci (q s : string) : bool :=
  match q, s with
  | EmptyString, _ => true
  | String c q', String d s' => like_char_eq c d && prefix_ci q' s'
  | String _ _, EmptyString => false
  end.

(** Does [q] occur in [s] at some position? *)
Fixpoint contains_ci (q s : string) : bool :=
  prefix_ci q s
  || match s with
     | EmptyString => false
     | String _ s' => contains_ci q s'
     end.

(** The fragment occurs in the name as it is written. *)
Definition literal_substring (q s : string) : Prop :=
  exists pre post : string, s = (pre ++ q ++ post)%string.

(** A fragment in which no character is a wildcard of [LIKE]. *)
Fixpoint no_wildcard (q : string) : bool :=
  match q with
  | EmptyString => true
  | String c q' =>
      negb (Ascii.eqb c "%") && negb (Ascii.eqb c "_") && no_wildcard q'
  end.

(** "at most 100 rows", "ascending by name", "name only": the answer the
    specification describes for a fragment. *)
Definition query_answer (fragment : string) (t : table)
  : list (string * string * string) :=
  firstn 100
    (map (fun r => (name r, path r, type r))
       (order_by_name (filter (fun r => contains_ci fragment (name r)) t))).

(** "min(99, floor(processedFiles / estimatedTotalFiles * 100))" *)
Definition percentage (processed_files estimated_total_files : Z) : Z :=
  Z.min 99 (processed_files * 100 / estimated_total_files).

(** "max(floor, avgFilesPerSampledDir * estimatedTotalDirs)" with the floor
    1000 and [avgFilesPerSampledDir = filesSeen / dirsSampled]. *)
Definition estimated_total_files (files_seen dirs_sampled
    estimated_total_dirs : Z) : Z :=
  Z.max 1000 (files_seen * estimated_total_dirs / dirs_sampled).

End Spec.

(* ------------------------------------------------------------------ *)
(** ** [SearchBar]: the query *)

Module SearchBar.
Import Store.

(** A [QListWidgetItem] as [search] fills it in. *)
Record item := mk_item {
  item_text : string;
  item_tool_tip : string;
  item_data : string;
  item_has_icon : bool
}.

(** The texts [search] writes to [status_label]. *)
Inductive label :=
  | LabelEmpty
  | Found (count : nat)
  | SearchError (msg : string).

Record search_bar := mk_search_bar {
  results_list : list item;
  results_container_visible : bool;
  status_label : label;
  window_height : Z;
  max_height : Z;
  (** the patterns of the statements run on [self.cursor], oldest first *)
  executed : list string
}.

Definition min_height : Z := 60.

(** [sqlite3.connect(DB_PATH)]: an error, or what the file holds. *)
Definition connect_result : Type := sqlite3_Error + database.

(** [SearchBar.__init__], the part about the store and the widgets that
    [search] writes; [max_height] comes from the screen. *)
Definition __init__ (screen_max_height : Z) (disk : connect_result)
  : sqlite3_Error + search_bar :=
  match disk with
  | inl e => inl e
  | inr _ =>
      inr {| results_list := [];
             results_container_visible := false;
             status_label := LabelEmpty;
             window_height := min_height;
             max_height := screen_max_height;
             executed := [] |}
  end.

(** [_get_file_icon]: no icon for an empty type. *)
Definition _get_file_icon (file_type : string) : bool :=
  negb (file_type =? "").

Definition make_item (r : string * string * string) : item :=
  let '(name, path, file_type) := r in
  {| item_text := name;
     item_tool_tip := path;
     item_data := path;
     item_has_icon := _get_file_icon file_type |}.

Definition str_of_error (e : sqlite3_Error) : string :=
  match e with OperationalError msg => msg end.

(** [SearchBar.search]: [text] is what the input line holds, [db] what the
    store holds when the statement runs. *)
Definition search (text : string) (db : database) (sb : search_bar)
  : search_bar :=
  let query := Text.strip text in
  if query =? "" then
    {| results_list := [];
       results_container_visible := false;
       status_label := status_label sb;
       window_height := min_height;
       max_height := max_height sb;
       executed := executed sb |}
  else
    let search_pattern := "%" ++ query ++ "%" in
    let log := (executed sb ++ [search_pattern])%list in
    match execute_select search_pattern db with
    | inr results =>
        let items := map make_item results in
        let count := List.length items in
        let has_results := (0 <? count)%nat in
        {| results_list := items;
           results_container_visible := has_results;
           status_label := if has_results then Found count
                           else status_label sb;
           window_height :=
             if has_results
             then min_height
                  + Z.min (Z.of_nat count * 40 + 60)
                          (max_height sb - min_height)
             else min_height;
           max_height := max_height sb;
           executed := log |}
    | inl e =>
        {| results_list := [];
           results_container_visible := true;
           status_label := SearchError (str_of_error e);
           window_height := window_height sb;
           max_height := max_height sb;
           executed := log |}
    end.

(** The rows a call of [search] shows, as triples. *)
Definition shown (sb : search_bar) : list (string * string) :=
  map (fun i => (item_text i, item_data i)) (results_list sb).

End SearchBar.

(* ------------------------------------------------------------------ *)
(** ** [FileIndexer]: the indexing thread *)

Module FileIndexer.
Import Store.
#[local] Open Scope Z_scope.
#[local] Set Warnings "-register-all".

(** *** The file system as [os.walk] and [os.stat] see it *)

(** The errors [os.stat] raises. *)
Inductive OSError := PermissionError | OtherOSError.

(** What the statements of the walk raise: an [OSError] ([os.stat], and
    [datetime.fromtimestamp] for a time stamp the platform refuses), a
    [ValueError] or an [OverflowError] ([datetime.fromtimestamp] for a time
    stamp outside the years [datetime] has, [cursor.execute] for an integer
    beyond 64 bits), a [UnicodeEncodeError] ([cursor.execute] for a text
    that UTF-8 cannot encode, which is what [os.walk] gives for a file name
    whose bytes are no UTF-8) and a [sqlite3.Error]. *)
Inductive exception :=
  | OS (e : OSError)
  | ValueError
  | OverflowError
  | UnicodeEncodeError
  | sqlite3 (e : sqlite3_Error).

(** [except (PermissionError, OSError)] *)
Definition caught (e : exception) : bool :=
  match e with
  | OS _ => true
  | _ => false
  end.

Record stat_result := mk_stat {
  st_size : Z;
  st_mtime : Float.float
}.

(** A non-directory entry with what [os.stat] gives for it. *)
Record file := mk_file {
  f_name : string;
  f_stat : OSError + stat_result
}.

(** A directory; [listable] is false when [os.walk] does not enter it (the
    listing fails, or the entry is a link to a directory).  The name of a
    root is the path of the drive. *)
Inductive dir :=
  Dir (d_name : string) (listable : bool)
      (files : list file) (subdirs : list dir).

Definition dir_name (d : dir) : string :=
  match d with Dir n _ _ _ => n end.

(** What one step of [os.walk] yields: root, dirs, files. *)
Definition walk_entry : Type := string * list string * list file.

(** [os.walk(top)], top down, errors ignored, where the caller keeps in
    [dirs] the names that satisfy [keep] ([dirs[:] = ...]) before the walk
    goes on. *)
Fixpoint os_walk (keep : string -> bool) (top : string) (d : dir)
  : list walk_entry :=
  match d with
  | Dir _ listable files subdirs =>
      if listable then
        (top, map dir_name subdirs, files)
        :: (fix below (l : list dir) : list walk_entry :=
              match l with
              | [] => []
              | sd :: l' =>
                  ((if keep (dir_name sd)
                    then os_walk keep (Text.path_join top (dir_name sd)) sd
                    else []) ++ below l')%list
              end) subdirs
      else []
  end.

(** [not d.startswith('.') and not d.startswith('$')] *)
Definition not_hidden_dir (d : string) : bool :=
  negb (Text.startswith d ".") && negb (Text.startswith d "$").

(** [not f.startswith('.')] *)
Definition not_hidden_file (f : file) : bool :=
  negb (Text.startswith (f_name f) ".").

(** The walk of one drive as the three loops of the indexer see it. *)
Definition walk (drive : dir) : list walk_entry :=
  os_walk not_hidden_dir (dir_name drive) drive.

(** *** Signals *)

(** The texts of [progress_signal]. *)
Inductive message :=
  | Estimating
  | Estimated (total : Z)
  | IndexingDrive (drive : string)
  | Indexed (count percentage : Z)
  | Completed (count : Z).

Inductive signal :=
  | progress_signal (m : message) (percentage : Z)
  | finished_signal.

(** An emitted signal, with the value [self.files_processed] had when it was
    emitted (kept for the statements about progress; not part of the
    signal). *)
Record emission := mk_emission {
  at_processed : Z;
  sig : signal
}.

(** *** The state of a run *)

(** The connection of the thread: the table as this connection sees it and
    the table as committed, which other connections read. *)
Record connection := mk_connection {
  working : table;
  committed : table
}.

(** The fields of the [FileIndexer] object, the connection of [run], the
    signals emitted so far (oldest first), the other thread ([Some n] when
    it calls [stop] after [n] more reads of [self.stopped], [None] when it
    never does) and the exception that has left the loops of [run], if one
    has. *)
Record session := mk_session {
  stopped : bool;
  total_files_estimated : Z;
  files_processed : Z;
  conn : connection;
  emitted : list emission;
  pending_stop : option nat;
  raised : option exception
}.

Definition set_stopped (b : bool) (w : session) : session :=
  mk_session b (total_files_estimated w) (files_processed w) (conn w)
             (emitted w) (pending_stop w) (raised w).

Definition set_total (n : Z) (w : session) : session :=
  mk_session (stopped w) n (files_processed w) (conn w) (emitted w)
             (pending_stop w) (raised w).

Definition set_processed (n : Z) (w : session) : session :=
  mk_session (stopped w) (total_files_estimated w) n (conn w) (emitted w)
             (pending_stop w) (raised w).

Definition set_conn (c : connection) (w : session) : session :=
  mk_session (stopped w) (total_files_estimated w) (files_processed w) c
             (emitted w) (pending_stop w) (raised w).

Definition set_pending (p : option nat) (w : session) : session :=
  mk_session (stopped w) (total_files_estimated w) (files_processed w)
             (conn w) (emitted w) p (raised w).

Definition set_raised (r : option exception) (w : session) : session :=
  mk_session (stopped w) (total_files_estimated w) (files_processed w)
             (conn w) (emitted w) (pending_stop w) r.

Definition emit (s : signal) (w : session) : session :=
  mk_session (stopped w) (total_files_estimated w) (files_processed w)
             (conn w)
             (emitted w ++ [mk_emission (files_processed w) s])%list
             (pending_stop w) (raised w).

(** An exception raised in the state [w] that no [except] has caught. *)
Definition raise (e : exception) (w : session) : session :=
  set_raised (Some e) w.

(** [FileIndexer.__init__] on a connection, with the schedule of the other
    thread. *)
Definition __init__ (c : connection) (pending : option nat) : session :=
  mk_session false 0 0 c [] pending None.

(** [FileIndexer.stop] *)
Definition stop (w : session) : session := set_stopped true w.

(** One read of [self.stopped] by the worker.  The flag is only ever set, so
    a read after a read of [True] gives [True]. *)
Definition read_stopped (w : session) : bool * session :=
  if stopped w then (true, w)
  else
    match pending_stop w with
    | Some O => (true, set_pending None (stop w))
    | Some (S n) => (false, set_pending (Some n) w)
    | None => (false, w)
    end.

(** [conn.commit()] *)
Definition commit (w : session) : session :=
  set_conn (mk_connection (working (conn w)) (working (conn w))) w.

(** What an [INSERT OR REPLACE] that raises nothing does to the
    connection: the table changes for this connection, not for the
    others. *)
Definition upsert (e : entry) (w : session) : session :=
  set_conn (mk_connection (insert_or_replace (working (conn w)) e)
                          (committed (conn w))) w.

(** *** Arithmetic *)

(** [min(99, int((files_processed / total_files_estimated) * 100))] *)
Definition percentage_of (processed total : Z) : Z :=
  Z.min 99
    (Float.int (Float.mul (Float.true_div processed total)
                          (Float.of_int 100))).

(** [FileIndexer._get_percentage] *)
Definition _get_percentage (w : session) : Z :=
  if total_files_estimated w <=? 0 then 0
  else percentage_of (files_processed w) (total_files_estimated w).

(** *** Estimation *)

(** The inner loop of [_estimate_dir_count] over the walk of one drive;
    the pair is [(dir_count, sample_size)]. *)
Fixpoint dir_count_walk (ws : list walk_entry) (acc : Z * Z) : Z * Z :=
  match ws with
  | [] => acc
  | (_, dirs, _) :: rest =>
      let dir_count :=
        fst acc + Z.of_nat (List.length (filter not_hidden_dir dirs)) in
      let sample_size := snd acc + 1 in
      if 10 <=? sample_size then (dir_count, sample_size)
      else dir_count_walk rest (dir_count, sample_size)
  end.

(** The outer loop of [_estimate_dir_count]. *)
Fixpoint dir_count_drives (drives : list dir) (acc : Z * Z) : Z * Z :=
  match drives with
  | [] => acc
  | drive :: rest =>
      let acc' := dir_count_walk (walk drive) acc in
      if 10 <=? snd acc' then acc' else dir_count_drives rest acc'
  end.

(** [FileIndexer._estimate_dir_count] *)
Definition _estimate_dir_count (drives : list dir) : Z :=
  let '(dir_count, sample_size) := dir_count_drives drives (0, 0) in
  if 0 <? sample_size then
    let avg_dirs := Float.true_div dir_count (Z.max 1 sample_size) in
    Z.max 100 (Float.int (Float.mul avg_dirs (Float.of_int 50)))
  else 1000.

(** The inner loop of [_estimate_total_files]; the pair is
    [(file_count, sample_size)]. *)
Fixpoint file_count_walk (ws : list walk_entry) (acc : Z * Z) : Z * Z :=
  match ws with
  | [] => acc
  | (_, _, files) :: rest =>
      let file_count :=
        fst acc + Z.of_nat (List.length (filter not_hidden_file files)) in
      let sample_size := snd acc + 1 in
      if 20 <=? sample_size then (file_count, sample_size)
      else file_count_walk rest (file_count, sample_size)
  end.

(** The outer loop of [_estimate_total_files]. *)
Fixpoint file_count_drives (drives : list dir) (acc : Z * Z) : Z * Z :=
  match drives with
  | [] => acc
  | drive :: rest =>
      let acc' := file_count_walk (walk drive) acc in
      if 20 <=? snd acc' then acc' else file_count_drives rest acc'
  end.

(** The value [_estimate_total_files] stores in
    [self.total_files_estimated]. *)
Definition estimated_total (drives : list dir) : Z :=
  let '(file_count, sample_size) := file_count_drives drives (0, 0) in
  if 0 <? sample_size then
    let avg_files_per_dir := Float.true_div file_count (Z.max 1 sample_size) in
    let estimated_dirs := _estimate_dir_count drives in
    Z.max 1000
      (Float.int (Float.mul avg_files_per_dir (Float.of_int estimated_dirs)))
  else 10000.

(** [FileIndexer._estimate_total_files] *)
Definition _estimate_total_files (drives : list dir) (w : session)
  : session :=
  let w1 := set_total (estimated_total drives) w in
  emit (progress_signal (Estimated (total_files_estimated w1)) 0) w1.

(** *** The walk *)

Section Run.

(** [datetime.fromtimestamp(t).strftime('%Y-%m-%d %H:%M:%S')], which depends
    on the time zone and on the platform: the text, or the exception raised
    for a time stamp that cannot be shown ([ValueError] beyond the year
    9999, [OverflowError], [OSError]). *)
Variable format_mtime : Float.float -> exception + string.

(** The exception [cursor.execute] raises for the values of an [INSERT], if
    it raises one: [UnicodeEncodeError], [OverflowError] or a
    [sqlite3.Error]. *)
Variable insert_error : entry -> option exception.

(** The row values of a file whose [os.stat] succeeded and whose time stamp
    is shown as [modified_date]. *)
Definition entry_of (root : string) (f : file) (st : stat_result)
    (modified_date : string) : entry :=
  {| e_name := f_name f;
     e_path := Text.path_join root (f_name f);
     e_type := Text.lower (Text.splitext_ext (f_name f));
     e_size := st_size st;
     e_modified_date := modified_date |}.

(** [cursor.execute('INSERT OR REPLACE ...')] *)
Definition execute_insert (e : entry) (w : session) : exception + session :=
  match insert_error e with
  | Some x => inl x
  | None => inr (upsert e w)
  end.

(** [self.files_processed += 1] and the statements under
    [if self.files_processed % 500 == 0]. *)
Definition count_file (w : session) : session :=
  let w2 := set_processed (files_processed w + 1) w in
  if files_processed w2 mod 500 =? 0 then
    let w3 := commit w2 in
    let percentage := _get_percentage w3 in
    emit (progress_signal (Indexed (files_processed w3) percentage)
                          percentage) w3
  else w2.

(** The statements of the [try] in the loop over [files]: the exception
    that leaves them, or the state they give.  Nothing is written before
    the last statement that can raise, so an exception leaves the state as
    it was. *)
Definition try_file (root : string) (f : file) (w : session)
  : exception + session :=
  match f_stat f with
  | inl e => inl (OS e)
  | inr file_stat =>
      match format_mtime (st_mtime file_stat) with
      | inl e => inl e
      | inr modified_date =>
          match execute_insert (entry_of root f file_stat modified_date) w
          with
          | inl e => inl e
          | inr w1 => inr (count_file w1)
          end
      end
  end.

(** The body of the loop over [files], after the read of [self.stopped]:
    an exception that the [except] names is dropped and the loop goes on
    with the next file, any other exception leaves the loop. *)
Definition process_file (root : string) (f : file) (w : session) : session :=
  if Text.startswith (f_name f) "." then w
  else
    match try_file root f w with
    | inr w1 => w1
    | inl e => if caught e then w else raise e w
    end.

(** [for file in files: if self.stopped: break ...] *)
Fixpoint loop_files (root : string) (files : list file) (w : session)
  : session :=
  match files with
  | [] => w
  | f :: rest =>
      let (s, w1) := read_stopped w in
      if s then w1
      else
        let w2 := process_file root f w1 in
        match raised w2 with
        | Some _ => w2
        | None => loop_files root rest w2
        end
  end.

(** [for root, dirs, files in os.walk(drive): if self.stopped: break ...] *)
Fixpoint loop_walk (ws : list walk_entry) (w : session) : session :=
  match ws with
  | [] => w
  | (root, _, files) :: rest =>
      let (s, w1) := read_stopped w in
      if s then w1
      else
        let w2 := loop_files root files w1 in
        match raised w2 with
        | Some _ => w2
        | None => loop_walk rest w2
        end
  end.

(** The first statements of the loop over [drives], after the read of
    [self.stopped]. *)
Definition announce_drive (drive : dir) (w : session) : session :=
  emit (progress_signal (IndexingDrive (dir_name drive)) (_get_percentage w))
       w.

(** [for drive in drives: if self.stopped: break ...], with the [try]
    around the walk of a drive: an exception that its [except] names ends
    the walk of the drive and the loop goes on, any other leaves the loop.
    [os.walk] ignores the errors of listing. *)
Fixpoint loop_drives (drives : list dir) (w : session) : session :=
  match drives with
  | [] => w
  | drive :: rest =>
      let (s, w1) := read_stopped w in
      if s then w1
      else
        let w2 := loop_walk (walk drive) (announce_drive drive w1) in
        match raised w2 with
        | Some e =>
            if caught e then loop_drives rest (set_raised None w2) else w2
        | None => loop_drives rest w2
        end
  end.

(** [sqlite3.connect] on an existing file, [CREATE TABLE IF NOT EXISTS] and
    the first [conn.commit()]. *)
Definition open_store (db : database) : connection :=
  let t := create_table_if_not_exists db in mk_connection t t.

(** [run] from the first statement to [self.files_processed = 0]. *)
Definition start (drives : list dir) (db : database) (pending : option nat)
  : session :=
  let w0 := __init__ (open_store db) pending in
  let w1 := emit (progress_signal Estimating 0) w0 in
  let w2 := _estimate_total_files drives w1 in
  set_processed 0 w2.

(** [run] after the loop over [drives]: the last commit and the two last
    signals. *)
Definition finish (w : session) : session :=
  let w1 := commit w in
  let w2 := emit (progress_signal (Completed (files_processed w1)) 100) w1 in
  emit finished_signal w2.

(** [FileIndexer.run] after the connection is open.  An exception that has
    left the loop over [drives] leaves [run]: the statements after the loop
    are not reached. *)
Definition run_connected (drives : list dir) (db : database)
    (pending : option nat) : session :=
  let w := loop_drives drives (start drives db pending) in
  match raised w with
  | Some _ => w
  | None => finish w
  end.

(** [FileIndexer.run]: [drives] is what [_get_drives] returns, [disk] what
    [sqlite3.connect] and the statement that creates the table give,
    [pending] the schedule of the thread that may call [stop].  The result
    is the error with which the store refuses to open, raised before the
    first signal, or the state in which [run] ends. *)
Definition run (drives : list dir) (disk : sqlite3_Error + database)
    (pending : option nat) : sqlite3_Error + session :=
  match disk with
  | inl e => inl e
  | inr db => inr (run_connected drives db pending)
  end.

(** *** The walk as a sequence of steps

    Every read of [self.stopped] that gives [False] is followed by one step:
    the start of a drive, the entry into a directory, or one file. *)

Inductive step :=
  | DriveStep (drive : dir)
  | DirStep (root : string)
  | FileStep (root : string) (f : file).

Definition do_step (s : step) (w : session) : session :=
  match s with
  | DriveStep drive => announce_drive drive w
  | DirStep _ => w
  | FileStep root f => process_file root f w
  end.

Definition steps_of_entry (e : walk_entry) : list step :=
  let '(root, _, files) := e in DirStep root :: map (FileStep root) files.

Definition steps_of_drive (drive : dir) : list step :=
  DriveStep drive :: flat_map steps_of_entry (walk drive).

Definition steps (drives : list dir) : list step :=
  flat_map steps_of_drive drives.

(** The steps in order, up to the first one that raises. *)
Fixpoint do_steps (l : list step) (w : session) : session :=
  match l with
  | [] => w
  | s :: rest =>
      let w1 := do_step s w in
      match raised w1 with
      | Some _ => w1
      | None => do_steps rest w1
      end
  end.

(** The steps with the read of [self.stopped] before each of them. *)
Fixpoint run_steps (l : list step) (w : session) : session :=
  match l with
  | [] => w
  | s :: rest =>
      let (b, w1) := read_stopped w in
      if b then w1
      else
        let w2 := do_step s w1 in
        match raised w2 with
        | Some _ => w2
        | None => run_steps rest w2
        end
  end.

(** What the body of the loop over [files] does with a file, which no
    state decides: it passes the file over (a hidden file, an exception
    that is caught), it raises an exception that leaves [run], or it
    upserts the entry of the file. *)
Inductive verdict :=
  | Skip
  | Abort (e : exception)
  | Upsert (e : entry).

Definition verdict_of (root : string) (f : file) : verdict :=
  if Text.startswith (f_name f) "." then Skip
  else
    match f_stat f with
    | inl _ => Skip
    | inr st =>
        match format_mtime (st_mtime st) with
        | inl x => if caught x then Skip else Abort x
        | inr modified_date =>
            match insert_error (entry_of root f st modified_date) with
            | Some x => if caught x then Skip else Abort x
            | None => Upsert (entry_of root f st modified_date)
            end
        end
    end.

(** The entry a step upserts, if it upserts one. *)
Definition entry_of_step (s : step) : list entry :=
  match s with
  | FileStep root f =>
      match verdict_of root f with
      | Upsert e => [e]
      | _ => []
      end
  | _ => []
  end.

(** The exception with which a step leaves [run], if it does. *)
Definition step_error (s : step) : option exception :=
  match s with
  | FileStep root f =>
      match verdict_of root f with
      | Abort e => Some e
      | _ => None
      end
  | _ => None
  end.

(** The exception of the first step of [l] that raises one. *)
Fixpoint first_error (l : list step) : option exception :=
  match l with
  | [] => None
  | s :: rest =>
      match step_error s with
      | Some e => Some e
      | None => first_error rest
      end
  end.

(** The steps of [l] before the first one that raises. *)
Fixpoint completed (l : list step) : list step :=
  match l with
  | [] => []
  | s :: rest =>
      match step_error s with
      | Some _ => []
      | None => s :: completed rest
      end
  end.

(** The steps of [l] up to the first one that raises, that one included:
    the steps a run without a stop enters. *)
Fixpoint attempted (l : list step) : list step :=
  match l with
  | [] => []
  | s :: rest =>
      s :: match step_error s with
           | Some _ => []
           | None => attempted rest
           end
  end.

(** The entries the steps [l], done in order, upsert: those of the steps
    before the first one that raises. *)
Definition entries_of_steps (l : list step) : list entry :=
  flat_map entry_of_step (completed l).

(** What a step that raises nothing does to the state. *)
Definition effect (s : step) (w : session) : session :=
  match s with
  | DriveStep drive => announce_drive drive w
  | DirStep _ => w
  | FileStep root f =>
      match verdict_of root f with
      | Upsert e => count_file (upsert e w)
      | _ => w
      end
  end.

Definition effects (l : list step) (w : session) : session :=
  fold_left (fun w s => effect s w) l w.

End Run.

(** The steps done when the other thread stops after [p] reads. *)
Definition taken (p : option nat) (l : list step) : list step :=
  match p with
  | Some n => firstn n l
  | None => l
  end.

(** Is the stop seen during the steps [l]? *)
Definition seen (p : option nat) (l : list step) : bool :=
  match p with
  | Some n => (n <? List.length l)%nat
  | None => false
  end.

(** What is left of the schedule after the steps [l]. *)
Definition left_over (p : option nat) (l : list step) : option nat :=
  match p with
  | Some n => if (n <? List.length l)%nat then None
              else Some (n - List.length l)%nat
  | None => None
  end.

(** The progress events of a run as pairs of the processed count at the
    emission and the percentage carried. *)
Definition progress_events (l : list emission) : list (Z * Z) :=
  flat_map (fun e => match sig e with
                     | progress_signal _ p => [(at_processed e, p)]
                     | finished_signal => []
                     end) l.

(** What a signal before the last two may be, for the estimate [T]: the
    percentage is that of the processed count [a] at the emission, and the
    text fits. *)
Definition body_message (T a p : Z) (m : message) : Prop :=
  match m with
  | Estimating => a = 0
  | Estimated t => a = 0 /\ t = T
  | IndexingDrive _ => True
  | Indexed c p' => c = a /\ p' = p /\ a mod 500 = 0 /\ 0 < a
  | Completed _ => False
  end.

Definition body_emission (T n : Z) (e : emission) : Prop :=
  0 <= at_processed e <= n
  /\ exists m, sig e = progress_signal m (percentage_of (at_processed e) T)
               /\ body_message T (at_processed e)
                               (percentage_of (at_processed e) T) m.

(** What holds of a session during the walk, for the estimate [T]. *)
Definition walking (T : Z) (w : session) : Prop :=
  total_files_estimated w = T
  /\ 0 <= files_processed w
  /\ Forall (body_emission T (files_processed w)) (emitted w)
  /\ Sorted Z.le (map at_processed (emitted w)).

(** The two signals that end a run. *)
Definition terminal (n : Z) : list emission :=
  [ mk_emission n (progress_signal (Completed n) 100);
    mk_emission n finished_signal ].

(** The signals after the loops: the two last ones when [run] returns, none
    when an exception has left it. *)
Definition ending (r : option exception) (n : Z) : list emission :=
  match r with
  | None => terminal n
  | Some _ => []
  end.

(** The exception that leaves a call of [run], if one does, and the signals
    the call has emitted. *)
Definition run_raises (r : sqlite3_Error + session) : option exception :=
  match r with
  | inl e => Some (sqlite3 e)
  | inr w => raised w
  end.

Definition run_signals (r : sqlite3_Error + session) : list signal :=
  match r with
  | inl _ => []
  | inr w => map sig (emitted w)
  end.

End FileIndexer.

(* ------------------------------------------------------------------ *)
(** ** Example data *)

Module Examples.
Import Store.
#[local] Open Scope Z_scope.

(** A store with two files whose names differ in one character. *)
Definition two_files : table :=
  [ mk_row 1 (mk_entry "my-file.txt" "/home/u/my-file.txt" ".txt" 10
                       "2024-01-01 10:00:00");
    mk_row 2 (mk_entry "my_file.txt" "/home/u/my_file.txt" ".txt" 20
                       "2024-01-02 10:00:00") ].

(** A file that [os.stat] reads, and one it may not read. *)
Definition readable (n : string) : FileIndexer.file :=
  FileIndexer.mk_file n
    (inr (FileIndexer.mk_stat 100 (inject_Z 1700000000))).

Definition unreadable (n : string) : FileIndexer.file :=
  FileIndexer.mk_file n (inl FileIndexer.PermissionError).

(** A root with one file. *)
Definition one_file : FileIndexer.dir :=
  FileIndexer.Dir "/" true [readable "a.txt"] [].

(** A root with nine files that can be read and one that cannot. *)
Definition nine_and_one : FileIndexer.dir :=
  FileIndexer.Dir "/data" true
    [ readable "f1"; readable "f2"; readable "f3"; readable "f4";
      unreadable "locked"; readable "f5"; readable "f6"; readable "f7";
      readable "f8"; readable "f9" ] [].

(** A root that cannot be listed. *)
Definition closed_root : FileIndexer.dir :=
  FileIndexer.Dir "/" false [] [].

(** A time stamp shown as a fixed text. *)
Definition fixed_date (t : Float.float) : FileIndexer.exception + string :=
  inr "2023-11-14 22:13:20".

(** A store that takes every row. *)
Definition no_error (e : entry) : option FileIndexer.exception := None.

(** A clock for which the years end with 9999: a time stamp from
    253402300800 on raises [ValueError]. *)
Definition dated (t : Float.float) : FileIndexer.exception + string :=
  if Qle_bool (inject_Z 253402300800) t then inl FileIndexer.ValueError
  else inr "2023-11-14 22:13:20".

(** A store that cannot encode the name ["bad"], which stands for a name
    whose bytes are no UTF-8. *)
Definition no_bad_name (e : entry) : option FileIndexer.exception :=
  if (e_name e =? "bad")%string then Some FileIndexer.UnicodeEncodeError
  else None.

(** A root with three files, the second with such a name. *)
Definition with_bad_name : FileIndexer.dir :=
  FileIndexer.Dir "/" true
    [readable "a.txt"; readable "bad"; readable "c.txt"] [].

(** A file with a time stamp in the year 10000. *)
Definition future (n : string) : FileIndexer.file :=
  FileIndexer.mk_file n
    (inr (FileIndexer.mk_stat 100 (inject_Z 253402300800))).

(** A root with three files, the second from the year 10000. *)
Definition with_future : FileIndexer.dir :=
  FileIndexer.Dir "/" true
    [readable "a.txt"; future "future.txt"; readable "c.txt"] [].

End Examples.

(* ------------------------------------------------------------------ *)
(** ** Further notions used in the statements *)

Module More.
Import Store.
#[local] Open Scope Z_scope.

(** The order of the rowids. *)
Definition by_id (a b : row) : Prop := id a < id b.

(** The path of the row is the path of no entry of [es]. *)
Definition untouched (es : list entry) (r : row) : bool :=
  path_notin es (fields r).

(** The text with its ASCII letters in upper case. *)
Fixpoint ascii_upper (s : string) : string :=
  match s with
  | EmptyString => EmptyString
  | String c s' => String (like_fold c) (ascii_upper s')
  end.

(** [os.path.dirname] of [posixpath], which [open_location] applies to the
    path of a row: the text up to the last ["/"], without the slashes at
    its end unless it holds nothing else. *)
Fixpoint head_to_last_slash (p : string) : string :=
  match p with
  | EmptyString => EmptyString
  | String c p' =>
      match head_to_last_slash p' with
      | EmptyString => if Ascii.eqb c "/" then String c EmptyString
                       else EmptyString
      | h => String c h
      end
  end.

Fixpoint all_slashes (s : string) : bool :=
  match s with
  | EmptyString => true
  | String c s' => Ascii.eqb c "/" && all_slashes s'
  end.

Fixpoint rstrip_slash (s : string) : string :=
  match s with
  | EmptyString => EmptyString
  | String c s' =>
      match rstrip_slash s' with
      | EmptyString => if Ascii.eqb c "/" then EmptyString
                       else String c EmptyString
      | r => String c r
      end
  end.

Definition dirname (p : string) : string :=
  let head := head_to_last_slash p in
  if negb (head =? "")%string && negb (all_slashes head)
  then rstrip_slash head
  else head.

(** No ["."] in the text. *)
Fixpoint no_dot (s : string) : bool :=
  match s with
  | EmptyString => true
  | String c s' => negb (Ascii.eqb c ".") && no_dot s'
  end.

(** No ["/"] in the text. *)
Fixpoint no_slash (s : string) : bool :=
  match s with
  | EmptyString => true
  | String c s' => negb (Ascii.eqb c "/") && no_slash s'
  end.

(** The number of upserts in whole batches of 500 among [n] upserts. *)
Definition batch_end (n : nat) : nat := Z.to_nat (500 * (Z.of_nat n / 500)).

(** The upserts of [es] that are committed when [run] ends: all of them
    when it returns, those of the whole batches of 500 when an exception
    has left it. *)
Definition kept_upserts (r : option FileIndexer.exception)
    (es : list entry) : list entry :=
  match r with
  | None => es
  | Some _ => firstn (batch_end (List.length es)) es
  end.

(** The files of the walk entries [ws] that are not hidden, and their
    directory names that are not hidden, counted. *)
Definition visible_files (ws : list FileIndexer.walk_entry) : Z :=
  fold_right
    (fun e n =>
       Z.of_nat (List.length (filter FileIndexer.not_hidden_file (snd e))) + n)
    0 ws.

Definition visible_dirs (ws : list FileIndexer.walk_entry) : Z :=
  fold_right
    (fun e n =>
       Z.of_nat (List.length
                   (filter FileIndexer.not_hidden_dir (snd (fst e)))) + n)
    0 ws.

(** The directory [d'] lies below [d] along the directory names [names],
    every directory on the way, [d] and [d'] too, can be listed, and every
    name on the way satisfies [keep]. *)
Inductive reaches (keep : string -> bool)
  : FileIndexer.dir -> list string -> FileIndexer.dir -> Prop :=
  | reaches_here : forall n fs sds,
      reaches keep (FileIndexer.Dir n true fs sds) []
              (FileIndexer.Dir n true fs sds)
  | reaches_down : forall n fs sds sd names d',
      In sd sds ->
      keep (FileIndexer.dir_name sd) = true ->
      reaches keep sd names d' ->
      reaches keep (FileIndexer.Dir n true fs sds)
              (FileIndexer.dir_name sd :: names) d'.

Definition dir_files (d : FileIndexer.dir) : list FileIndexer.file :=
  match d with FileIndexer.Dir _ _ fs _ => fs end.

Definition dir_subdirs (d : FileIndexer.dir) : list FileIndexer.dir :=
  match d with FileIndexer.Dir _ _ _ sds => sds end.

(** The text is empty or starts, respectively ends, with a character that
    is no white space. *)
Definition starts_clean (s : string) : Prop :=
  match s with
  | EmptyString => True
  | String c _ => Text.isspace c = false
  end.

Fixpoint last_clean (s : string) : Prop :=
  match s with
  | EmptyString => True
  | String c EmptyString => Text.isspace c = false
  | String _ s' => last_clean s'
  end.

(** What holds between the steps: [done] are the entries upserted so far on
    the table [t0]. *)
Definition batched (t0 : table) (done : list entry)
    (w : FileIndexer.session) : Prop :=
  FileIndexer.working (FileIndexer.conn w) = fold_left insert_or_replace done t0
  /\ FileIndexer.files_processed w = Z.of_nat (List.length done)
  /\ FileIndexer.committed (FileIndexer.conn w)
     = fold_left insert_or_replace (firstn (batch_end (List.length done)) done)
                 t0.

(** The counts carried by the "Indexed n files" signals, oldest first. *)
Definition indexed_counts (l : list FileIndexer.emission) : list Z :=
  flat_map (fun e => match FileIndexer.sig e with
                     | FileIndexer.progress_signal
                         (FileIndexer.Indexed c _) _ => [c]
                     | _ => []
                     end) l.

(** 500, 1000, ... up to the last multiple of 500 that is at most [n]. *)
Definition multiples_of_500 (n : Z) : list Z :=
  map (fun i => 500 * Z.of_nat i) (seq 1 (Z.to_nat (n / 500))).

(** What holds of the "Indexed" signals between the steps. *)
Definition counted (w : FileIndexer.session) : Prop :=
  0 <= FileIndexer.files_processed w
  /\ indexed_counts (FileIndexer.emitted w) = multiples_of_500 (FileIndexer.files_processed w).

(** The order of the items shown: by their text. *)
Definition item_le (a b : SearchBar.item) : Prop :=
  String.leb (SearchBar.item_text a) (SearchBar.item_text b) = true.

End More.

(* ------------------------------------------------------------------ *)
(** ** Drives and keys *)

Module App.
Import Store SearchBar.
#[local] Open Scope Z_scope.

(** [sys.platform], as [_get_drives] tells the cases apart. *)
Inductive platform := win32 | darwin | linux | other_platform.

(** [chr(letter) + ":\\"] *)
Definition drive_path (letter : nat) : string :=
  String (ascii_of_nat letter) (String ":" (String "\" EmptyString)).

(** The loop of [_get_drives] over the letters, with [bitmask >>= 1] after
    each. *)
Fixpoint drives_from (letters : list nat) (bitmask : Z) : list string :=
  match letters with
  | [] => []
  | letter :: rest =>
      ((if negb (Z.land bitmask 1 =? 0) then [drive_path letter] else [])
       ++ drives_from rest (Z.shiftr bitmask 1))%list
  end.

(** [FileIndexer._get_drives]: [bitmask] is what [GetLogicalDrives] returns,
    [home] what [os.path.expanduser("~")] gives. *)
Definition _get_drives (p : platform) (bitmask : Z) (home : string)
  : list string :=
  match p with
  | win32 => drives_from (seq 65 26) bitmask
  | darwin | linux => ["/"%string]
  | other_platform => [home]
  end.

(** The search bar with what the keys act on: the current row of the result
    list (-1 when there is none), whether the bar is on the screen, the
    paths handed to [open_path] and the number of [closed] signals, oldest
    first. *)
Record view := mk_view {
  bar : search_bar;
  current_row : Z;
  on_screen : bool;
  opened : list string;
  closed : nat
}.

(** [search] as the widget runs it: [results_list.clear()] leaves no
    current row, and [setCurrentRow(0)] follows when there are results. *)
Definition search_view (text : string) (db : database) (v : view) : view :=
  let sb := search text db (bar v) in
  mk_view sb
          (if (0 <? List.length (results_list sb))%nat then 0 else -1)
          (on_screen v) (opened v) (closed v).

(** [self.hide(); self.closed.emit()] *)
Definition hide_and_close (v : view) : view :=
  mk_view (bar v) (current_row v) false (opened v) (S (closed v)).

(** [results_list.currentItem()] *)
Definition current_item (v : view) : option item :=
  if current_row v <? 0 then None
  else nth_error (results_list (bar v)) (Z.to_nat (current_row v)).

(** [SearchBar.open_file] *)
Definition open_file (it : item) (v : view) : view :=
  if (item_data it =? "")%string then v
  else hide_and_close
         (mk_view (bar v) (current_row v) (on_screen v)
                  (opened v ++ [item_data it])%list (closed v)).

Inductive key := Key_Escape | Key_Return | Key_Down | Key_Up | Key_other.

(** [SearchBar.keyPressEvent] *)
Definition keyPressEvent (k : key) (v : view) : view :=
  let count := Z.of_nat (List.length (results_list (bar v))) in
  match k with
  | Key_Escape => hide_and_close v
  | Key_Return =>
      match current_item v with
      | Some it => open_file it v
      | None => v
      end
  | Key_Down =>
      if current_row v <? count - 1
      then mk_view (bar v) (current_row v + 1) (on_screen v) (opened v)
                   (closed v)
      else v
  | Key_Up =>
      if 0 <? current_row v
      then mk_view (bar v) (current_row v - 1) (on_screen v) (opened v)
                   (closed v)
      else v
  | Key_other => v
  end.

(** The current row is a row of the list, or -1 when the list is empty. *)
Definition selection_ok (v : view) : Prop :=
  let count := Z.of_nat (List.length (results_list (bar v))) in
  (count = 0 /\ current_row v = -1) \/ 0 <= current_row v < count.

(** *** The caller of the indexer: [KhojDaSearch] *)

(** The text of the status label of [IndexingDialog]: the one [__init__]
    sets, or the message of the last progress signal. *)
Inductive dialog_text :=
  | Preparing
  | Status (m : FileIndexer.message).

Record indexing_dialog := mk_dialog {
  dialog_status : dialog_text;
  progress_bar : Z
}.

(** [IndexingDialog.update_status] *)
Definition update_status (m : FileIndexer.message) (percentage : Z)
    (d : indexing_dialog) : indexing_dialog :=
  mk_dialog (Status m) percentage.

(** The fields of [KhojDaSearch] that the signals of the thread write: the
    dialog ([None] when there is none on the screen), the search bar
    ([None] before [init_search_bar]) and whether it is on the screen. *)
Record khoj := mk_khoj {
  khoj_dialog : option indexing_dialog;
  khoj_search_bar : option search_bar;
  khoj_bar_visible : bool
}.

(** [KhojDaSearch.start_indexing]: the dialog is made and shown, the two
    signals are connected and the thread is started.  Nothing else of the
    thread reaches the caller: [FileIndexer] has these two signals only. *)
Definition start_indexing (k : khoj) : khoj :=
  mk_khoj (Some (mk_dialog Preparing 0)) (khoj_search_bar k)
          (khoj_bar_visible k).

(** [KhojDaSearch.init_search_bar]; [SearchBar()] raises when
    [sqlite3.connect] does. *)
Definition init_search_bar (screen_max_height : Z) (disk : connect_result)
    (k : khoj) : sqlite3_Error + khoj :=
  match khoj_search_bar k with
  | Some _ => inr k
  | None =>
      match SearchBar.__init__ screen_max_height disk with
      | inl e => inl e
      | inr sb => inr (mk_khoj (khoj_dialog k) (Some sb) (khoj_bar_visible k))
      end
  end.

(** [KhojDaSearch.toggle_search_bar]: a bar on the screen is hidden, a
    hidden one is emptied and shown. *)
Definition toggle_search_bar (screen_max_height : Z) (disk : connect_result)
    (k : khoj) : sqlite3_Error + khoj :=
  match init_search_bar screen_max_height disk k with
  | inl e => inl e
  | inr k1 =>
      if khoj_bar_visible k1
      then inr (mk_khoj (khoj_dialog k1) (khoj_search_bar k1) false)
      else
        inr (mk_khoj (khoj_dialog k1)
               (option_map
                  (fun sb =>
                     {| results_list := [];
                        results_container_visible := false;
                        status_label := status_label sb;
                        window_height := min_height;
                        max_height := max_height sb;
                        executed := executed sb |})
                  (khoj_search_bar k1))
               true)
  end.

(** [KhojDaSearch.on_indexing_finished] *)
Definition on_indexing_finished (show_search : bool)
    (screen_max_height : Z) (disk : connect_result) (k : khoj)
  : sqlite3_Error + khoj :=
  let k1 := mk_khoj None (khoj_search_bar k) (khoj_bar_visible k) in
  if show_search then
    match init_search_bar screen_max_height disk k1 with
    | inl e => inl e
    | inr k2 => toggle_search_bar screen_max_height disk k2
    end
  else inr k1.

(** The slot that a signal of the thread runs in the caller;
    [show_search] is [first_time or show_search_after] of
    [start_indexing]. *)
Definition deliver (show_search : bool) (screen_max_height : Z)
    (disk : connect_result) (s : FileIndexer.signal) (k : khoj)
  : sqlite3_Error + khoj :=
  match s with
  | FileIndexer.progress_signal m percentage =>
      inr (mk_khoj (option_map (update_status m percentage) (khoj_dialog k))
                   (khoj_search_bar k) (khoj_bar_visible k))
  | FileIndexer.finished_signal =>
      on_indexing_finished show_search screen_max_height disk k
  end.

(** The slots run for the signals of a thread, in the order of emission. *)
Fixpoint receive (show_search : bool) (screen_max_height : Z)
    (disk : connect_result) (l : list FileIndexer.signal) (k : khoj)
  : sqlite3_Error + khoj :=
  match l with
  | [] => inr k
  | s :: rest =>
      match deliver show_search screen_max_height disk s k with
      | inl e => inl e
      | inr k1 => receive show_search screen_max_height disk rest k1
      end
  end.

End App.

(* ------------------------------------------------------------------ *)
(** ** Facts about the store *)

Module StoreFacts.
Import Store.
#[local] Open Scope list_scope.

Lemma path_filter_notin (p : string) (t : table) :
  ~ In p (map path (filter (fun r => negb (path r =? p)) t)).
Proof.
  induction t as [|r t IH]; simpl; [tauto|].
  destruct (path r =? p) eqn:E; simpl; [exact IH|].
  intros [H|H]; [|exact (IH H)].
  apply String.eqb_neq in E. contradiction.
Qed.

Lemma NoDup_path_filter (f : row -> bool) (t : table) :
  NoDup (map path t) -> NoDup (map path (filter f t)).
Proof.
  induction t as [|r t IH]; simpl; intros H; [constructor|].
  inversion H as [|? ? Hn Hd]; subst.
  destruct (f r); simpl; [|auto].
  constructor; [|auto].
  intros Hin. apply Hn.
  apply in_map_iff in Hin. destruct Hin as [x [Hx Hf]].
  apply filter_In in Hf. apply in_map_iff. exists x. tauto.
Qed.

Lemma NoDup_snoc {A} (l : list A) (x : A) :
  NoDup l -> ~ In x l -> NoDup (l ++ [x]).
Proof.
  induction l as [|a l IH]; simpl; intros Hd Hn.
  - constructor; [tauto|constructor].
  - inversion Hd; subst. constructor.
    + rewrite in_app_iff. simpl. intros [H|[H|[]]]; [tauto|].
      apply Hn. left. auto.
    + apply IH; tauto.
Qed.

Lemma insert_or_replace_NoDup (t : table) (e : entry) :
  NoDup (map path t) -> NoDup (map path (insert_or_replace t e)).
Proof.
  intros H. unfold insert_or_replace. rewrite map_app. simpl.
  apply NoDup_snoc.
  - apply NoDup_path_filter. exact H.
  - apply path_filter_notin.
Qed.

Lemma upserts_NoDup (es : list entry) (t : table) :
  NoDup (map path t) -> NoDup (map path (fold_left insert_or_replace es t)).
Proof.
  revert t. induction es as [|e es IH]; simpl; intros t H; [exact H|].
  apply IH. apply insert_or_replace_NoDup. exact H.
Qed.

(** The entries of the table after an upsert: the entries of the other
    paths, then the new one. *)
Lemma entries_insert_or_replace (t : table) (e : entry) :
  entries (insert_or_replace t e)
  = filter (fun x => negb (e_path x =? e_path e)) (entries t) ++ [e].
Proof.
  unfold insert_or_replace, entries. rewrite map_app. simpl. f_equal.
  induction t as [|r t IH]; simpl; [reflexivity|].
  unfold path at 1. destruct (e_path (fields r) =? e_path e); simpl;
    rewrite IH; reflexivity.
Qed.

Lemma entries_upserts (es : list entry) (t : table) :
  entries (fold_left insert_or_replace es t)
  = fold_left upsert_entry es (entries t).
Proof.
  revert t. induction es as [|e es IH]; simpl; intros t; [reflexivity|].
  rewrite IH, entries_insert_or_replace. reflexivity.
Qed.

Lemma filter_filter {A} (f g : A -> bool) (l : list A) :
  filter f (filter g l) = filter (fun x => g x && f x) l.
Proof.
  induction l as [|a l IH]; simpl; [reflexivity|].
  destruct (g a); simpl; [destruct (f a)|]; rewrite IH; reflexivity.
Qed.

Lemma upserts_split (es : list entry) (l : list entry) :
  fold_left upsert_entry es l
  = filter (path_notin es) l ++ fold_left upsert_entry es [].
Proof.
  revert l. induction es as [|e es IH]; intros l; simpl.
  - rewrite app_nil_r. induction l; simpl; congruence.
  - rewrite IH. rewrite (IH (upsert_entry [] e)).
    unfold upsert_entry at 1 2. simpl.
    rewrite filter_app, filter_filter, <- app_assoc. f_equal.
    apply filter_ext. intros x. unfold path_notin. simpl.
    destruct (e_path x =? e_path e); reflexivity.
Qed.

Lemma upserts_paths (es : list entry) (l : list entry) (x : entry) :
  In x (fold_left upsert_entry es l) ->
  In x l \/ In x es.
Proof.
  revert l. induction es as [|e es IH]; simpl; intros l H; [tauto|].
  apply IH in H. destruct H as [H|H]; [|tauto].
  unfold upsert_entry in H. apply in_app_iff in H.
  destruct H as [H|[H|[]]]; [|tauto].
  apply filter_In in H. tauto.
Qed.

Lemma filter_none {A} (f : A -> bool) (l : list A) :
  (forall x, In x l -> f x = false) -> filter f l = [].
Proof.
  induction l as [|a l IH]; simpl; intros H; [reflexivity|].
  rewrite (H a) by tauto. apply IH. intros x Hx. apply H. tauto.
Qed.

(** Upserting the same entries a second time changes no entry. *)
Lemma upserts_twice (es : list entry) (l : list entry) :
  fold_left upsert_entry es (fold_left upsert_entry es l)
  = fold_left upsert_entry es l.
Proof.
  rewrite (upserts_split es (fold_left upsert_entry es l)).
  rewrite (upserts_split es l) at 1.
  rewrite filter_app, filter_filter.
  rewrite (filter_none (path_notin es) (fold_left upsert_entry es [])).
  - rewrite app_nil_r. rewrite (upserts_split es l). f_equal.
    apply filter_ext. intros x. destruct (path_notin es x); reflexivity.
  - intros x Hx. apply upserts_paths in Hx. destruct Hx as [[]|Hx].
    unfold path_notin. apply negb_false_iff. apply existsb_exists.
    exists x. split; [exact Hx|apply String.eqb_refl].
Qed.

End StoreFacts.

(* ------------------------------------------------------------------ *)
(** ** Facts about [LIKE] and the query *)

Module QueryFacts.
Import Store Spec.
#[local] Open Scope list_scope.

Lemma like_percent (p s : string) :
  like (String "%" p) s
  = like p s
    || match s with
       | EmptyString => false
       | String _ s' => like (String "%" p) s'
       end.
Proof. destruct s; reflexivity. Qed.

Lemma like_percent_only (s : string) : like "%" s = true.
Proof.
  induction s as [|c s IH]; [reflexivity|].
  rewrite like_percent. rewrite IH. apply orb_true_r.
Qed.

Lemma like_literal_prefix (q s : string) :
  no_wildcard q = true ->
  like (q ++ "%")%string s = prefix_ci q s.
Proof.
  revert s. induction q as [|c q IH]; intros s H.
  - simpl String.append. rewrite like_percent_only. destruct s; reflexivity.
  - simpl in H. apply andb_true_iff in H. destruct H as [H Hq].
    apply andb_true_iff in H. destruct H as [Hp Hu].
    apply negb_true_iff in Hp, Hu.
    simpl. rewrite Hp. destruct s as [|d s]; [reflexivity|].
    rewrite Hu. simpl. rewrite IH by exact Hq. reflexivity.
Qed.

(** Without a wildcard in the fragment, the pattern of [search] tests
    containment. *)
Lemma like_contains (q s : string) :
  no_wildcard q = true ->
  like ("%" ++ q ++ "%")%string s = contains_ci q s.
Proof.
  intros H. induction s as [|d s IH].
  - change ("%" ++ q ++ "%")%string with (String "%" (q ++ "%")).
    rewrite like_percent, like_literal_prefix by exact H.
    simpl. destruct q; reflexivity.
  - change ("%" ++ q ++ "%")%string with (String "%" (q ++ "%")) in *.
    rewrite like_percent, like_literal_prefix by exact H.
    rewrite IH. destruct q; reflexivity.
Qed.

(** *** [ORDER BY name] *)

Lemma leb_false_le (a b : string) :
  String.leb a b = false -> String.leb b a = true.
Proof.
  intros H. destruct (String.leb_total a b) as [E|E]; congruence.
Qed.

Lemma insert_by_name_HdRel (r x : row) (l : list row) :
  name_le x r -> HdRel name_le x l -> HdRel name_le x (insert_by_name r l).
Proof.
  intros Hx Hl. destruct l as [|y l]; simpl.
  - constructor. exact Hx.
  - destruct (String.leb (name r) (name y)); constructor; [exact Hx|].
    inversion Hl; assumption.
Qed.

Lemma insert_by_name_Sorted (r : row) (l : list row) :
  Sorted name_le l -> Sorted name_le (insert_by_name r l).
Proof.
  induction l as [|x l IH]; simpl; intros H.
  - repeat constructor.
  - inversion H as [|? ? Hs Hh]; subst.
    destruct (String.leb (name r) (name x)) eqn:E.
    + constructor; [exact H|]. constructor. exact E.
    + constructor; [auto|].
      apply insert_by_name_HdRel; [|exact Hh].
      apply leb_false_le. exact E.
Qed.

Lemma order_by_name_Sorted (l : list row) : Sorted name_le (order_by_name l).
Proof.
  induction l as [|r l IH]; simpl; [constructor|].
  apply insert_by_name_Sorted. exact IH.
Qed.

Lemma insert_by_name_Permutation (r : row) (l : list row) :
  Permutation (r :: l) (insert_by_name r l).
Proof.
  induction l as [|x l IH]; simpl; [reflexivity|].
  destruct (String.leb (name r) (name x)); [reflexivity|].
  rewrite perm_swap. constructor. exact IH.
Qed.

Lemma order_by_name_Permutation (l : list row) :
  Permutation l (order_by_name l).
Proof.
  induction l as [|r l IH]; simpl; [constructor|].
  rewrite <- insert_by_name_Permutation. constructor. exact IH.
Qed.

(** Rows of equal name keep the order of the table. *)
Lemma insert_by_name_stable (n : string) (r : row) (l : list row) :
  filter (fun x => name x =? n) (insert_by_name r l)
  = filter (fun x => name x =? n) (r :: l).
Proof.
  induction l as [|x l IH]; [reflexivity|].
  simpl insert_by_name. destruct (String.leb (name r) (name x)) eqn:E;
    [reflexivity|].
  simpl in *. rewrite IH.
  destruct (name r =? n) eqn:Er; destruct (name x =? n) eqn:Ex;
    try reflexivity.
  apply String.eqb_eq in Er, Ex. subst n. rewrite <- Ex in E.
  destruct (String.leb_total (name x) (name x)); congruence.
Qed.

Lemma order_by_name_stable (n : string) (l : list row) :
  filter (fun x => name x =? n) (order_by_name l)
  = filter (fun x => name x =? n) l.
Proof.
  induction l as [|r l IH]; [reflexivity|].
  simpl order_by_name. rewrite insert_by_name_stable. simpl.
  rewrite IH. reflexivity.
Qed.

Lemma Sorted_firstn {A} (R : A -> A -> Prop) (n : nat) (l : list A) :
  Sorted R l -> Sorted R (firstn n l).
Proof.
  revert l. induction n as [|n IH]; intros l H; [constructor|].
  destruct l as [|a l]; [constructor|]. simpl.
  inversion H as [|? ? Hs Hh]; subst. constructor; [auto|].
  destruct l as [|b l]; [destruct n; constructor|].
  destruct n; [constructor|]. simpl. constructor.
  inversion Hh; assumption.
Qed.

(** *** The [SELECT] *)

Lemma Sorted_columns (l : list row) :
  Sorted name_le l -> Sorted result_le (map columns l).
Proof.
  induction 1 as [|r l Hs IH Hh]; simpl; constructor; [exact IH|].
  destruct Hh; simpl; constructor. assumption.
Qed.

Lemma select_like_bound (pattern : string) (t : table) :
  (List.length (select_like pattern t) <= 100)%nat.
Proof. unfold select_like. apply firstn_le_length. Qed.

Lemma select_like_sorted (pattern : string) (t : table) :
  Sorted result_le (select_like pattern t).
Proof.
  unfold select_like. apply Sorted_firstn.
  apply (Sorted_columns _ (order_by_name_Sorted _)).
Qed.

Lemma In_firstn {A} (n : nat) (l : list A) (x : A) :
  In x (firstn n l) -> In x l.
Proof.
  revert l. induction n as [|n IH]; intros [|a l]; simpl; try tauto.
  intros [H|H]; [tauto|]. right. apply IH. exact H.
Qed.

Lemma select_like_sound (pattern : string) (t : table)
    (x : string * string * string) :
  In x (select_like pattern t) ->
  exists r, In r t /\ x = columns r /\ like pattern (name r) = true.
Proof.
  unfold select_like. intros H. apply In_firstn in H.
  apply in_map_iff in H. destruct H as [r [Hx Hr]].
  apply (Permutation_in _ (Permutation_sym (order_by_name_Permutation _)))
    in Hr.
  apply filter_In in Hr. exists r. split; [tauto|]. split; [|tauto].
  symmetry. exact Hx.
Qed.

Lemma select_like_complete (pattern : string) (t : table) :
  (List.length (filter (fun r => like pattern (name r)) t) <= 100)%nat ->
  Permutation (map columns (filter (fun r => like pattern (name r)) t))
              (select_like pattern t).
Proof.
  intros H. unfold select_like. rewrite firstn_all2.
  - apply Permutation_map. apply order_by_name_Permutation.
  - rewrite length_map.
    rewrite <- (Permutation_length (order_by_name_Permutation _)). exact H.
Qed.

(** For a fragment without a wildcard the statement of [search] gives the
    answer the specification describes. *)
Lemma select_like_without_wildcard (q : string) (t : table) :
  no_wildcard q = true ->
  select_like ("%" ++ q ++ "%")%string t = query_answer q t.
Proof.
  intros H. unfold select_like, query_answer. do 3 f_equal.
  apply filter_ext. intros r. apply like_contains. exact H.
Qed.

End QueryFacts.

(* ------------------------------------------------------------------ *)
(** ** Facts about [SearchBar.search] *)

Module SearchFacts.
Import Store Spec SearchBar QueryFacts Examples.
#[local] Open Scope list_scope.

Lemma like_char_eq_refl (c : ascii) : like_char_eq c c = true.
Proof. apply Ascii.eqb_refl. Qed.

Lemma prefix_ci_app (q post : string) : prefix_ci q (q ++ post)%string = true.
Proof.
  induction q as [|c q IH]; simpl; [reflexivity|].
  rewrite like_char_eq_refl. exact IH.
Qed.

(** A name that holds the fragment as it is written holds it without
    case. *)
Lemma literal_substring_contains_ci (q s : string) :
  literal_substring q s -> contains_ci q s = true.
Proof.
  intros [pre [post E]]. subst s. induction pre as [|c pre IH].
  - simpl String.append.
    destruct (q ++ post)%string eqn:E; simpl; rewrite <- ?E;
      rewrite prefix_ci_app; reflexivity.
  - simpl. rewrite IH. apply orb_true_r.
Qed.

(** What [search] does after an input that is not blank: one statement,
    with the fragment between two ["%"]. *)
Lemma search_query (text : string) (db : database) (sb : search_bar) :
  Text.strip text <> ""%string ->
  executed (search text db sb)
  = executed sb ++ [("%" ++ Text.strip text ++ "%")%string]
  /\ match execute_select ("%" ++ Text.strip text ++ "%")%string db with
     | inr results =>
         results_list (search text db sb) = map make_item results
     | inl e =>
         results_list (search text db sb) = []
         /\ status_label (search text db sb) = SearchError (str_of_error e)
     end.
Proof.
  intros H. unfold search.
  destruct (String.eqb_spec (Text.strip text) ""); [contradiction|].
  destruct (execute_select _ db); simpl; auto.
Qed.

(** C3, at the failing input.  The fragment ["my_file"] on a store with the
    names ["my-file.txt"] and ["my_file.txt"]: [search] shows both rows,
    although only the second name contains the fragment, so the answer is
    not the set of rows whose name contains the fragment. *)
Theorem wildcard_fragment_not_containment :
  forall sb : search_bar,
    shown (search "my_file" (Some two_files) sb)
    = [("my-file.txt", "/home/u/my-file.txt");
       ("my_file.txt", "/home/u/my_file.txt")]
    /\ contains_ci "my_file" "my-file.txt" = false
    /\ map (fun r => fst (fst r)) (query_answer "my_file" two_files)
       = ["my_file.txt"%string].
Proof. intros sb. repeat split. Qed.

(** C9.  For the empty input [search] shows no row, runs no statement on
    the cursor and writes no error: the list is empty, the statements run
    and the status text are those before the call, and this holds whatever
    the store holds, also a store on which every statement fails. *)
Theorem empty_fragment_no_query :
  forall (db : database) (sb : search_bar),
    results_list (search "" db sb) = []
    /\ executed (search "" db sb) = executed sb
    /\ status_label (search "" db sb) = status_label sb
    /\ results_container_visible (search "" db sb) = false.
Proof. intros db sb. repeat split. Qed.

(** C10.  There are fragments with ["_"] and fragments with ["%"] for which
    [search] shows a row whose name does not contain the fragment: the
    character acts as a wildcard of [LIKE]. *)
Theorem wildcards_match_other_text :
  (exists (fragment : string) (t : table),
      no_wildcard fragment = false
      /\ forall sb, exists i,
           In i (results_list (search fragment (Some t) sb))
           /\ ~ literal_substring fragment (item_text i))
  /\ like "%my_file%" "my-file.txt" = true
  /\ like "%100%%" "100 percent.txt" = true
  /\ ~ literal_substring "100%" "100 percent.txt".
Proof.
  split; [|split; [reflexivity|split; [reflexivity|]]].
  - exists "my_file"%string, two_files. split; [reflexivity|].
    intros sb. eexists. split; [left; reflexivity|].
    simpl. intros H. apply literal_substring_contains_ci in H.
    discriminate H.
  - intros H. apply literal_substring_contains_ci in H. discriminate H.
Qed.

End SearchFacts.

(* ------------------------------------------------------------------ *)
(** ** Facts about floats *)

Module FloatFacts.
Import Float.
#[local] Open Scope Z_scope.

Lemma two_neq0 : ~ inject_Z 2 == 0.
Proof. intros H. discriminate H. Qed.

Lemma pow2_pos (e : Z) : (0 < pow2 e)%Q.
Proof. apply Qpower_0_lt. reflexivity. Qed.

Lemma pow2_add (a b : Z) : (pow2 (a + b) == pow2 a * pow2 b)%Q.
Proof. apply Qpower_plus. exact two_neq0. Qed.

Lemma pow2_le (a b : Z) : a <= b -> (pow2 a <= pow2 b)%Q.
Proof. intros H. apply Qpower_le_compat_l; [exact H|discriminate]. Qed.

Lemma pow2_lt_inv (a b : Z) : (pow2 a < pow2 b)%Q -> a < b.
Proof. intros H. apply (Qpower_lt_compat_l_inv _ _ _ H). reflexivity. Qed.

Lemma pow2_inject (n : Z) : 0 <= n -> (inject_Z (2 ^ n) == pow2 n)%Q.
Proof. apply Zpower_Qpower. Qed.

(** *** Rounding to an integer *)

Lemma rhe_floor (x : Q) : Qfloor x <= round_half_even x <= Qfloor x + 1.
Proof.
  unfold round_half_even.
  destruct (x - inject_Z (Qfloor x) ?= 1 # 2)%Q; [destruct (Z.even _)| |]; lia.
Qed.

Lemma rhe_lower (a : Z) (x : Q) : (inject_Z a <= x)%Q -> a <= round_half_even x.
Proof.
  intros H. apply Qfloor_resp_le in H. rewrite Qfloor_Z in H.
  pose proof (rhe_floor x). lia.
Qed.

Lemma rhe_upper (b : Z) (x : Q) : (x <= inject_Z b)%Q -> round_half_even x <= b.
Proof.
  intros H. pose proof (rhe_floor x) as Hf.
  pose proof (Qfloor_resp_le _ _ H) as Hb. rewrite Qfloor_Z in Hb.
  destruct (Z.eq_dec (Qfloor x) b) as [E|E]; [|lia].
  unfold round_half_even. rewrite E.
  destruct (Qcompare_spec (x - inject_Z b) (1 # 2)) as [C|C|C]; try lia;
    exfalso; lra.
Qed.

Lemma rhe_mono (x y : Q) : (x <= y)%Q -> round_half_even x <= round_half_even y.
Proof.
  intros H. pose proof (Qfloor_resp_le _ _ H) as Hf.
  pose proof (rhe_floor x). pose proof (rhe_floor y).
  destruct (Z.eq_dec (Qfloor x) (Qfloor y)) as [E|E]; [|lia].
  unfold round_half_even. rewrite <- E.
  destruct (Qcompare_spec (x - inject_Z (Qfloor x)) (1 # 2)) as [Cx|Cx|Cx];
  destruct (Qcompare_spec (y - inject_Z (Qfloor x)) (1 # 2)) as [Cy|Cy|Cy];
    try (destruct (Z.even _)); try lia; exfalso; lra.
Qed.

(** *** The binary exponent *)

Lemma Q_as_quotient (x : Q) :
  (x * inject_Z (Z.pos (Qden x)) == inject_Z (Qnum x))%Q.
Proof.
  destruct x as [n d]. unfold Qeq, Qmult, inject_Z. simpl. lia.
Qed.

Lemma log2_pow2 (n : Z) :
  0 < n -> (pow2 (Z.log2 n) <= inject_Z n < pow2 (Z.log2 n + 1))%Q.
Proof.
  intros H. pose proof (Z.log2_spec n H) as [H1 H2].
  pose proof (Z.log2_nonneg n).
  rewrite <- !pow2_inject by lia. rewrite <- Zle_Qle, <- Zlt_Qlt.
  replace (Z.log2 n + 1) with (Z.succ (Z.log2 n)) by lia. lia.
Qed.

Lemma ilog2_spec (x : Q) :
  (0 < x)%Q -> (pow2 (ilog2 x) <= x < pow2 (ilog2 x + 1))%Q.
Proof.
  intros Hx.
  assert (Hn : 0 < Qnum x).
  { destruct x as [n d]. unfold Qlt in Hx. simpl in *. lia. }
  pose proof (Q_as_quotient x) as Hq.
  pose proof (log2_pow2 (Qnum x) Hn) as [Hn1 Hn2].
  pose proof (log2_pow2 (Z.pos (Qden x)) eq_refl) as [Hd1 Hd2].
  set (a := Z.log2 (Qnum x)) in *. set (b := Z.log2 (Z.pos (Qden x))) in *.
  assert (Ha1 : (pow2 (a + 1) == pow2 (a - b + 1) * pow2 b)%Q).
  { rewrite <- pow2_add. replace (a - b + 1 + b) with (a + 1) by lia.
    reflexivity. }
  assert (Ha2 : (pow2 a == pow2 (a - b - 1) * pow2 (b + 1))%Q).
  { rewrite <- pow2_add. replace (a - b - 1 + (b + 1)) with a by lia.
    reflexivity. }
  assert (Ha3 : (pow2 (a - b) == pow2 (a - b - 1) * inject_Z 2)%Q).
  { change (inject_Z 2) with (pow2 1). rewrite <- pow2_add.
    replace (a - b - 1 + 1) with (a - b) by lia. reflexivity. }
  pose proof (pow2_pos (a - b + 1)). pose proof (pow2_pos (a - b - 1)).
  pose proof (pow2_pos b).
  assert (Hd0 : (0 < inject_Z (Z.pos (Qden x)))%Q) by reflexivity.
  set (D := inject_Z (Z.pos (Qden x))) in *.
  set (N := inject_Z (Qnum x)) in *.
  assert (Hup : (x < pow2 (a - b + 1))%Q).
  { apply (Qmult_lt_r _ _ D Hd0). rewrite Hq.
    apply (Qlt_le_trans _ _ _ Hn2). rewrite Ha1.
    apply Qmult_le_l; assumption. }
  assert (Hlo : (pow2 (a - b - 1) < x)%Q).
  { apply (Qmult_lt_r _ _ D Hd0). rewrite Hq.
    apply (Qlt_le_trans _ (pow2 (a - b - 1) * pow2 (b + 1))).
    - apply Qmult_lt_l; assumption.
    - rewrite <- Ha2. exact Hn1. }
  unfold ilog2. fold a b.
  destruct (Qle_bool (pow2 (a - b)) x) eqn:E.
  - apply Qle_bool_iff in E. split; assumption.
  - replace (a - b - 1 + 1) with (a - b) by lia. split.
    + apply Qlt_le_weak. exact Hlo.
    + apply Qnot_le_lt. intros C. apply Qle_bool_iff in C. congruence.
Qed.

Lemma ilog2_mono (x y : Q) : (0 < x)%Q -> (x <= y)%Q -> ilog2 x <= ilog2 y.
Proof.
  intros Hx Hxy.
  pose proof (ilog2_spec x Hx) as [H1 _].
  pose proof (ilog2_spec y (Qlt_le_trans _ _ _ Hx Hxy)) as [_ H2].
  assert (H : (pow2 (ilog2 x) < pow2 (ilog2 y + 1))%Q) by lra.
  apply pow2_lt_inv in H. lia.
Qed.

(** *** Rounding to 53 bits *)

Lemma scaled_range (x : Q) :
  (0 < x)%Q ->
  (inject_Z (2 ^ 52) <= x / pow2 (ilog2 x - 52)
   /\ x / pow2 (ilog2 x - 52) <= inject_Z (2 ^ 53))%Q.
Proof.
  intros Hx. pose proof (ilog2_spec x Hx) as [H1 H2].
  pose proof (pow2_pos (ilog2 x - 52)) as He.
  rewrite !pow2_inject by lia.
  assert (E1 : (pow2 (ilog2 x) == pow2 52 * pow2 (ilog2 x - 52))%Q).
  { rewrite <- pow2_add. replace (52 + (ilog2 x - 52)) with (ilog2 x) by lia.
    reflexivity. }
  assert (E2 : (pow2 (ilog2 x + 1) == pow2 53 * pow2 (ilog2 x - 52))%Q).
  { rewrite <- pow2_add.
    replace (53 + (ilog2 x - 52)) with (ilog2 x + 1) by lia. reflexivity. }
  split.
  - apply Qle_shift_div_l; [exact He|]. rewrite <- E1. exact H1.
  - apply Qle_shift_div_r; [exact He|]. rewrite <- E2.
    apply Qlt_le_weak. exact H2.
Qed.

Lemma round53_bounds (x : Q) :
  (0 < x)%Q ->
  (pow2 (ilog2 x) <= round53 x /\ round53 x <= pow2 (ilog2 x + 1))%Q.
Proof.
  intros Hx. destruct (scaled_range x Hx) as [H1 H2].
  apply rhe_lower in H1. apply rhe_upper in H2.
  pose proof (pow2_pos (ilog2 x - 52)) as He.
  unfold round53.
  set (m := round_half_even (x / pow2 (ilog2 x - 52))) in *.
  rewrite Zle_Qle in H1, H2. rewrite !pow2_inject in H1, H2 by lia.
  split.
  - replace (ilog2 x) with (52 + (ilog2 x - 52)) at 1 by lia.
    rewrite pow2_add. apply Qmult_le_compat_r; [exact H1|].
    apply Qlt_le_weak. exact He.
  - replace (ilog2 x + 1) with (53 + (ilog2 x - 52)) by lia.
    rewrite pow2_add. apply Qmult_le_compat_r; [exact H2|].
    apply Qlt_le_weak. exact He.
Qed.

Lemma round53_mono (x y : Q) :
  (0 < x)%Q -> (x <= y)%Q -> (round53 x <= round53 y)%Q.
Proof.
  intros Hx Hxy. assert (Hy : (0 < y)%Q) by lra.
  pose proof (ilog2_mono x y Hx Hxy) as Hl.
  destruct (Z.eq_dec (ilog2 x) (ilog2 y)) as [E|E].
  - unfold round53. rewrite E.
    pose proof (pow2_pos (ilog2 y - 52)) as He.
    apply Qmult_le_compat_r; [|apply Qlt_le_weak; exact He].
    rewrite <- Zle_Qle. apply rhe_mono.
    apply Qmult_le_compat_r; [exact Hxy|].
    apply Qlt_le_weak, Qinv_lt_0_compat. exact He.
  - destruct (round53_bounds x Hx) as [_ H1].
    destruct (round53_bounds y Hy) as [H2 _].
    assert (H3 : (pow2 (ilog2 x + 1) <= pow2 (ilog2 y))%Q)
      by (apply pow2_le; lia).
    lra.
Qed.

Lemma round53_pos (x : Q) : (0 < x)%Q -> (0 < round53 x)%Q.
Proof.
  intros Hx. destruct (round53_bounds x Hx) as [H _].
  pose proof (pow2_pos (ilog2 x)). lra.
Qed.

Lemma Qnum_pos (x : Q) : (0 < x)%Q <-> 0 < Qnum x.
Proof. destruct x as [n d]. unfold Qlt. simpl. lia. Qed.

Lemma rne_nonneg (x : Q) : (0 <= x)%Q -> (0 <= rne x)%Q.
Proof.
  intros Hx. unfold rne. destruct (Qnum x) eqn:E.
  - lra.
  - apply Qlt_le_weak, round53_pos. apply Qnum_pos. lia.
  - exfalso. destruct x as [n d]. unfold Qle in Hx. simpl in *. lia.
Qed.

Lemma rne_mono (x y : Q) : (0 <= x)%Q -> (x <= y)%Q -> (rne x <= rne y)%Q.
Proof.
  intros Hx Hxy. unfold rne at 1. destruct (Qnum x) eqn:E.
  - apply rne_nonneg. lra.
  - assert (Hx0 : (0 < x)%Q) by (apply Qnum_pos; lia).
    assert (Hy0 : 0 < Qnum y) by (apply Qnum_pos; lra).
    unfold rne. destruct (Qnum y); try lia.
    apply round53_mono; assumption.
  - exfalso. destruct x as [n d]. unfold Qle in Hx. simpl in *. lia.
Qed.

(** *** Truncation *)

Lemma int_floor (x : Q) : (0 <= x)%Q -> int x = Qfloor x.
Proof.
  intros Hx. destruct x as [n d]. unfold int, Qfloor. simpl.
  apply Z.quot_div_nonneg; [|lia]. unfold Qle in Hx. simpl in Hx. lia.
Qed.

Lemma int_mono (x y : Q) : (0 <= x)%Q -> (x <= y)%Q -> int x <= int y.
Proof.
  intros Hx Hxy. rewrite !int_floor by lra. apply Qfloor_resp_le. exact Hxy.
Qed.

Lemma int_nonneg (x : Q) : (0 <= x)%Q -> 0 <= int x.
Proof.
  intros Hx. rewrite int_floor by exact Hx.
  apply Qfloor_resp_le in Hx. exact Hx.
Qed.

(** *** The operations *)

Lemma inject_Z_nonneg (z : Z) : 0 <= z -> (0 <= inject_Z z)%Q.
Proof. intros H. rewrite Zle_Qle in H. exact H. Qed.

Lemma inject_Z_pos (z : Z) : 0 < z -> (0 < inject_Z z)%Q.
Proof. intros H. rewrite Zlt_Qlt in H. exact H. Qed.

Lemma true_div_nonneg (a b : Z) : 0 <= a -> 0 < b -> (0 <= true_div a b)%Q.
Proof.
  intros Ha Hb. apply inject_Z_nonneg in Ha. apply inject_Z_pos in Hb.
  apply rne_nonneg. apply Qle_shift_div_l; [exact Hb|]. lra.
Qed.

Lemma true_div_mono (a a' b : Z) :
  0 <= a -> a <= a' -> 0 < b -> (true_div a b <= true_div a' b)%Q.
Proof.
  intros Ha Haa Hb. apply inject_Z_nonneg in Ha. apply inject_Z_pos in Hb.
  rewrite Zle_Qle in Haa. apply rne_mono.
  - apply Qle_shift_div_l; [exact Hb|]. lra.
  - apply Qmult_le_compat_r; [exact Haa|].
    apply Qlt_le_weak, Qinv_lt_0_compat. exact Hb.
Qed.

Lemma mul_nonneg (x y : Q) : (0 <= x)%Q -> (0 <= y)%Q -> (0 <= mul x y)%Q.
Proof. intros Hx Hy. apply rne_nonneg. apply Qmult_le_0_compat; assumption. Qed.

Lemma mul_mono (x x' y : Q) :
  (0 <= x)%Q -> (x <= x')%Q -> (0 <= y)%Q -> (mul x y <= mul x' y)%Q.
Proof.
  intros Hx Hxx Hy. apply rne_mono.
  - apply Qmult_le_0_compat; assumption.
  - apply Qmult_le_compat_r; assumption.
Qed.

Lemma of_int_nonneg (z : Z) : 0 <= z -> (0 <= of_int z)%Q.
Proof. intros H. apply rne_nonneg, inject_Z_nonneg, H. Qed.

(** *** The error of rounding *)

Lemma rhe_near (x : Q) :
  (x - (1 # 2) <= inject_Z (round_half_even x)
   /\ inject_Z (round_half_even x) <= x + (1 # 2))%Q.
Proof.
  pose proof (Qfloor_le x) as H1. pose proof (Qlt_floor x) as H2.
  rewrite inject_Z_plus in H2. change (inject_Z 1) with 1%Q in H2.
  unfold round_half_even.
  destruct (Qcompare_spec (x - inject_Z (Qfloor x)) (1 # 2)) as [C|C|C];
    [destruct (Z.even _)| |]; rewrite ?inject_Z_plus;
    change (inject_Z 1) with 1%Q; split; lra.
Qed.

Lemma round53_near (x : Q) :
  (0 < x)%Q -> (x * (1 - u) <= round53 x /\ round53 x <= x * (1 + u))%Q.
Proof.
  intros Hx. pose proof (ilog2_spec x Hx) as [Hl _].
  pose proof (pow2_pos (ilog2 x - 52)) as He.
  destruct (rhe_near (x / pow2 (ilog2 x - 52))) as [H1 H2].
  unfold round53. set (m := inject_Z (round_half_even _)) in *.
  set (E := pow2 (ilog2 x - 52)) in *.
  assert (Hxe : (x / E * E == x)%Q) by (field; lra).
  assert (Hu : (E * (1 # 2) <= x * u)%Q).
  { assert (Eq1 : (E * (1 # 2) == pow2 (ilog2 x) * u)%Q).
    { unfold E, u. rewrite <- pow2_add.
      replace (ilog2 x + -53) with (ilog2 x - 52 + -1) by lia.
      rewrite pow2_add. apply Qmult_comp; reflexivity. }
    rewrite Eq1. apply Qmult_le_compat_r; [exact Hl|].
    apply Qlt_le_weak, pow2_pos. }
  assert (A1 : ((x / E - (1 # 2)) * E <= m * E)%Q)
    by (apply Qmult_le_compat_r; lra).
  assert (A2 : (m * E <= (x / E + (1 # 2)) * E)%Q)
    by (apply Qmult_le_compat_r; lra).
  split; lra.
Qed.

Lemma rne_pos (x : Q) : (0 < x)%Q -> rne x = round53 x.
Proof.
  intros H. apply Qnum_pos in H. unfold rne. destruct (Qnum x); try lia.
  reflexivity.
Qed.

Lemma rne_near (x : Q) :
  (0 < x)%Q -> (x * (1 - u) <= rne x /\ rne x <= x * (1 + u))%Q.
Proof. intros H. rewrite rne_pos by exact H. apply round53_near. exact H. Qed.

Lemma u_value : (u == 1 # 9007199254740992)%Q.
Proof. reflexivity. Qed.

Lemma of_int_100 : (of_int 100 == 100)%Q.
Proof. reflexivity. Qed.

End FloatFacts.

(* ------------------------------------------------------------------ *)
(** ** Facts about the arithmetic of the indexer *)

Module ArithFacts.
Import Float FileIndexer FloatFacts.
#[local] Open Scope Z_scope.

Lemma _get_percentage_value (w : session) :
  0 < total_files_estimated w ->
  _get_percentage w
  = percentage_of (files_processed w) (total_files_estimated w).
Proof.
  intros Ht. unfold _get_percentage.
  destruct (Z.leb_spec (total_files_estimated w) 0); [lia|reflexivity].
Qed.

Lemma percentage_range (p t : Z) :
  0 <= p -> 0 < t -> 0 <= percentage_of p t <= 99.
Proof.
  intros Hp Ht. unfold percentage_of.
  assert (0 <= Float.int (Float.mul (Float.true_div p t) (Float.of_int 100))).
  { apply int_nonneg, mul_nonneg.
    - apply true_div_nonneg; assumption.
    - apply of_int_nonneg. lia. }
  lia.
Qed.

Lemma percentage_mono (p q t : Z) :
  0 <= p -> p <= q -> 0 < t -> percentage_of p t <= percentage_of q t.
Proof.
  intros Hp H Ht. unfold percentage_of.
  assert (Float.int (Float.mul (Float.true_div p t) (Float.of_int 100))
          <= Float.int (Float.mul (Float.true_div q t) (Float.of_int 100))).
  { apply int_mono.
    - apply mul_nonneg; [apply true_div_nonneg; assumption|].
      apply of_int_nonneg. lia.
    - apply mul_mono.
      + apply true_div_nonneg; assumption.
      + apply true_div_mono; assumption.
      + apply of_int_nonneg. lia. }
  lia.
Qed.

(** For counts up to 2^50 the double-precision value is the exact floor or
    one less. *)
Lemma int_percent_near (p t : Z) :
  0 <= p -> 0 < t -> 100 * p + t <= 2 ^ 50 ->
  100 * p / t - 1 <= int (mul (true_div p t) (of_int 100)) <= 100 * p / t.
Proof.
  intros Hp Ht Hb.
  destruct (Z.eq_dec p 0) as [E|E].
  { subst p. change (int _) with 0. rewrite Z.mul_0_r, Z.div_0_l by lia.
    lia. }
  assert (Hp0 : 0 < p) by lia.
  set (k := 100 * p / t).
  assert (Hk1 : t * k <= 100 * p) by (apply Z.mul_div_le; lia).
  assert (Hk2 : 100 * p < t * k + t).
  { pose proof (Z.mod_pos_bound (100 * p) t Ht).
    pose proof (Z.div_mod (100 * p) t). unfold k. lia. }
  assert (Hk0 : 0 <= k) by (apply Z.div_pos; lia).
  pose proof (inject_Z_pos _ Hp0) as HP. pose proof (inject_Z_pos _ Ht) as HT.
  set (x := (inject_Z p / inject_Z t)%Q).
  assert (Hx : (0 < x)%Q).
  { unfold x. apply Qlt_shift_div_l; [exact HT|]. lra. }
  assert (HxT : (x * inject_Z t == inject_Z p)%Q) by (unfold x; field; lra).
  destruct (rne_near x Hx) as [X1 X2].
  assert (Hx' : (0 < rne x)%Q).
  { rewrite rne_pos by exact Hx. apply round53_pos. exact Hx. }
  assert (Hxc : (0 < rne x * of_int 100)%Q).
  { rewrite of_int_100. lra. }
  destruct (rne_near _ Hxc) as [Y1 Y2].
  unfold mul, true_div. fold x.
  set (y := rne (rne x * of_int 100)) in *.
  assert (Hc : (rne x * of_int 100 == rne x * 100)%Q)
    by (rewrite of_int_100; reflexivity).
  rewrite Hc in Y1, Y2. clear Hc.
  assert (Hy : (0 <= y)%Q).
  { unfold y. rewrite rne_pos by exact Hxc.
    apply Qlt_le_weak, round53_pos. exact Hxc. }
  rewrite int_floor by exact Hy.
  rewrite u_value in X1, X2, Y1, Y2.
  set (T := inject_Z t) in *. set (P := inject_Z p) in *.
  set (K := inject_Z k).
  assert (QK1 : (T * K <= 100 * P)%Q).
  { unfold T, K, P. change 100%Q with (inject_Z 100).
    rewrite <- !inject_Z_mult, <- Zle_Qle. lia. }
  assert (QK2 : (100 * P + 1 <= T * K + T)%Q).
  { unfold T, K, P. change 100%Q with (inject_Z 100).
    change 1%Q with (inject_Z 1).
    rewrite <- !inject_Z_mult, <- !inject_Z_plus, <- Zle_Qle. lia. }
  assert (QB : (100 * P + T <= 1125899906842624)%Q).
  { unfold T, P. change 100%Q with (inject_Z 100).
    change 1125899906842624%Q with (inject_Z (2 ^ 50)).
    rewrite <- !inject_Z_mult, <- !inject_Z_plus, <- Zle_Qle. lia. }
  assert (QT1 : (1 <= T)%Q).
  { unfold T. change 1%Q with (inject_Z 1). rewrite <- Zle_Qle. lia. }
  assert (QK0 : (0 <= K)%Q) by (apply inject_Z_nonneg; exact Hk0).
  assert (Y1T : (rne x * 100 * (1 - (1 # 9007199254740992)) * T <= y * T)%Q)
    by (apply Qmult_le_compat_r; lra).
  assert (Y2T : (y * T <= rne x * 100 * (1 + (1 # 9007199254740992)) * T)%Q)
    by (apply Qmult_le_compat_r; lra).
  assert (X1T : (x * (1 - (1 # 9007199254740992)) * T <= rne x * T)%Q)
    by (apply Qmult_le_compat_r; lra).
  assert (X2T : (rne x * T <= x * (1 + (1 # 9007199254740992)) * T)%Q)
    by (apply Qmult_le_compat_r; lra).
  assert (QKT : (K * T <= 1125899906842624 * T)%Q).
  { apply Qmult_le_compat_r; [|lra].
    assert (T * K <= 1125899906842624 * 1)%Q by lra.
    assert (1 * K <= T * K)%Q by (apply Qmult_le_compat_r; lra). lra. }
  assert (EK1 : (inject_Z (k - 1) == K - 1)%Q).
  { unfold Z.sub. rewrite inject_Z_plus, inject_Z_opp. reflexivity. }
  assert (EK2 : (inject_Z (k + 1) == K + 1)%Q).
  { rewrite inject_Z_plus. reflexivity. }
  pose proof (Qfloor_le y) as F.
  clearbody K y x T P.
  assert (L : ((K - 1) * T <= y * T)%Q) by lra.
  assert (U : (y * T < (K + 1) * T)%Q) by lra.
  apply Qmult_le_r in L; [|exact HT]. apply Qmult_lt_r in U; [|exact HT].
  rewrite <- EK1 in L. rewrite <- EK2 in U.
  split.
  - apply Qfloor_resp_le in L. rewrite Qfloor_Z in L. exact L.
  - assert (F' : (inject_Z (Qfloor y) < inject_Z (k + 1))%Q) by lra.
    rewrite <- Zlt_Qlt in F'. lia.
Qed.

Lemma percentage_near_exact (p t : Z) :
  0 <= p -> 0 < t -> 100 * p + t <= 2 ^ 50 ->
  Spec.percentage p t - 1 <= percentage_of p t <= Spec.percentage p t.
Proof.
  intros Hp Ht Hb. pose proof (int_percent_near p t Hp Ht Hb) as H.
  unfold percentage_of, Spec.percentage.
  rewrite (Z.mul_comm p 100). lia.
Qed.

(** In double precision the percentage can be one less than the exact
    floor. *)
Remark percentage_double_precision :
  percentage_of 14500 50000 = 28 /\ Spec.percentage 14500 50000 = 29.
Proof. split; reflexivity. Qed.

End ArithFacts.

(* ------------------------------------------------------------------ *)
(** ** Facts about the walk *)

Module WalkFacts.
Import Store FileIndexer More.
#[local] Open Scope Z_scope.
#[local] Open Scope list_scope.

(** *** Batches of 500 *)

Lemma batch_end_le (n : nat) : (batch_end n <= n < batch_end n + 500)%nat.
Proof.
  unfold batch_end.
  pose proof (Z.div_mod (Z.of_nat n) 500 ltac:(lia)).
  pose proof (Z.mod_pos_bound (Z.of_nat n) 500 ltac:(lia)).
  assert (0 <= Z.of_nat n / 500) by (apply Z.div_pos; lia).
  lia.
Qed.

Lemma batch_end_full (n : nat) :
  Z.of_nat (S n) mod 500 = 0 -> batch_end (S n) = S n.
Proof.
  intros H. unfold batch_end.
  pose proof (Z.div_mod (Z.of_nat (S n)) 500 ltac:(lia)). lia.
Qed.

Lemma batch_end_same (n : nat) :
  Z.of_nat (S n) mod 500 <> 0 -> batch_end (S n) = batch_end n.
Proof.
  intros H. unfold batch_end. f_equal. f_equal.
  pose proof (Z.div_mod (Z.of_nat n) 500 ltac:(lia)) as Hn.
  pose proof (Z.mod_pos_bound (Z.of_nat n) 500 ltac:(lia)) as Hr.
  assert (Hr' : Z.of_nat n mod 500 + 1 < 500).
  { destruct (Z.eq_dec (Z.of_nat n mod 500 + 1) 500) as [E|E]; [|lia].
    exfalso. apply H.
    replace (Z.of_nat (S n)) with (0 + (Z.of_nat n / 500 + 1) * 500) by lia.
    apply Z.mod_add. lia. }
  symmetry. apply (Z.div_unique _ _ _ (Z.of_nat n mod 500 + 1)); lia.
Qed.

Section Walk.

Variable format_mtime : Float.float -> exception + string.
Variable insert_error : entry -> option exception.

#[local] Abbreviation verdict_of := (verdict_of format_mtime insert_error).
#[local] Abbreviation step_error := (step_error format_mtime insert_error).
#[local] Abbreviation first_error := (first_error format_mtime insert_error).
#[local] Abbreviation completed := (completed format_mtime insert_error).
#[local] Abbreviation attempted := (attempted format_mtime insert_error).
#[local] Abbreviation entry_of_step :=
  (entry_of_step format_mtime insert_error).
#[local] Abbreviation entries_of_steps :=
  (entries_of_steps format_mtime insert_error).
#[local] Abbreviation effect := (effect format_mtime insert_error).
#[local] Abbreviation effects := (effects format_mtime insert_error).
#[local] Abbreviation do_step := (do_step format_mtime insert_error).
#[local] Abbreviation do_steps := (do_steps format_mtime insert_error).
#[local] Abbreviation run_steps := (run_steps format_mtime insert_error).
#[local] Abbreviation process_file :=
  (process_file format_mtime insert_error).

(** *** Reads of the flag *)

Lemma read_stopped_true (w w1 : session) :
  read_stopped w = (true, w1) -> stopped w1 = true.
Proof.
  unfold read_stopped. destruct (stopped w) eqn:E.
  - intros H. inversion H. subst. exact E.
  - destruct (pending_stop w) as [[|n]|]; intros H; inversion H; reflexivity.
Qed.

Lemma read_stopped_stopped (w : session) :
  stopped w = true -> read_stopped w = (true, w).
Proof. intros H. unfold read_stopped. rewrite H. reflexivity. Qed.

Lemma read_stopped_raised (w w1 : session) (b : bool) :
  read_stopped w = (b, w1) -> raised w1 = raised w.
Proof.
  unfold read_stopped. destruct (stopped w).
  - intros H. inversion H. reflexivity.
  - destruct (pending_stop w) as [[|n]|]; intros H; inversion H; reflexivity.
Qed.

Lemma run_steps_stopped (l : list step) (w : session) :
  stopped w = true -> run_steps l w = w.
Proof.
  intros H. destruct l as [|s l]; [reflexivity|].
  simpl. rewrite read_stopped_stopped by exact H. reflexivity.
Qed.

(** *** A step is its verdict *)

Lemma process_file_verdict (root : string) (f : file) (w : session) :
  process_file root f w
  = match verdict_of root f with
    | Skip => w
    | Abort e => raise e w
    | Upsert e => count_file (upsert e w)
    end.
Proof.
  unfold FileIndexer.process_file, FileIndexer.verdict_of, try_file,
    execute_insert.
  destruct (Text.startswith (f_name f) "."); [reflexivity|].
  destruct (f_stat f) as [err|st]; [reflexivity|].
  destruct (format_mtime (st_mtime st)) as [x|date].
  - destruct (caught x); reflexivity.
  - destruct (insert_error _) as [x|]; [|reflexivity].
    destruct (caught x); reflexivity.
Qed.

Lemma do_step_effect (s : step) (w : session) :
  do_step s w
  = match step_error s with
    | Some e => raise e w
    | None => effect s w
    end.
Proof.
  destruct s as [d|root|root f]; simpl; try reflexivity.
  rewrite process_file_verdict. destruct (verdict_of root f); reflexivity.
Qed.

(** An exception that leaves a step is one the [except] does not name. *)
Lemma step_error_uncaught (s : step) (e : exception) :
  step_error s = Some e -> caught e = false.
Proof.
  destruct s as [d|root|root f]; simpl; try discriminate.
  unfold FileIndexer.verdict_of.
  destruct (Text.startswith (f_name f) "."); [discriminate|].
  destruct (f_stat f) as [err|st]; [discriminate|].
  destruct (format_mtime (st_mtime st)) as [x|date].
  - destruct (caught x) eqn:E; [discriminate|]. intros H. inversion H.
    subst. exact E.
  - destruct (insert_error _) as [x|]; [|discriminate].
    destruct (caught x) eqn:E; [discriminate|]. intros H. inversion H.
    subst. exact E.
Qed.

(** *** A step that raises nothing does not look at the flag, at the other
    thread or at the exception *)

Ltac effect_cases s :=
  destruct s as [?d|?root|?root ?f]; simpl; try reflexivity;
  destruct (verdict_of _ _); try reflexivity;
  unfold count_file; simpl; destruct (_ =? 0); reflexivity.

Lemma effect_set_pending (s : step) (p : option nat) (w : session) :
  effect s (set_pending p w) = set_pending p (effect s w).
Proof. effect_cases s. Qed.

Lemma effect_stopped (s : step) (w : session) :
  stopped (effect s w) = stopped w.
Proof. effect_cases s. Qed.

Lemma effect_pending (s : step) (w : session) :
  pending_stop (effect s w) = pending_stop w.
Proof. effect_cases s. Qed.

Lemma effect_raised (s : step) (w : session) :
  raised (effect s w) = raised w.
Proof. effect_cases s. Qed.

Lemma effect_total (s : step) (w : session) :
  total_files_estimated (effect s w) = total_files_estimated w.
Proof. effect_cases s. Qed.

Lemma effect_working (s : step) (w : session) :
  working (conn (effect s w))
  = fold_left insert_or_replace (entry_of_step s) (working (conn w)).
Proof. effect_cases s. Qed.

Lemma effect_processed (s : step) (w : session) :
  files_processed (effect s w)
  = files_processed w + Z.of_nat (List.length (entry_of_step s)).
Proof.
  destruct s as [d|root|root f]; simpl; try lia.
  destruct (verdict_of root f); simpl; try lia.
  unfold count_file. simpl. destruct (_ =? 0); reflexivity.
Qed.

Lemma effects_cons (s : step) (l : list step) (w : session) :
  effects (s :: l) w = effects l (effect s w).
Proof. reflexivity. Qed.

Lemma effects_set_pending (l : list step) (p : option nat) (w : session) :
  effects l (set_pending p w) = set_pending p (effects l w).
Proof.
  revert w. induction l as [|s l IH]; intros w; [reflexivity|].
  rewrite !effects_cons, effect_set_pending. apply IH.
Qed.

Lemma effects_stopped (l : list step) (w : session) :
  stopped (effects l w) = stopped w.
Proof.
  revert w. induction l as [|s l IH]; intros w; [reflexivity|].
  rewrite effects_cons, IH. apply effect_stopped.
Qed.

Lemma effects_pending (l : list step) (w : session) :
  pending_stop (effects l w) = pending_stop w.
Proof.
  revert w. induction l as [|s l IH]; intros w; [reflexivity|].
  rewrite effects_cons, IH. apply effect_pending.
Qed.

Lemma effects_raised (l : list step) (w : session) :
  raised (effects l w) = raised w.
Proof.
  revert w. induction l as [|s l IH]; intros w; [reflexivity|].
  rewrite effects_cons, IH. apply effect_raised.
Qed.

Lemma effects_total (l : list step) (w : session) :
  total_files_estimated (effects l w) = total_files_estimated w.
Proof.
  revert w. induction l as [|s l IH]; intros w; [reflexivity|].
  rewrite effects_cons, IH. apply effect_total.
Qed.

Lemma effects_working (l : list step) (w : session) :
  working (conn (effects l w))
  = fold_left insert_or_replace (flat_map entry_of_step l)
              (working (conn w)).
Proof.
  revert w. induction l as [|s l IH]; intros w; [reflexivity|].
  rewrite effects_cons, IH, effect_working. simpl.
  rewrite fold_left_app. reflexivity.
Qed.

Lemma effects_processed (l : list step) (w : session) :
  files_processed (effects l w)
  = files_processed w
    + Z.of_nat (List.length (flat_map entry_of_step l)).
Proof.
  revert w. induction l as [|s l IH]; intros w; [simpl; lia|].
  rewrite effects_cons, IH, effect_processed. simpl.
  rewrite length_app. lia.
Qed.

(** *** The steps in order: the effects of the steps before the first
    exception, and that exception *)

Lemma set_raised_same (w : session) : set_raised (raised w) w = w.
Proof. destruct w. reflexivity. Qed.

Lemma do_steps_effects (l : list step) (w : session) :
  raised w = None ->
  do_steps l w = set_raised (first_error l) (effects (completed l) w).
Proof.
  revert w. induction l as [|s l IH]; intros w Hr.
  - simpl. rewrite <- Hr. symmetry. apply set_raised_same.
  - simpl. rewrite do_step_effect. destruct (step_error s) as [e|] eqn:E.
    + reflexivity.
    + rewrite effect_raised, Hr. apply IH. rewrite effect_raised. exact Hr.
Qed.

Lemma first_error_completed (l : list step) :
  first_error l = None -> completed l = l.
Proof.
  induction l as [|s l IH]; simpl; [reflexivity|].
  destruct (step_error s); [discriminate|]. intros H. rewrite IH by exact H.
  reflexivity.
Qed.

Lemma do_steps_raised (l : list step) (w : session) :
  raised w = None -> raised (do_steps l w) = first_error l.
Proof. intros H. rewrite do_steps_effects by exact H. reflexivity. Qed.

Lemma do_steps_stopped (l : list step) (w : session) :
  raised w = None -> stopped (do_steps l w) = stopped w.
Proof.
  intros H. rewrite do_steps_effects by exact H. simpl.
  apply effects_stopped.
Qed.

Lemma do_steps_pending (l : list step) (w : session) :
  raised w = None -> pending_stop (do_steps l w) = pending_stop w.
Proof.
  intros H. rewrite do_steps_effects by exact H. simpl.
  apply effects_pending.
Qed.

Lemma do_steps_total (l : list step) (w : session) :
  raised w = None ->
  total_files_estimated (do_steps l w) = total_files_estimated w.
Proof.
  intros H. rewrite do_steps_effects by exact H. simpl.
  apply effects_total.
Qed.

Lemma do_steps_working (l : list step) (w : session) :
  raised w = None ->
  working (conn (do_steps l w))
  = fold_left insert_or_replace (entries_of_steps l) (working (conn w)).
Proof.
  intros H. rewrite do_steps_effects by exact H. simpl.
  apply effects_working.
Qed.

Lemma do_steps_processed (l : list step) (w : session) :
  raised w = None ->
  files_processed (do_steps l w)
  = files_processed w + Z.of_nat (List.length (entries_of_steps l)).
Proof.
  intros H. rewrite do_steps_effects by exact H. simpl.
  apply effects_processed.
Qed.

(** *** A run with a stop is a prefix of the run without *)

Lemma run_steps_prefix (l : list step) (w : session) :
  stopped w = false -> raised w = None ->
  run_steps l w
  = set_pending (left_over (pending_stop w) (attempted l))
      (set_stopped (seen (pending_stop w) (attempted l))
         (do_steps (taken (pending_stop w) l) w)).
Proof.
  revert w. induction l as [|s l IH]; intros w Hs Hr.
  - destruct w as [st t n c e [k|] r]; simpl in *; subst;
      [destruct k|]; reflexivity.
  - simpl run_steps. unfold read_stopped. rewrite Hs.
    destruct (pending_stop w) as [[|k]|] eqn:Ep.
    + destruct w; simpl in *. subst. reflexivity.
    + cbn [taken firstn FileIndexer.do_steps FileIndexer.attempted].
      rewrite !do_step_effect. destruct (step_error s) as [x|] eqn:Ex.
      * destruct w; simpl in *. subst. rewrite Nat.sub_0_r. reflexivity.
      * rewrite !effect_raised. cbn [raised set_pending]. rewrite Hr.
        rewrite IH
          by (rewrite ?effect_stopped, ?effect_raised;
              cbn [stopped raised set_pending]; assumption).
        rewrite effect_pending. cbn [pending_stop set_pending taken].
        rewrite effect_set_pending.
        cbn [seen left_over List.length].
        change (S k <? S (List.length (attempted l)))%nat
          with (k <? List.length (attempted l))%nat.
        change (S k - S (List.length (attempted l)))%nat
          with (k - List.length (attempted l))%nat.
        rewrite !do_steps_effects
          by (cbn [raised set_pending]; rewrite ?effect_raised; assumption).
        rewrite effects_set_pending.
        destruct (effects (completed (firstn k l)) (effect s w));
          reflexivity.
    + cbn [taken FileIndexer.do_steps FileIndexer.attempted].
      rewrite !do_step_effect. destruct (step_error s) as [x|] eqn:Ex.
      * destruct w; simpl in *. subst. reflexivity.
      * rewrite !effect_raised, Hr.
        rewrite IH
          by (rewrite ?effect_stopped, ?effect_raised; assumption).
        rewrite effect_pending, Ep. reflexivity.
Qed.

(** *** The three loops are the steps, in order *)

Lemma do_step_raised_uncaught (s : step) (w : session) (e : exception) :
  raised w = None -> raised (do_step s w) = Some e -> caught e = false.
Proof.
  intros Hr. rewrite do_step_effect.
  destruct (step_error s) as [x|] eqn:E.
  - simpl. intros H. inversion H. subst. apply (step_error_uncaught _ _ E).
  - rewrite effect_raised, Hr. discriminate.
Qed.

Lemma run_steps_raised_uncaught (l : list step) (w : session)
    (e : exception) :
  raised w = None -> raised (run_steps l w) = Some e -> caught e = false.
Proof.
  revert w. induction l as [|s l IH]; intros w Hr; simpl.
  - rewrite Hr. discriminate.
  - destruct (read_stopped w) as [b w1] eqn:E.
    pose proof (read_stopped_raised _ _ _ E) as Hr1. rewrite Hr in Hr1.
    destruct b; [rewrite Hr1; discriminate|].
    destruct (raised (do_step s w1)) as [x|] eqn:Ex.
    + rewrite Ex. intros H. inversion H. subst.
      apply (do_step_raised_uncaught _ _ _ Hr1 Ex).
    + apply IH. exact Ex.
Qed.

Lemma run_steps_app (l1 l2 : list step) (w : session) :
  raised w = None ->
  run_steps (l1 ++ l2) w
  = match raised (run_steps l1 w) with
    | Some _ => run_steps l1 w
    | None => run_steps l2 (run_steps l1 w)
    end.
Proof.
  revert w. induction l1 as [|s l1 IH]; intros w Hr.
  - simpl. rewrite Hr. reflexivity.
  - simpl. destruct (read_stopped w) as [b w1] eqn:E.
    pose proof (read_stopped_raised _ _ _ E) as Hr1. rewrite Hr in Hr1.
    destruct b.
    + rewrite Hr1. symmetry. apply run_steps_stopped.
      exact (read_stopped_true _ _ E).
    + destruct (raised (do_step s w1)) as [x|] eqn:Ex.
      * rewrite Ex. reflexivity.
      * apply IH. exact Ex.
Qed.

Lemma loop_files_steps (root : string) (files : list file) (w : session) :
  loop_files format_mtime insert_error root files w
  = run_steps (map (FileStep root) files) w.
Proof.
  revert w. induction files as [|f files IH]; intros w; [reflexivity|].
  simpl. destruct (read_stopped w) as [b w1]. destruct b; [reflexivity|].
  destruct (raised (process_file root f w1)); [reflexivity|]. apply IH.
Qed.

Lemma loop_walk_steps (ws : list walk_entry) (w : session) :
  raised w = None ->
  loop_walk format_mtime insert_error ws w
  = run_steps (flat_map steps_of_entry ws) w.
Proof.
  revert w. induction ws as [|[[root dirs] files] ws IH]; intros w Hr;
    [reflexivity|].
  simpl. destruct (read_stopped w) as [b w1] eqn:E.
  pose proof (read_stopped_raised _ _ _ E) as Hr1. rewrite Hr in Hr1.
  destruct b; [reflexivity|]. rewrite Hr1.
  rewrite run_steps_app by exact Hr1. rewrite <- loop_files_steps.
  destruct (raised (loop_files _ _ root files w1)) eqn:Ex; [reflexivity|].
  apply IH. exact Ex.
Qed.

Lemma loop_drives_steps (drives : list dir) (w : session) :
  raised w = None ->
  loop_drives format_mtime insert_error drives w
  = run_steps (steps drives) w.
Proof.
  revert w. induction drives as [|d drives IH]; intros w Hr; [reflexivity|].
  unfold steps. simpl.
  destruct (read_stopped w) as [b w1] eqn:E.
  pose proof (read_stopped_raised _ _ _ E) as Hr1. rewrite Hr in Hr1.
  destruct b; [reflexivity|].
  assert (Ha : raised (announce_drive d w1) = None) by exact Hr1.
  cbn [raised announce_drive emit]. rewrite Hr1.
  change (emit (progress_signal (IndexingDrive (dir_name d))
                                (_get_percentage w1)) w1)
    with (announce_drive d w1).
  rewrite run_steps_app by exact Ha. rewrite <- loop_walk_steps by exact Ha.
  destruct (raised (loop_walk _ _ (walk d) (announce_drive d w1)))
    as [x|] eqn:Ex.
  - rewrite loop_walk_steps in Ex by exact Ha.
    rewrite (run_steps_raised_uncaught _ _ _ Ha Ex). reflexivity.
  - apply IH. exact Ex.
Qed.

(** *** The signals of the walk *)

Lemma Sorted_snoc (l : list Z) (n : Z) :
  Sorted Z.le l -> Forall (fun x => x <= n) l -> Sorted Z.le (l ++ [n]).
Proof.
  induction 1 as [|x l Hs IH Hh]; intros Hf; simpl.
  - repeat constructor.
  - inversion Hf; subst. constructor; [auto|].
    destruct Hh; simpl; constructor; assumption.
Qed.

Lemma body_emission_weaken (T n n' : Z) (e : emission) :
  n <= n' -> body_emission T n e -> body_emission T n' e.
Proof. unfold body_emission. intros H [H1 H2]. split; [lia|exact H2]. Qed.

Lemma walking_emit (T : Z) (m : message) (w : session) :
  walking T w ->
  body_message T (files_processed w)
               (percentage_of (files_processed w) T) m ->
  walking T
    (emit (progress_signal m (percentage_of (files_processed w) T)) w).
Proof.
  intros (Ht & Hp & Hf & Hs) Hm. unfold walking. simpl.
  repeat split; try assumption.
  - apply Forall_app. split; [exact Hf|]. constructor; [|constructor].
    split; [simpl; lia|]. exists m. split; [reflexivity|exact Hm].
  - rewrite map_app. simpl. apply Sorted_snoc; [exact Hs|].
    apply Forall_map. revert Hf. apply Forall_impl.
    intros e [He _]. lia.
Qed.

Lemma walking_set_raised (T : Z) (r : option exception) (w : session) :
  walking T w -> walking T (set_raised r w).
Proof. intros H. exact H. Qed.

Lemma walking_step (T : Z) (s : step) (w : session) :
  0 < T -> walking T w -> walking T (effect s w).
Proof.
  intros HT Hw. destruct s as [d|root|root f]; simpl.
  - unfold announce_drive.
    rewrite ArithFacts._get_percentage_value;
      destruct Hw as (Ht & Hp & Hf & Hs); try lia.
    rewrite Ht. apply walking_emit; [|exact I].
    repeat split; assumption.
  - exact Hw.
  - destruct (verdict_of root f) as [|x|e]; [exact Hw|exact Hw|].
    destruct Hw as (Ht & Hp & Hf & Hs).
    assert (Hw2 : walking T
              (commit (set_processed (files_processed w + 1)
                 (upsert e w)))).
    { repeat split; simpl; try assumption; try lia.
      revert Hf. apply Forall_impl. intros x.
      apply body_emission_weaken. lia. }
    unfold count_file.
    cbn [files_processed set_processed upsert set_conn].
    destruct ((files_processed w + 1) mod 500 =? 0) eqn:E.
    + rewrite ArithFacts._get_percentage_value by (simpl; lia).
      cbn [files_processed total_files_estimated commit set_processed
           upsert set_conn].
      rewrite Ht.
      apply (walking_emit T
               (Indexed (files_processed w + 1)
                        (percentage_of (files_processed w + 1) T)) _ Hw2).
      simpl. apply Z.eqb_eq in E. repeat split; try assumption; lia.
    + destruct Hw2 as (Ht2 & Hp2 & Hf2 & Hs2).
      repeat split; simpl in *; assumption.
Qed.

Lemma walking_effects (T : Z) (l : list step) (w : session) :
  0 < T -> walking T w -> walking T (effects l w).
Proof.
  intros HT. revert w. induction l as [|s l IH]; intros w Hw; [exact Hw|].
  rewrite effects_cons. apply IH. apply walking_step; assumption.
Qed.

Lemma walking_steps (T : Z) (l : list step) (w : session) :
  0 < T -> raised w = None -> walking T w -> walking T (do_steps l w).
Proof.
  intros HT Hr Hw. rewrite do_steps_effects by exact Hr.
  apply walking_set_raised, walking_effects; assumption.
Qed.

(** *** The batches of the walk *)

Lemma batched_step (t0 : table) (done : list entry) (s : step) (w : session) :
  batched t0 done w -> batched t0 (done ++ entry_of_step s) (effect s w).
Proof.
  intros (Hw & Hp & Hc).
  assert (Same : batched t0 (done ++ []) w)
    by (rewrite app_nil_r; repeat split; assumption).
  destruct s as [d|root|root f]; [| exact Same |].
  - destruct Same as (A & B & C). repeat split; assumption.
  - cbn [FileIndexer.effect FileIndexer.entry_of_step].
    destruct (verdict_of root f) as [|x|e]; [exact Same|exact Same|].
    unfold count_file.
    cbn [files_processed set_processed upsert set_conn].
    assert (L : List.length (done ++ [e]) = S (List.length done))
      by (rewrite length_app; simpl; lia).
    assert (P1 : files_processed w + 1 = Z.of_nat (S (List.length done)))
      by lia.
    assert (W : insert_or_replace (working (conn w)) e
                = fold_left insert_or_replace (done ++ [e]) t0).
    { rewrite fold_left_app, <- Hw. reflexivity. }
    destruct ((files_processed w + 1) mod 500 =? 0) eqn:E.
    + apply Z.eqb_eq in E. rewrite P1 in E.
      unfold batched.
      cbn [working committed conn files_processed emit commit set_processed
           upsert set_conn].
      rewrite L, (batch_end_full _ E), <- L, firstn_all.
      split; [exact W|]. split; [lia|exact W].
    + apply Z.eqb_neq in E. rewrite P1 in E.
      unfold batched.
      cbn [working committed conn files_processed emit commit set_processed
           upsert set_conn].
      rewrite L, (batch_end_same _ E), firstn_app.
      pose proof (batch_end_le (List.length done)) as B.
      replace (batch_end (List.length done) - List.length done)%nat
        with 0%nat by lia.
      cbn [firstn]. rewrite app_nil_r.
      split; [exact W|]. split; [lia|exact Hc].
Qed.

Lemma batched_effects (t0 : table) (l : list step) (done : list entry)
    (w : session) :
  batched t0 done w ->
  batched t0 (done ++ flat_map entry_of_step l) (effects l w).
Proof.
  revert done w. induction l as [|s l IH]; intros done w H.
  - simpl. rewrite app_nil_r. exact H.
  - rewrite effects_cons. simpl. rewrite app_assoc.
    apply IH. apply batched_step. exact H.
Qed.

Lemma batched_steps (t0 : table) (l : list step) (done : list entry)
    (w : session) :
  raised w = None ->
  batched t0 done w -> batched t0 (done ++ entries_of_steps l) (do_steps l w).
Proof.
  intros Hr H. rewrite do_steps_effects by exact Hr.
  apply (batched_effects t0 (completed l)) in H. exact H.
Qed.

End Walk.

End WalkFacts.

(* ------------------------------------------------------------------ *)
(** ** Facts about the estimate *)

Module EstimateFacts.
Import Store FileIndexer.
#[local] Open Scope Z_scope.
#[local] Open Scope list_scope.

Lemma file_count_walk_bounds (ws : list walk_entry) (acc : Z * Z) :
  0 <= fst acc -> 0 <= snd acc < 20 ->
  0 <= fst (file_count_walk ws acc)
  /\ snd acc <= snd (file_count_walk ws acc) <= 20.
Proof.
  revert acc. induction ws as [|[[root dirs] files] ws IH]; intros acc Hf Hs.
  - simpl. lia.
  - simpl. destruct (Z.leb_spec 20 (snd acc + 1)); simpl; [lia|].
    specialize (IH (fst acc + Z.of_nat (List.length
                      (filter not_hidden_file files)), snd acc + 1)).
    simpl in IH. lia.
Qed.

Lemma file_count_drives_bounds (drives : list dir) (acc : Z * Z) :
  0 <= fst acc -> 0 <= snd acc < 20 ->
  0 <= fst (file_count_drives drives acc)
  /\ snd acc <= snd (file_count_drives drives acc) <= 20.
Proof.
  revert acc. induction drives as [|d drives IH]; intros acc Hf Hs.
  - simpl. lia.
  - simpl.
    pose proof (file_count_walk_bounds (walk d) acc Hf Hs) as Hw.
    destruct (Z.leb_spec 20 (snd (file_count_walk (walk d) acc)));
      [exact Hw|].
    specialize (IH (file_count_walk (walk d) acc)). lia.
Qed.

Lemma dir_count_walk_bounds (ws : list walk_entry) (acc : Z * Z) :
  0 <= fst acc -> 0 <= snd acc < 10 ->
  0 <= fst (dir_count_walk ws acc)
  /\ snd acc <= snd (dir_count_walk ws acc) <= 10.
Proof.
  revert acc. induction ws as [|[[root dirs] files] ws IH]; intros acc Hf Hs.
  - simpl. lia.
  - simpl. destruct (Z.leb_spec 10 (snd acc + 1)); simpl; [lia|].
    specialize (IH (fst acc + Z.of_nat (List.length
                      (filter not_hidden_dir dirs)), snd acc + 1)).
    simpl in IH. lia.
Qed.

Lemma dir_count_drives_bounds (drives : list dir) (acc : Z * Z) :
  0 <= fst acc -> 0 <= snd acc < 10 ->
  0 <= fst (dir_count_drives drives acc)
  /\ snd acc <= snd (dir_count_drives drives acc) <= 10.
Proof.
  revert acc. induction drives as [|d drives IH]; intros acc Hf Hs.
  - simpl. lia.
  - simpl.
    pose proof (dir_count_walk_bounds (walk d) acc Hf Hs) as Hw.
    destruct (Z.leb_spec 10 (snd (dir_count_walk (walk d) acc)));
      [exact Hw|].
    specialize (IH (dir_count_walk (walk d) acc)). lia.
Qed.

Lemma _estimate_dir_count_lower (drives : list dir) :
  100 <= _estimate_dir_count drives.
Proof.
  unfold _estimate_dir_count.
  destruct (dir_count_drives drives (0, 0)) as [dc ss].
  destruct (0 <? ss); lia.
Qed.

(** The estimate, with [max(1, sample_size)] resolved. *)
Lemma estimated_total_formula (drives : list dir) :
  estimated_total drives
  = if 0 <? snd (file_count_drives drives (0, 0))
    then Z.max 1000
           (Float.int
              (Float.mul
                 (Float.true_div (fst (file_count_drives drives (0, 0)))
                                 (snd (file_count_drives drives (0, 0))))
                 (Float.of_int (_estimate_dir_count drives))))
    else 10000.
Proof.
  unfold estimated_total.
  destruct (file_count_drives drives (0, 0)) as [fc ss]. simpl.
  destruct (Z.ltb_spec 0 ss); [|reflexivity].
  replace (Z.max 1 ss) with ss by lia. reflexivity.
Qed.

Lemma estimated_total_lower (drives : list dir) :
  1000 <= estimated_total drives.
Proof.
  rewrite estimated_total_formula. destruct (0 <? _); lia.
Qed.

End EstimateFacts.

(* ------------------------------------------------------------------ *)
(** ** Facts about a run *)

Module RunFacts.
Import Store FileIndexer StoreFacts WalkFacts Examples More.
#[local] Open Scope Z_scope.
#[local] Open Scope list_scope.

(** *** Steps that raise, and the stop *)

Section ErrorsOf.

Variable format_mtime : Float.float -> exception + string.
Variable insert_error : entry -> option exception.

#[local] Abbreviation step_error := (step_error format_mtime insert_error).
#[local] Abbreviation first_error := (first_error format_mtime insert_error).
#[local] Abbreviation completed := (completed format_mtime insert_error).
#[local] Abbreviation attempted := (attempted format_mtime insert_error).
#[local] Abbreviation entries_of_steps :=
  (entries_of_steps format_mtime insert_error).

(** While no step has raised, the stop is seen on the steps entered as it
    is on all steps. *)
Lemma seen_attempted (n : nat) (l : list step) :
  first_error (firstn n l) = None ->
  (n <? List.length (attempted l))%nat = (n <? List.length l)%nat.
Proof.
  revert n. induction l as [|s l IH]; intros n; [reflexivity|].
  destruct n as [|n]; [reflexivity|]. simpl firstn. simpl first_error.
  simpl FileIndexer.attempted. destruct (step_error s); [discriminate|].
  intros H. simpl List.length.
  change (S n <? S (List.length (attempted l)))%nat
    with (n <? List.length (attempted l))%nat.
  change (S n <? S (List.length l))%nat with (n <? List.length l)%nat.
  apply IH. exact H.
Qed.

(** A step that raised was entered before the stop was seen. *)
Lemma raised_before_stop (n : nat) (l : list step) (e : exception) :
  first_error (firstn n l) = Some e ->
  (n <? List.length (attempted l))%nat = false.
Proof.
  revert n. induction l as [|s l IH]; intros n.
  - destruct n; discriminate.
  - destruct n as [|n]; [discriminate|]. simpl firstn. simpl first_error.
    simpl FileIndexer.attempted. destruct (step_error s).
    + intros _. reflexivity.
    + intros H. simpl List.length.
      change (S n <? S (List.length (attempted l)))%nat
        with (n <? List.length (attempted l))%nat.
      apply IH. exact H.
Qed.

Lemma seen_of_taken (p : option nat) (l : list step) :
  seen p (attempted l)
  = match first_error (taken p l) with
    | None => seen p l
    | Some _ => false
    end.
Proof.
  destruct p as [n|]; simpl.
  - destruct (first_error (firstn n l)) as [e|] eqn:E.
    + apply (raised_before_stop _ _ _ E).
    + apply seen_attempted. exact E.
  - destruct (first_error l); reflexivity.
Qed.

(** A file that is not hidden, that [os.stat] reads, whose time stamp can
    be shown and whose row the store takes is upserted by its step. *)
Lemma upserted_file (root : string) (f : file) (st : stat_result)
    (date : string) :
  Text.startswith (f_name f) "." = false ->
  f_stat f = inr st ->
  format_mtime (st_mtime st) = inr date ->
  insert_error (entry_of root f st date) = None ->
  verdict_of format_mtime insert_error root f
  = Upsert (entry_of root f st date).
Proof.
  intros Hh Hs Hd Hi. unfold verdict_of. rewrite Hh, Hs, Hd, Hi.
  reflexivity.
Qed.

Lemma entries_of_all_steps (l : list step) (root : string) (f : file)
    (e : entry) :
  first_error l = None ->
  In (FileStep root f) l ->
  verdict_of format_mtime insert_error root f = Upsert e ->
  In e (entries_of_steps l).
Proof.
  intros He Hin Hv. unfold FileIndexer.entries_of_steps.
  rewrite (first_error_completed _ _ _ He).
  apply in_flat_map. exists (FileStep root f). split; [exact Hin|].
  simpl. rewrite Hv. left. reflexivity.
Qed.

End ErrorsOf.

(** *** Rows of one path *)

Lemma filter_path_insert (t : table) (e : entry) :
  filter (fun r => path r =? e_path e)%string (insert_or_replace t e)
  = [mk_row (next_id t) e].
Proof.
  unfold insert_or_replace. rewrite filter_app.
  rewrite filter_none.
  - simpl. unfold path. simpl. rewrite String.eqb_refl. reflexivity.
  - intros x Hx. apply filter_In in Hx. destruct Hx as [_ Hx].
    apply negb_true_iff in Hx. exact Hx.
Qed.

Lemma filter_path_insert_other (t : table) (x : entry) (p : string) :
  e_path x <> p ->
  filter (fun r => path r =? p)%string (insert_or_replace t x)
  = filter (fun r => path r =? p)%string t.
Proof.
  intros H. unfold insert_or_replace. rewrite filter_app. simpl.
  unfold path at 3. simpl.
  destruct (String.eqb_spec (e_path x) p) as [E|_]; [contradiction|].
  rewrite app_nil_r, filter_filter. apply filter_ext_in. intros r _.
  destruct (String.eqb_spec (path r) p) as [E|E]; [|apply andb_false_r].
  rewrite andb_true_r. apply negb_true_iff, String.eqb_neq. congruence.
Qed.

(** After the upserts [es] the path of an entry of [es] holds one row, the
    one of the last entry of [es] with this path. *)
Lemma one_row_per_upserted_path (es : list entry) (t : table) (e : entry) :
  In e es ->
  (forall e', In e' es -> e_path e' = e_path e -> e' = e) ->
  map fields
      (filter (fun r => path r =? e_path e)%string
              (fold_left insert_or_replace es t))
  = [e].
Proof.
  revert t. induction es as [|x es IH] using rev_ind; intros t Hin Hu.
  - contradiction.
  - rewrite fold_left_app. simpl.
    destruct (String.eqb_spec (e_path x) (e_path e)) as [E|E].
    + assert (x = e) by (apply Hu; [apply in_app_iff; simpl; tauto|exact E]).
      subst x. rewrite filter_path_insert. reflexivity.
    + rewrite filter_path_insert_other by exact E.
      apply IH.
      * apply in_app_iff in Hin. destruct Hin as [H|[H|[]]]; [exact H|].
        congruence.
      * intros e' He'. apply Hu. apply in_app_iff. tauto.
Qed.

Section RunOf.

Variable format_mtime : Float.float -> exception + string.
Variable insert_error : entry -> option exception.

#[local] Abbreviation run_connected :=
  (run_connected format_mtime insert_error).
#[local] Abbreviation run := (run format_mtime insert_error).
#[local] Abbreviation do_steps := (do_steps format_mtime insert_error).
#[local] Abbreviation run_steps := (run_steps format_mtime insert_error).
#[local] Abbreviation entries_of_steps :=
  (entries_of_steps format_mtime insert_error).
#[local] Abbreviation first_error := (first_error format_mtime insert_error).
#[local] Abbreviation attempted := (attempted format_mtime insert_error).
#[local] Abbreviation process_file :=
  (process_file format_mtime insert_error).
#[local] Abbreviation try_file := (try_file format_mtime insert_error).
#[local] Abbreviation loop_files := (loop_files format_mtime insert_error).
#[local] Abbreviation loop_drives := (loop_drives format_mtime insert_error).

Lemma start_walking (drives : list dir) (db : database) (p : option nat) :
  walking (estimated_total drives) (start drives db p).
Proof.
  unfold walking, start, _estimate_total_files. simpl.
  repeat split; try lia.
  - repeat constructor; simpl; try lia.
    + exists Estimating. split; reflexivity.
    + exists (Estimated (estimated_total drives)).
      split; [reflexivity|]. simpl. split; reflexivity.
  - repeat constructor. simpl. lia.
Qed.

Lemma start_raised (drives : list dir) (db : database) (p : option nat) :
  raised (start drives db p) = None.
Proof. reflexivity. Qed.

(** The state when the loops are left: the steps done are the first steps
    of the walk, as many as reads of the flag gave [False], up to the first
    one that raises. *)
Lemma loops_prefix (drives : list dir) (db : database) (p : option nat) :
  loop_drives drives (start drives db p)
  = set_pending (left_over p (attempted (steps drives)))
      (set_stopped (seen p (attempted (steps drives)))
         (do_steps (taken p (steps drives)) (start drives db p))).
Proof.
  rewrite loop_drives_steps, run_steps_prefix by reflexivity.
  reflexivity.
Qed.

Lemma run_connected_prefix (drives : list dir) (db : database)
    (p : option nat) :
  run_connected drives db p
  = let w := set_pending (left_over p (attempted (steps drives)))
               (set_stopped (seen p (attempted (steps drives)))
                  (do_steps (taken p (steps drives)) (start drives db p))) in
    match first_error (taken p (steps drives)) with
    | Some _ => w
    | None => finish w
    end.
Proof.
  unfold FileIndexer.run_connected. rewrite loops_prefix.
  cbn [raised set_pending set_stopped].
  rewrite do_steps_raised by reflexivity. reflexivity.
Qed.

Lemma run_connected_raised (drives : list dir) (db : database)
    (p : option nat) :
  raised (run_connected drives db p) = first_error (taken p (steps drives)).
Proof.
  rewrite run_connected_prefix. cbv zeta.
  destruct (first_error (taken p (steps drives))) as [e|] eqn:E; simpl;
    rewrite do_steps_raised by reflexivity; exact E.
Qed.

Lemma run_connected_processed (drives : list dir) (db : database)
    (p : option nat) :
  files_processed (run_connected drives db p)
  = Z.of_nat (List.length (entries_of_steps (taken p (steps drives)))).
Proof.
  rewrite run_connected_prefix. cbv zeta.
  destruct (first_error (taken p (steps drives))); simpl;
    rewrite do_steps_processed by reflexivity; reflexivity.
Qed.

Lemma run_connected_emitted (drives : list dir) (db : database)
    (p : option nat) :
  emitted (run_connected drives db p)
  = emitted (do_steps (taken p (steps drives)) (start drives db p))
    ++ ending (raised (run_connected drives db p))
              (files_processed (run_connected drives db p)).
Proof.
  rewrite run_connected_raised, run_connected_processed.
  rewrite run_connected_prefix. cbv zeta.
  destruct (first_error (taken p (steps drives))); simpl.
  - rewrite app_nil_r. reflexivity.
  - rewrite do_steps_processed by reflexivity.
    rewrite <- app_assoc. reflexivity.
Qed.

Lemma run_connected_working (drives : list dir) (db : database)
    (p : option nat) :
  working (conn (run_connected drives db p))
  = fold_left insert_or_replace (entries_of_steps (taken p (steps drives)))
              (create_table_if_not_exists db).
Proof.
  rewrite run_connected_prefix. cbv zeta.
  destruct (first_error (taken p (steps drives))); simpl;
    rewrite do_steps_working by reflexivity; reflexivity.
Qed.

Lemma run_connected_committed (drives : list dir) (db : database)
    (p : option nat) :
  committed (conn (run_connected drives db p))
  = fold_left insert_or_replace
      (kept_upserts (raised (run_connected drives db p))
                    (entries_of_steps (taken p (steps drives))))
      (create_table_if_not_exists db).
Proof.
  rewrite run_connected_raised. rewrite run_connected_prefix. cbv zeta.
  destruct (first_error (taken p (steps drives))); simpl.
  - destruct (batched_steps format_mtime insert_error
                (create_table_if_not_exists db) (taken p (steps drives)) []
                (start drives db p)) as (_ & _ & Hc);
      [reflexivity|repeat split|]. exact Hc.
  - rewrite do_steps_working by reflexivity. reflexivity.
Qed.

Lemma run_connected_stopped (drives : list dir) (db : database)
    (p : option nat) :
  stopped (run_connected drives db p)
  = match raised (run_connected drives db p) with
    | None => seen p (steps drives)
    | Some _ => false
    end.
Proof.
  rewrite run_connected_raised. rewrite run_connected_prefix. cbv zeta.
  pose proof (seen_of_taken format_mtime insert_error p (steps drives)) as H.
  destruct (first_error (taken p (steps drives))); simpl; exact H.
Qed.

Lemma run_connected_total (drives : list dir) (db : database)
    (p : option nat) :
  total_files_estimated (run_connected drives db p) = estimated_total drives.
Proof.
  rewrite run_connected_prefix. cbv zeta.
  destruct (first_error (taken p (steps drives))); simpl;
    rewrite do_steps_total by reflexivity; reflexivity.
Qed.

(** The signals of a run: those of the walk, then the two last ones when
    [run] returns. *)
Lemma run_trace (drives : list dir) (db : database) (p : option nat) :
  exists body,
    emitted (run_connected drives db p)
    = body ++ ending (raised (run_connected drives db p))
                     (files_processed (run_connected drives db p))
    /\ Forall (body_emission (estimated_total drives)
                 (files_processed (run_connected drives db p))) body
    /\ Sorted Z.le (map at_processed body).
Proof.
  exists (emitted (do_steps (taken p (steps drives)) (start drives db p))).
  split; [apply run_connected_emitted|].
  pose proof (EstimateFacts.estimated_total_lower drives) as HT.
  destruct (walking_steps format_mtime insert_error (estimated_total drives)
              (taken p (steps drives)) (start drives db p))
    as (Ht & Hp & Hf & Hs); [lia|reflexivity|apply start_walking|].
  split; [|exact Hs].
  rewrite run_connected_processed.
  rewrite do_steps_processed in Hf by reflexivity. exact Hf.
Qed.

Lemma percentage_not_100 (a T : Z) : percentage_of a T <> 100.
Proof. unfold percentage_of. lia. Qed.

(** C1, amended.  In every run, cancelled or not, each progress signal of
    the walk carries min(99, int(processed / estimate * 100)), computed in
    double precision as the code computes it, for the processed count at
    its emission and the estimate of the session (the texts "Indexed n
    files" come at the multiples of 500), and none of them carries 100.
    When [run] returns, after a walk that came to its end or after a stop,
    these signals are followed by the signal that carries 100 and by the
    finished signal, so 100 is emitted once, also by a cancelled run.  When
    an exception leaves [run], which happens exactly when one of the steps
    done raises one that is not caught, the signals of the walk are all
    there is: no signal carries 100. *)
Theorem percentages_then_terminal_100 :
  forall (drives : list dir) (db : database) (pending : option nat),
    let w := run_connected drives db pending in
    raised w = first_error (taken pending (steps drives))
    /\ stopped w = match raised w with
                   | None => seen pending (steps drives)
                   | Some _ => false
                   end
    /\ exists body,
         emitted w = body ++ match raised w with
                             | None => terminal (files_processed w)
                             | Some _ => []
                             end
         /\ Forall (body_emission (estimated_total drives)
                                  (files_processed w)) body
         /\ Forall (fun e => forall m q,
                       sig e = progress_signal m q ->
                       q = percentage_of (at_processed e)
                                         (estimated_total drives)
                       /\ q <> 100) body.
Proof.
  intros drives db pending w. split; [apply run_connected_raised|].
  split; [apply run_connected_stopped|].
  destruct (run_trace drives db pending) as (body & He & Hf & Hs).
  exists body. split; [exact He|]. split; [exact Hf|].
  revert Hf. apply Forall_impl. intros e [_ [m' [Hm _]]] m q Hq.
  rewrite Hm in Hq. inversion Hq; subst.
  split; [reflexivity|apply percentage_not_100].
Qed.

Lemma progress_events_body (T n : Z) (body : list emission) :
  Forall (body_emission T n) body ->
  progress_events body
  = map (fun e => (at_processed e, percentage_of (at_processed e) T)) body.
Proof.
  induction 1 as [|e l [_ [m [Hm _]]] Hl IH]; [reflexivity|].
  unfold progress_events in *. simpl. rewrite Hm, IH. reflexivity.
Qed.

Lemma Sorted_map_mono_on (P : Z -> Prop) (f : Z -> Z) (l : list Z) :
  (forall x y, P x -> x <= y -> f x <= f y) ->
  Forall P l ->
  Sorted Z.le l -> Sorted Z.le (map f l).
Proof.
  intros Hf HP. induction 1 as [|x l Hs IH Hh]; simpl; constructor.
  - apply IH. inversion HP; assumption.
  - inversion HP; subst. destruct Hh; simpl; constructor.
    apply Hf; assumption.
Qed.

Lemma Sorted_app_nil_or_one (l : list Z) (r : option exception) (n : Z) :
  Sorted Z.le l -> Forall (fun x => x <= n) l ->
  Sorted Z.le (l ++ match r with None => [n] | Some _ => [] end).
Proof.
  intros Hs Hf. destruct r; [rewrite app_nil_r; exact Hs|].
  apply Sorted_snoc; assumption.
Qed.

(** C5.  In every run the progress events are the events of the walk,
    followed by a last one when [run] returns: the last one carries exactly
    100, the events of the walk carry a percentage in [0, 99], and along the
    whole sequence neither the processed count nor the percentage ever
    decreases.  A run that an exception ends has the events of the walk
    only. *)
Theorem monotonic_progress :
  forall (drives : list dir) (db : database) (pending : option nat),
    let w := run_connected drives db pending in
    exists body,
      progress_events (emitted w)
      = body ++ match raised w with
                | None => [(files_processed w, 100)]
                | Some _ => []
                end
      /\ Forall (fun e => 0 <= snd e <= 99) body
      /\ Sorted Z.le (map fst (progress_events (emitted w)))
      /\ Sorted Z.le (map snd (progress_events (emitted w))).
Proof.
  intros drives db pending w.
  destruct (run_trace drives db pending) as (body & He & Hf & Hs).
  fold w in He, Hf.
  pose proof (EstimateFacts.estimated_total_lower drives) as HT.
  set (T := estimated_total drives) in *.
  assert (Hp : progress_events (emitted w)
               = map (fun e => (at_processed e,
                                percentage_of (at_processed e) T)) body
                 ++ match raised w with
                    | None => [(files_processed w, 100)]
                    | Some _ => []
                    end).
  { rewrite He. unfold progress_events. rewrite flat_map_app.
    fold (progress_events body). rewrite (progress_events_body T _ _ Hf).
    destruct (raised w); reflexivity. }
  exists (map (fun e => (at_processed e, percentage_of (at_processed e) T))
              body).
  split; [exact Hp|]. split; [|split].
  - apply Forall_map. revert Hf. apply Forall_impl. intros e [Ha _].
    simpl. apply ArithFacts.percentage_range; lia.
  - rewrite Hp, map_app, map_map. cbn [fst].
    replace (map fst match raised w with
                     | None => [(files_processed w, 100)]
                     | Some _ => []
                     end)
      with (match raised w with
            | None => [files_processed w]
            | Some _ => []
            end) by (destruct (raised w); reflexivity).
    apply Sorted_app_nil_or_one; [exact Hs|].
    apply Forall_map. revert Hf. apply Forall_impl. intros e [Ha _]. lia.
  - rewrite Hp, map_app, map_map. cbn [snd].
    replace (map snd match raised w with
                     | None => [(files_processed w, 100)]
                     | Some _ => []
                     end)
      with (match raised w with
            | None => [100]
            | Some _ => []
            end) by (destruct (raised w); reflexivity).
    rewrite <- (map_map at_processed (fun a => percentage_of a T)).
    apply Sorted_app_nil_or_one.
    + apply (Sorted_map_mono_on (fun a => 0 <= a)); [| |exact Hs].
      * intros x y Hx Hxy. apply ArithFacts.percentage_mono; lia.
      * apply Forall_map. revert Hf. apply Forall_impl.
        intros e [Ha _]. lia.
    + apply Forall_map, Forall_map.
      apply Forall_forall. intros e _. unfold percentage_of. lia.
Qed.

(** C7.  The loops read the flag before every step, a step being the start
    of a drive, the entry into a directory or one file.  When the other
    thread calls [stop] while step number [n] runs (after [n] reads that
    gave [False]), that step is finished and no later one is done: the
    table and the counter are those of the first [n] steps, up to the first
    of them that raises, and so are the signals of the walk.  When none of
    these steps raises, the run is stopped if a step was left and ends with
    its last commit and its two last signals; when one raises, the run ends
    there, with the commits of the whole batches and no last signal. *)
Theorem cancellation_ends_after_current_step :
  forall (drives : list dir) (db : database) (n : nat),
    let w := run_connected drives db (Some n) in
    let done := firstn n (steps drives) in
    let es := entries_of_steps done in
    (forall w0, raised w0 = None ->
                loop_drives drives w0 = run_steps (steps drives) w0)
    /\ raised w = first_error done
    /\ stopped w = match raised w with
                   | None => (n <? List.length (steps drives))%nat
                   | Some _ => false
                   end
    /\ working (conn w)
       = fold_left insert_or_replace es (create_table_if_not_exists db)
    /\ committed (conn w)
       = fold_left insert_or_replace (kept_upserts (raised w) es)
                   (create_table_if_not_exists db)
    /\ files_processed w = Z.of_nat (List.length es)
    /\ emitted w
       = emitted (do_steps done (start drives db (Some n)))
         ++ match raised w with
            | None => terminal (files_processed w)
            | Some _ => []
            end.
Proof.
  intros drives db n w done es.
  split; [|split; [|split; [|split; [|split; [|split]]]]].
  - intros w0 H. apply loop_drives_steps. exact H.
  - apply run_connected_raised.
  - apply run_connected_stopped.
  - apply run_connected_working.
  - apply run_connected_committed.
  - apply run_connected_processed.
  - apply run_connected_emitted.
Qed.

(** C8, amended.  The estimate is max(1000, int(filesSeen / dirsSampled *
    estimatedTotalDirs)), computed in double precision, when a directory was
    sampled and the default 10000 when none was; at most 20 directories are
    sampled; the estimate is at least 1000; and no step of the walk changes
    it: after any number of steps, and at the end of a run with any schedule
    of [stop], the session holds the value estimated at the start. *)
Theorem estimate_floor_and_fixed :
  forall drives : list dir,
    let sample := file_count_drives drives (0, 0) in
    estimated_total drives
    = (if 0 <? snd sample
       then Z.max 1000
              (Float.int
                 (Float.mul (Float.true_div (fst sample) (snd sample))
                            (Float.of_int (_estimate_dir_count drives))))
       else 10000)
    /\ 0 <= snd sample <= 20
    /\ 1000 <= estimated_total drives
    /\ (forall db pending l,
          total_files_estimated (do_steps l (start drives db pending))
          = estimated_total drives)
    /\ (forall db pending,
          total_files_estimated (run_connected drives db pending)
          = estimated_total drives).
Proof.
  intros drives sample. split; [|split; [|split; [|split]]].
  - apply EstimateFacts.estimated_total_formula.
  - pose proof (EstimateFacts.file_count_drives_bounds drives (0, 0)) as H.
    simpl in H. unfold sample. lia.
  - apply EstimateFacts.estimated_total_lower.
  - intros db pending l. rewrite do_steps_total by reflexivity. reflexivity.
  - intros db pending. apply run_connected_total.
Qed.

(** C6.  A file whose [os.stat] raises is passed over, and so is a file for
    which any other statement of the body raises an [OSError]: the step
    changes nothing and the loop goes on with the next file.  A run that is
    not stopped, in which no file raises an exception of another kind, ends
    not stopped and without an exception, with its two last signals, and
    its table is the table at the start with every visible file upserted
    whose [os.stat] succeeded, in the order of the walk, whatever failed
    before it.  For the root with nine readable files and one unreadable
    file the run ends with the nine rows, the count 9, not stopped and
    without an exception. *)
Theorem unreadable_entry_skipped :
  (forall root name err w,
      process_file root (mk_file name (inl err)) w = w)
  /\ (forall root f e w,
        try_file root f w = inl e -> caught e = true ->
        process_file root f w = w)
  /\ (forall root name err rest w,
        raised w = None ->
        loop_files root (mk_file name (inl err) :: rest) w
        = if fst (read_stopped w) then snd (read_stopped w)
          else loop_files root rest (snd (read_stopped w)))
  /\ (forall drives db,
        let w := run_connected drives db None in
        first_error (steps drives) = None ->
        raised w = None
        /\ stopped w = false
        /\ committed (conn w)
           = fold_left insert_or_replace (entries_of_steps (steps drives))
                       (create_table_if_not_exists db)
        /\ files_processed w
           = Z.of_nat (List.length (entries_of_steps (steps drives)))
        /\ (exists body, emitted w = body ++ terminal (files_processed w))
        /\ forall root f st date,
             In (FileStep root f) (steps drives) ->
             Text.startswith (f_name f) "." = false ->
             f_stat f = inr st ->
             format_mtime (st_mtime st) = inr date ->
             insert_error (entry_of root f st date) = None ->
             In (entry_of root f st date) (entries_of_steps (steps drives)))
  /\ (let w := FileIndexer.run_connected fixed_date no_error [nine_and_one]
                 None None in
      raised w = None
      /\ stopped w = false
      /\ map name (committed (conn w))
         = ["f1"; "f2"; "f3"; "f4"; "f5"; "f6"; "f7"; "f8"; "f9"]%string
      /\ files_processed w = 9
      /\ exists body, emitted w = body ++ terminal 9).
Proof.
  split; [|split; [|split; [|split]]].
  - intros root name err w. unfold FileIndexer.process_file. simpl.
    destruct (Text.startswith name "."); reflexivity.
  - intros root f e w H Hc. unfold FileIndexer.process_file.
    destruct (Text.startswith (f_name f) "."); [reflexivity|].
    rewrite H, Hc. reflexivity.
  - intros root name err rest w Hr. simpl.
    destruct (read_stopped w) as [b w1] eqn:E. simpl.
    destruct b; [reflexivity|].
    pose proof (read_stopped_raised _ _ _ E) as Hr1. rewrite Hr in Hr1.
    unfold FileIndexer.process_file. simpl.
    destruct (Text.startswith name "."); rewrite Hr1; reflexivity.
  - intros drives db w He.
    assert (Hr : raised w = None)
      by (unfold w; rewrite run_connected_raised; exact He).
    split; [exact Hr|].
    split; [unfold w in *; rewrite run_connected_stopped, Hr; reflexivity|].
    split; [unfold w in *; rewrite run_connected_committed, Hr;
            reflexivity|].
    split; [apply run_connected_processed|].
    split.
    + eexists. unfold w in *. rewrite run_connected_emitted, Hr. reflexivity.
    + intros root f st date Hin Hh Hs Hd Hi.
      apply (entries_of_all_steps _ _ _ root f); [exact He|exact Hin|].
      apply upserted_file; assumption.
  - cbv zeta. split; [reflexivity|]. split; [reflexivity|].
    split; [reflexivity|]. split; [reflexivity|].
    exists [ mk_emission 0 (progress_signal Estimating 0);
             mk_emission 0 (progress_signal (Estimated 1000) 0);
             mk_emission 0 (progress_signal (IndexingDrive "/data") 0) ].
    reflexivity.
Qed.

(** C4.  Upserts never give two rows to a path: a table without two rows
    of one path stays so under any sequence of upserts.  An upsert of an
    entry that was just upserted leaves the entries of the table as they
    were, and the table then holds exactly one row for the path, with the
    values of the entry.  A second full run over the same files, which ends
    as the first one did, leaves the entries of the store as the first run
    left them; and when the runs return, every file the walk upserts has,
    after the first run and after the second, exactly one row under its
    path, with the values of the file (for a file whose path no other
    upserted file shares, as on a disk).  For the root with nine readable
    files the store holds after two runs the nine entries it held after
    one. *)
Theorem upsert_by_path :
  (forall (t : table) (es : list entry),
      NoDup (map path t) ->
      NoDup (map path (fold_left insert_or_replace es t)))
  /\ (forall (t : table) (e : entry),
        let t1 := insert_or_replace t e in
        let t2 := insert_or_replace t1 e in
        entries t2 = entries t1
        /\ map fields (filter (fun r => path r =? e_path e)%string t2) = [e])
  /\ (forall (drives : list dir) (db : database),
        let w1 := run_connected drives db None in
        let s1 := committed (conn w1) in
        let w2 := run_connected drives (Some s1) None in
        let s2 := committed (conn w2) in
        entries s2 = entries s1
        /\ raised w2 = raised w1
        /\ (NoDup (map path (create_table_if_not_exists db)) ->
            NoDup (map path s1) /\ NoDup (map path s2))
        /\ (raised w1 = None ->
            forall e : entry,
              In e (entries_of_steps (steps drives)) ->
              (forall e', In e' (entries_of_steps (steps drives)) ->
                          e_path e' = e_path e -> e' = e) ->
              map fields (filter (fun r => path r =? e_path e)%string s1)
              = [e]
              /\ map fields (filter (fun r => path r =? e_path e)%string s2)
                 = [e]))
  /\ (let s1 := committed (conn (FileIndexer.run_connected fixed_date
                                   no_error [nine_and_one] None None)) in
      let s2 := committed (conn (FileIndexer.run_connected fixed_date
                                   no_error [nine_and_one] (Some s1) None)) in
      map name s1
      = ["f1"; "f2"; "f3"; "f4"; "f5"; "f6"; "f7"; "f8"; "f9"]%string
      /\ List.length s2 = 9%nat
      /\ entries s2 = entries s1).
Proof.
  split; [|split; [|split]].
  - intros t es H. apply upserts_NoDup. exact H.
  - intros t e t1 t2. split.
    + unfold t2, t1. rewrite !entries_insert_or_replace.
      rewrite filter_app, filter_filter. simpl.
      rewrite String.eqb_refl. simpl. rewrite app_nil_r. f_equal.
      apply filter_ext. intros x. destruct (e_path x =? e_path e)%string;
        reflexivity.
    + unfold t2. rewrite filter_path_insert. reflexivity.
  - intros drives db w1 s1 w2 s2.
    assert (R : raised w2 = raised w1)
      by (unfold w2, w1; rewrite !run_connected_raised; reflexivity).
    assert (S1 : s1 = fold_left insert_or_replace
                        (kept_upserts (raised w1)
                           (entries_of_steps (steps drives)))
                        (create_table_if_not_exists db))
      by (unfold s1, w1; apply run_connected_committed).
    assert (S2 : s2 = fold_left insert_or_replace
                        (kept_upserts (raised w1)
                           (entries_of_steps (steps drives)))
                        s1).
    { unfold s2. rewrite <- R. unfold w2. apply run_connected_committed. }
    split; [|split; [exact R|split]].
    + rewrite S2, S1, !entries_upserts. apply upserts_twice.
    + intros Hn. assert (N1 : NoDup (map path s1))
        by (rewrite S1; apply upserts_NoDup; exact Hn).
      split; [exact N1|]. rewrite S2. apply upserts_NoDup. exact N1.
    + intros Hr e Hin Hu. rewrite Hr in S1, S2. simpl in S1, S2.
      split.
      * rewrite S1. apply one_row_per_upserted_path; assumption.
      * rewrite S2. apply one_row_per_upserted_path; assumption.
  - cbv zeta. repeat split.
Qed.

(** *** What the caller receives *)

Lemma receive_app (show : bool) (h : Z) (disk : SearchBar.connect_result)
    (l1 l2 : list signal) (k : App.khoj) :
  App.receive show h disk (l1 ++ l2) k
  = match App.receive show h disk l1 k with
    | inl e => inl e
    | inr k1 => App.receive show h disk l2 k1
    end.
Proof.
  revert k. induction l1 as [|s l1 IH]; intros k; [reflexivity|].
  simpl. destruct (App.deliver show h disk s k); [reflexivity|]. apply IH.
Qed.

(** The progress signals of the walk leave the dialog on the screen. *)
Lemma receive_body (show : bool) (h : Z) (disk : SearchBar.connect_result)
    (T n : Z) (body : list emission) (k : App.khoj) :
  Forall (body_emission T n) body ->
  exists k1,
    App.receive show h disk (map sig body) k = inr k1
    /\ (App.khoj_dialog k1 = None <-> App.khoj_dialog k = None).
Proof.
  intros H. revert k. induction H as [|e l [_ [m [Hm _]]] Hl IH]; intros k.
  - exists k. split; [reflexivity|tauto].
  - simpl. rewrite Hm. simpl.
    destruct (IH (App.mk_khoj
                    (option_map (App.update_status m
                                   (percentage_of (at_processed e) T))
                                (App.khoj_dialog k))
                    (App.khoj_search_bar k) (App.khoj_bar_visible k)))
      as [k1 [E1 D1]].
    exists k1. split; [exact E1|]. rewrite D1. simpl.
    destruct (App.khoj_dialog k); simpl; split; congruence.
Qed.

Lemma on_indexing_finished_dialog (show : bool) (h : Z)
    (disk : SearchBar.connect_result) (k k' : App.khoj) :
  App.on_indexing_finished show h disk k = inr k' ->
  App.khoj_dialog k' = None.
Proof.
  unfold App.on_indexing_finished, App.toggle_search_bar,
    App.init_search_bar.
  destruct show; simpl; [|intros H; inversion H; reflexivity].
  destruct (App.khoj_search_bar k) as [sb|]; simpl.
  - destruct (App.khoj_bar_visible k); intros H; inversion H; reflexivity.
  - destruct (SearchBar.__init__ h disk) as [e|sb]; [discriminate|]. simpl.
    destruct (App.khoj_bar_visible k); intros H; inversion H; reflexivity.
Qed.


End RunOf.

(** C6 at the root with nine readable files and one unreadable file. *)
Lemma unreadable_entry_skipped_witness :
  let w := FileIndexer.run_connected fixed_date no_error [nine_and_one]
             (Some two_files) None in
  raised w = None
  /\ stopped w = false
  /\ committed (conn w)
     = fold_left insert_or_replace
         (FileIndexer.entries_of_steps fixed_date no_error
            (steps [nine_and_one]))
         two_files
  /\ files_processed w = 9.
Proof.
  destruct (unreadable_entry_skipped fixed_date no_error)
    as (_ & _ & _ & H & _).
  destruct (H [nine_and_one] (Some two_files))
    as (H1 & H2 & H3 & H4 & _); [reflexivity|].
  split; [exact H1|]. split; [exact H2|]. split; [exact H3|exact H4].
Defined.

(** C4 at the root with one file: after one run and after two the store
    holds one row for the path of the file, with its values. *)
Lemma upsert_by_path_witness :
  let e := mk_entry "a.txt" "/a.txt" ".txt" 100 "2023-11-14 22:13:20" in
  let s1 := committed (conn (FileIndexer.run_connected fixed_date no_error
                               [one_file] None None)) in
  let s2 := committed (conn (FileIndexer.run_connected fixed_date no_error
                               [one_file] (Some s1) None)) in
  map fields (filter (fun r => path r =? "/a.txt")%string s1) = [e]
  /\ map fields (filter (fun r => path r =? "/a.txt")%string s2) = [e].
Proof.
  destruct (upsert_by_path fixed_date no_error) as (_ & _ & H & _).
  destruct (H [one_file] None) as (_ & _ & _ & G).
  apply (G eq_refl
           (mk_entry "a.txt" "/a.txt" ".txt" 100 "2023-11-14 22:13:20")).
  - left. reflexivity.
  - intros e' [E|[]] _. symmetry. exact E.
Defined.

(** C7 at the root with one file, stopped after two reads of the flag: the
    loops are the steps, and the run has done the first two. *)
Lemma cancellation_ends_after_current_step_witness :
  loop_drives fixed_date no_error [one_file] (start [one_file] None None)
  = run_steps fixed_date no_error (steps [one_file])
      (start [one_file] None None)
  /\ stopped (FileIndexer.run_connected fixed_date no_error [one_file] None
                (Some 2%nat)) = true.
Proof.
  destruct (cancellation_ends_after_current_step fixed_date no_error
              [one_file] None 2)
    as (H & _ & S & _).
  split; [apply H; reflexivity|exact S].
Defined.


(** C1, the claim as stated fails.  The run over a root with one file that
    is stopped before its first read of the flag is a cancelled run, and it
    emits the percentage 100. *)
Lemma cancelled_run_emits_100 :
  let w := FileIndexer.run_connected fixed_date no_error [one_file] None
             (Some 0%nat) in
  stopped w = true
  /\ files_processed w = 0
  /\ In (0, 100) (progress_events (emitted w)).
Proof. cbv zeta. split; [reflexivity|]. split; [reflexivity|]. simpl. tauto. Qed.

(** C8, the claim as stated fails.  For a root that cannot be listed no
    directory is sampled and no file is seen; the estimate is 10000, not
    the maximum of 1000 and the product of the claim, which is 1000. *)
Lemma estimate_without_sample :
  file_count_drives [closed_root] (0, 0) = (0, 0)
  /\ estimated_total [closed_root] = 10000
  /\ Spec.estimated_total_files 0 0 (_estimate_dir_count [closed_root])
     = 1000
  /\ estimated_total [closed_root]
     <> Spec.estimated_total_files 0 0 (_estimate_dir_count [closed_root]).
Proof. repeat split. discriminate. Qed.


(** A run that an exception ends.  The second of three files has a time
    stamp of the year 10000, for which [datetime.fromtimestamp] raises
    [ValueError]: the first file is upserted but never committed, the third
    is not reached, and the run ends without its last two signals. *)
Lemma future_file_aborts_run :
  let w := FileIndexer.run_connected dated no_error [with_future] None None in
  raised w = Some ValueError
  /\ map name (working (conn w)) = ["a.txt"%string]
  /\ committed (conn w) = []
  /\ files_processed w = 1
  /\ map sig (emitted w)
     = [ progress_signal Estimating 0;
         progress_signal (Estimated 1000) 0;
         progress_signal (IndexingDrive "/") 0 ].
Proof. cbv zeta. repeat split. Qed.

(** A run that the store ends.  The second of three files has a name that
    [cursor.execute] cannot encode: it raises [UnicodeEncodeError], which
    leaves [run] as the [ValueError] above does. *)
Lemma unencodable_name_aborts_run :
  let w := FileIndexer.run_connected fixed_date no_bad_name [with_bad_name]
             None None in
  raised w = Some UnicodeEncodeError
  /\ map name (working (conn w)) = ["a.txt"%string]
  /\ committed (conn w) = []
  /\ files_processed w = 1
  /\ ~ In finished_signal (map sig (emitted w)).
Proof.
  cbv zeta. split; [reflexivity|]. split; [reflexivity|].
  split; [reflexivity|]. split; [reflexivity|].
  simpl. intros [H|[H|[H|[]]]]; discriminate.
Qed.

End RunFacts.

(* ------------------------------------------------------------------ *)
(** ** More about the store *)

Module StoreMore.
Import Store StoreFacts More.
#[local] Open Scope Z_scope.
#[local] Open Scope list_scope.

Lemma filter_other_insert (t : table) (e : entry) :
  filter (fun r => negb (path r =? e_path e)%string) (insert_or_replace t e)
  = filter (fun r => negb (path r =? e_path e)%string) t.
Proof.
  unfold insert_or_replace. rewrite filter_app, filter_filter.
  cbn [filter path fields]. rewrite String.eqb_refl. cbn [negb].
  rewrite app_nil_r. apply filter_ext. intros r.
  destruct (path r =? e_path e)%string; reflexivity.
Qed.

Lemma filter_same_insert (t : table) (e : entry) :
  filter (fun r => path r =? e_path e)%string (insert_or_replace t e)
  = [mk_row (next_id t) e].
Proof.
  unfold insert_or_replace. rewrite filter_app, filter_none.
  - simpl. unfold path. simpl. rewrite String.eqb_refl. reflexivity.
  - intros x Hx. apply filter_In in Hx. destruct Hx as [_ Hx].
    apply negb_true_iff in Hx. exact Hx.
Qed.

(** X1.  After [INSERT OR REPLACE] of an entry the table holds exactly one
    row for the path of the entry, with the values of the entry, and the
    rows of all other paths are the rows that were there, in the same
    order. *)
Theorem upsert_lookup_and_frame :
  forall (t : table) (e : entry),
    map fields
        (filter (fun r => path r =? e_path e)%string (insert_or_replace t e))
    = [e]
    /\ filter (fun r => negb (path r =? e_path e)%string)
              (insert_or_replace t e)
       = filter (fun r => negb (path r =? e_path e)%string) t.
Proof.
  intros t e. split.
  - rewrite filter_same_insert. reflexivity.
  - apply filter_other_insert.
Qed.

Lemma id_below_next (t : table) (r : row) : In r t -> id r < next_id t.
Proof.
  unfold next_id. induction t as [|x t IH]; simpl; [tauto|].
  intros [H|H]; [subst; lia|]. specialize (IH H). lia.
Qed.

Lemma next_id_positive (t : table) :
  Forall (fun r => 1 <= id r) t -> 1 <= next_id t.
Proof.
  unfold next_id. induction 1 as [|x t Hx Ht IH]; simpl; lia.
Qed.

Lemma StronglySorted_filter {A} (R : A -> A -> Prop) (f : A -> bool)
    (l : list A) :
  StronglySorted R l -> StronglySorted R (filter f l).
Proof.
  induction 1 as [|a l Hs IH Hf]; simpl; [constructor|].
  destruct (f a); [|exact IH]. constructor; [exact IH|].
  apply Forall_forall. intros x Hx. apply filter_In in Hx.
  rewrite Forall_forall in Hf. apply Hf. tauto.
Qed.

Lemma StronglySorted_snoc {A} (R : A -> A -> Prop) (l : list A) (x : A) :
  StronglySorted R l -> Forall (fun y => R y x) l ->
  StronglySorted R (l ++ [x]).
Proof.
  induction 1 as [|a l Hs IH Hf]; simpl; intros H.
  - repeat constructor.
  - inversion H; subst. constructor; [auto|].
    apply Forall_app. split; [exact Hf|]. repeat constructor. assumption.
Qed.

Lemma insert_keeps_rowid_order (t : table) (e : entry) :
  StronglySorted by_id t /\ Forall (fun r => 1 <= id r) t ->
  StronglySorted by_id (insert_or_replace t e)
  /\ Forall (fun r => 1 <= id r) (insert_or_replace t e).
Proof.
  intros [Hs Hp]. unfold insert_or_replace. split.
  - apply StronglySorted_snoc; [apply StronglySorted_filter; exact Hs|].
    apply Forall_forall. intros r Hr. apply filter_In in Hr.
    unfold by_id. simpl. apply id_below_next. tauto.
  - apply Forall_app. split.
    + apply Forall_forall. intros r Hr. apply filter_In in Hr.
      rewrite Forall_forall in Hp. apply Hp. tauto.
    + repeat constructor. simpl. apply next_id_positive. exact Hp.
Qed.

Lemma upserts_keep_rowid_order (es : list entry) (t : table) :
  StronglySorted by_id t /\ Forall (fun r => 1 <= id r) t ->
  StronglySorted by_id (fold_left insert_or_replace es t)
  /\ Forall (fun r => 1 <= id r) (fold_left insert_or_replace es t).
Proof.
  revert t. induction es as [|e es IH]; simpl; intros t H; [exact H|].
  apply IH. apply insert_keeps_rowid_order. exact H.
Qed.

Lemma by_id_NoDup (t : table) : StronglySorted by_id t -> NoDup (map id t).
Proof.
  induction 1 as [|r t Hs IH Hf]; simpl; constructor; [|exact IH].
  intros Hin. apply in_map_iff in Hin. destruct Hin as [x [Hx Hin]].
  rewrite Forall_forall in Hf. specialize (Hf x Hin). unfold by_id in Hf.
  lia.
Qed.

(** X2.  In a table built by upserts from the new table the rowids are
    positive and strictly increase along the table: the rows stand in the
    order of their last upsert, and no two rows share a rowid. *)
Theorem rowids_increase :
  forall es : list entry,
    let t := fold_left insert_or_replace es [] in
    StronglySorted by_id t
    /\ Forall (fun r => 1 <= id r) t
    /\ NoDup (map id t).
Proof.
  intros es t.
  destruct (upserts_keep_rowid_order es []) as [Hs Hp].
  { split; constructor. }
  split; [exact Hs|]. split; [exact Hp|]. apply by_id_NoDup. exact Hs.
Qed.

Lemma upsert_entries_paths (es : list entry) :
  map e_path (fold_left upsert_entry es [])
  = nodup string_dec (map e_path es).
Proof.
  induction es as [|e es IH]; [reflexivity|].
  simpl fold_left. rewrite upserts_split.
  change (upsert_entry [] e) with [e]. simpl map at 2. simpl nodup.
  rewrite map_app, IH. simpl filter.
  destruct (in_dec string_dec (e_path e) (map e_path es)) as [Hin|Hin].
  - assert (E : path_notin es e = false).
    { unfold path_notin. apply negb_false_iff, existsb_exists.
      apply in_map_iff in Hin. destruct Hin as [x [Hx Hin]].
      exists x. split; [exact Hin|]. apply String.eqb_eq. congruence. }
    rewrite E. reflexivity.
  - assert (E : path_notin es e = true).
    { unfold path_notin. apply negb_true_iff.
      destruct (existsb _ es) eqn:B; [|reflexivity].
      apply existsb_exists in B. destruct B as [x [Hx B]].
      apply String.eqb_eq in B. exfalso. apply Hin.
      apply in_map_iff. exists x. split; congruence. }
    rewrite E. reflexivity.
Qed.

(** X3.  The paths of a table built by upserts from the new table are the
    paths that were upserted, each once, in the order of their last upsert;
    so the table has as many rows as distinct paths were upserted. *)
Theorem table_holds_distinct_paths :
  forall es : list entry,
    map path (fold_left insert_or_replace es [])
    = nodup string_dec (map e_path es)
    /\ List.length (fold_left insert_or_replace es [])
       = List.length (nodup string_dec (map e_path es)).
Proof.
  intros es.
  assert (H : map path (fold_left insert_or_replace es [])
              = nodup string_dec (map e_path es)).
  { rewrite <- upsert_entries_paths.
    change (@nil entry) with (entries []).
    rewrite <- entries_upserts. unfold entries. rewrite map_map.
    reflexivity. }
  split; [exact H|]. rewrite <- H. rewrite length_map. reflexivity.
Qed.

Lemma untouched_rows_kept (es : list entry) (t : table) :
  filter (untouched es) (fold_left insert_or_replace es t)
  = filter (untouched es) t.
Proof.
  revert t. induction es as [|e es IH]; intros t; [reflexivity|].
  simpl fold_left.
  assert (E : forall l,
             filter (untouched (e :: es)) l
             = filter (untouched es)
                 (filter (fun r => negb (path r =? e_path e)%string) l)).
  { intros l. rewrite filter_filter. apply filter_ext. intros r.
    unfold untouched, path_notin, path. simpl.
    destruct (e_path (fields r) =? e_path e)%string; reflexivity. }
  assert (C : forall l,
             filter (untouched es)
               (filter (fun r => negb (path r =? e_path e)%string) l)
             = filter (fun r => negb (path r =? e_path e)%string)
                 (filter (untouched es) l)).
  { intros l. rewrite !filter_filter. apply filter_ext. intros r.
    apply andb_comm. }
  rewrite !E, C, IH, <- C, filter_other_insert. reflexivity.
Qed.

End StoreMore.

(* ------------------------------------------------------------------ *)
(** ** More about [LIKE] and [search] *)

Module QueryMore.
Import Store Spec SearchBar QueryFacts More Examples.
#[local] Open Scope list_scope.

Lemma prefix_like (q s : string) :
  prefix_ci q s = true -> like (q ++ "%")%string s = true.
Proof.
  revert s. induction q as [|c q IH]; intros s H.
  - apply like_percent_only.
  - destruct s as [|d s]; [discriminate|].
    simpl in H. apply andb_true_iff in H. destruct H as [Hc Hq].
    specialize (IH s Hq).
    destruct (Ascii.eqb c "%") eqn:E.
    + apply Ascii.eqb_eq in E. subst c.
      change (String "%" q ++ "%")%string with (String "%" (q ++ "%")).
      rewrite like_percent. rewrite (like_percent _ s).
      rewrite IH. simpl. apply orb_true_r.
    + simpl. rewrite E, Hc, IH, orb_true_r. reflexivity.
Qed.

Lemma contains_like (q s : string) :
  contains_ci q s = true -> like ("%" ++ q ++ "%")%string s = true.
Proof.
  change ("%" ++ q ++ "%")%string with (String "%" (q ++ "%")).
  induction s as [|d s IH]; intros H; rewrite like_percent.
  - simpl in H. rewrite orb_false_r in H.
    rewrite (prefix_like _ _ H). reflexivity.
  - simpl in H. apply orb_true_iff in H. destruct H as [H|H].
    + rewrite (prefix_like _ _ H). reflexivity.
    + rewrite (IH H). apply orb_true_r.
Qed.

(** X4.  A row whose name contains the fragment (letters compared without
    case) matches the pattern of [search], whatever characters the fragment
    holds: wildcards in the fragment add rows, they never lose one.  When at
    most 100 rows match, the row is among the result. *)
Theorem containing_rows_are_found :
  forall (q : string) (t : table) (r : row),
    In r t ->
    contains_ci q (name r) = true ->
    like ("%" ++ q ++ "%")%string (name r) = true
    /\ ((List.length
           (filter (fun x => like ("%" ++ q ++ "%")%string (name x)) t)
         <= 100)%nat ->
        In (columns r) (select_like ("%" ++ q ++ "%")%string t)).
Proof.
  intros q t r Hr Hc. pose proof (contains_like _ _ Hc) as Hl.
  split; [exact Hl|]. intros Hn.
  apply (Permutation_in _ (select_like_complete _ _ Hn)).
  apply in_map. apply filter_In. tauto.
Qed.

Lemma containing_rows_are_found_witness :
  like "%my_file%" "my_file.txt" = true
  /\ ((List.length
         (filter (fun x => like "%my_file%" (name x)) two_files) <= 100)%nat ->
      In ("my_file.txt", "/home/u/my_file.txt", ".txt")%string
         (select_like "%my_file%" two_files)).
Proof.
  apply (containing_rows_are_found "my_file" two_files
           (mk_row 2 (mk_entry "my_file.txt" "/home/u/my_file.txt" ".txt" 20
                               "2024-01-02 10:00:00"))).
  - simpl. tauto.
  - reflexivity.
Defined.

Lemma like_fold_idem (c : ascii) : like_fold (like_fold c) = like_fold c.
Proof. destruct c as [[] [] [] [] [] [] [] []]; reflexivity. Qed.

Lemma like_fold_percent (c : ascii) :
  Ascii.eqb (like_fold c) "%" = Ascii.eqb c "%".
Proof. destruct c as [[] [] [] [] [] [] [] []]; reflexivity. Qed.

Lemma like_fold_underscore (c : ascii) :
  Ascii.eqb (like_fold c) "_" = Ascii.eqb c "_".
Proof. destruct c as [[] [] [] [] [] [] [] []]; reflexivity. Qed.

Lemma like_char_eq_fold_l (c d : ascii) :
  like_char_eq (like_fold c) d = like_char_eq c d.
Proof. unfold like_char_eq. rewrite like_fold_idem. reflexivity. Qed.

Lemma like_char_eq_fold_r (c d : ascii) :
  like_char_eq c (like_fold d) = like_char_eq c d.
Proof. unfold like_char_eq. rewrite like_fold_idem. reflexivity. Qed.

Lemma like_percent_ext (p p' : string) :
  (forall s, like p s = like p' s) ->
  forall s, like (String "%" p) s = like (String "%" p') s.
Proof.
  intros H s. induction s as [|d s IH].
  - rewrite (like_percent p), (like_percent p'), H. reflexivity.
  - rewrite (like_percent p (String d s)), (like_percent p' (String d s)).
    rewrite H, IH. reflexivity.
Qed.

Lemma like_upper_pattern (p s : string) : like (ascii_upper p) s = like p s.
Proof.
  revert s. induction p as [|c p IH]; intros s; [reflexivity|].
  destruct (Ascii.eqb c "%") eqn:E.
  - apply Ascii.eqb_eq in E. subst c.
    change (ascii_upper (String "%" p)) with (String "%" (ascii_upper p)).
    apply like_percent_ext. exact IH.
  - simpl. rewrite like_fold_percent, E.
    destruct s as [|d s]; [reflexivity|].
    rewrite like_fold_underscore, like_char_eq_fold_l, IH. reflexivity.
Qed.

Lemma like_upper_text (p s : string) : like p (ascii_upper s) = like p s.
Proof.
  revert s. induction p as [|c p IH]; intros s.
  - destruct s; reflexivity.
  - destruct (Ascii.eqb c "%") eqn:E.
    + apply Ascii.eqb_eq in E. subst c.
      induction s as [|d s IHs].
      * reflexivity.
      * change (ascii_upper (String d s))
          with (String (like_fold d) (ascii_upper s)).
        rewrite (like_percent p (String d s)).
        rewrite (like_percent p (String (like_fold d) (ascii_upper s))).
        rewrite IHs.
        change (String (like_fold d) (ascii_upper s))
          with (ascii_upper (String d s)).
        rewrite IH. reflexivity.
    + destruct s as [|d s]; simpl; rewrite E; [reflexivity|].
      rewrite like_char_eq_fold_r, IH. reflexivity.
Qed.

(** X5.  [LIKE] does not see the case of ASCII letters, in the pattern or
    in the name: putting either in upper case changes no match, so a
    fragment finds the same rows however it is capitalised. *)
Theorem like_ignores_ascii_case :
  forall (p s : string) (t : table),
    like (ascii_upper p) s = like p s
    /\ like p (ascii_upper s) = like p s
    /\ select_like (ascii_upper p) t = select_like p t.
Proof.
  intros p s t. split; [apply like_upper_pattern|].
  split; [apply like_upper_text|].
  unfold select_like. do 3 f_equal. apply filter_ext.
  intros r. apply like_upper_pattern.
Qed.

Lemma Sorted_items (l : list (string * string * string)) :
  Sorted result_le l -> Sorted item_le (map make_item l).
Proof.
  induction 1 as [|r l Hs IH Hh]; simpl; constructor; [exact IH|].
  destruct Hh as [|b l Hb]; simpl; constructor.
  destruct r as [[rn rp] rt]. destruct b as [[bn bp] bt]. exact Hb.
Qed.

(** X6.  Whatever the input and the table, [search] shows at most 100
    items, in ascending order of their text; every item is a row of the
    table whose name matches the pattern, with the path of the row as its
    data.  SQLite refuses the statement when the input is not blank, the
    table has a row and the pattern is longer than 50000 bytes: then no
    item is shown, the results are visible, the status text is the error
    and the window keeps its height.  Otherwise the results are visible
    exactly when there is an item, the status text is the number of items
    when there is one and is left as it was when there is none, and the
    window is no higher than the larger of the bar and the maximal
    height. *)
Theorem search_result_contract :
  forall (text : string) (t : table) (sb : search_bar),
    let sb' := search text (Some t) sb in
    let n := List.length (results_list sb') in
    let pattern := ("%" ++ Text.strip text ++ "%")%string in
    let refused :=
      negb (Text.strip text =? "")%string
      && negb (match t with [] => true | _ :: _ => false end)
      && (like_pattern_limit <? utf8_length pattern)%Z in
    (n <= 100)%nat
    /\ Sorted item_le (results_list sb')
    /\ Forall (fun i =>
                 exists r, In r t
                   /\ item_text i = name r /\ item_data i = path r
                   /\ like pattern (name r) = true) (results_list sb')
    /\ results_container_visible sb' = ((0 <? n)%nat || refused)
    /\ status_label sb'
       = (if refused then SearchError "LIKE or GLOB pattern too complex"
          else if (0 <? n)%nat then Found n else status_label sb)
    /\ (if refused
        then n = 0%nat /\ window_height sb' = window_height sb
        else (window_height sb' <= Z.max min_height (max_height sb))%Z).
Proof.
  intros text t sb sb' n pattern refused.
  unfold refused, n, sb', search. fold pattern.
  destruct (Text.strip text =? "")%string.
  - simpl. repeat split; try constructor; unfold min_height; lia.
  - destruct t as [|r0 t0].
    + simpl. repeat split; try constructor; unfold min_height; lia.
    + cbn [execute_select negb andb].
      destruct (like_pattern_limit <? utf8_length pattern)%Z.
      * simpl. repeat split; first [lia | constructor].
      * cbn [results_list results_container_visible status_label
             window_height].
        set (t := r0 :: t0). set (res := select_like pattern t).
        rewrite length_map.
        split; [apply select_like_bound|].
        split; [apply Sorted_items, select_like_sorted|].
        split.
        { apply Forall_forall. intros i Hi. apply in_map_iff in Hi.
          destruct Hi as [x [Hx Hi]]. apply select_like_sound in Hi.
          destruct Hi as [r [Hr [Ex Hl]]]. exists r. subst x i.
          repeat split; assumption. }
        split; [symmetry; apply orb_false_r|]. split; [reflexivity|].
        destruct (0 <? List.length res)%nat; unfold min_height; lia.
Qed.

End QueryMore.

(* ------------------------------------------------------------------ *)
(** ** More about text and paths *)

Module TextMore.
Import Store SearchBar FileIndexer More Examples.
#[local] Open Scope list_scope.

(** *** [strip] *)

Lemma rstrip_idem (s : string) : Text.rstrip (Text.rstrip s) = Text.rstrip s.
Proof.
  induction s as [|c s IH]; [reflexivity|].
  simpl. destruct (Text.rstrip s) as [|a r] eqn:E.
  - destruct (Text.isspace c) eqn:Ec; [reflexivity|].
    simpl. rewrite Ec. reflexivity.
  - simpl Text.rstrip at 1.
    change (match Text.rstrip r with
            | EmptyString => _ | String a0 s0 => _ end)
      with (Text.rstrip (String a r)).
    rewrite IH. reflexivity.
Qed.

Lemma lstrip_clean (s : string) : starts_clean (Text.lstrip s).
Proof.
  induction s as [|c s IH]; simpl; [exact I|].
  destruct (Text.isspace c) eqn:E; [exact IH|]. simpl. exact E.
Qed.

Lemma lstrip_of_clean (s : string) : starts_clean s -> Text.lstrip s = s.
Proof. destruct s as [|c s]; simpl; [reflexivity|]. intros H. rewrite H. reflexivity. Qed.

Lemma rstrip_clean (s : string) : starts_clean s -> starts_clean (Text.rstrip s).
Proof.
  destruct s as [|c s]; simpl; [tauto|]. intros H.
  destruct (Text.rstrip s); [rewrite H|]; simpl; exact H.
Qed.

Lemma strip_idem (s : string) : Text.strip (Text.strip s) = Text.strip s.
Proof.
  unfold Text.strip.
  rewrite (lstrip_of_clean (Text.rstrip (Text.lstrip s))).
  - apply rstrip_idem.
  - apply rstrip_clean, lstrip_clean.
Qed.

Lemma rstrip_last_clean (s : string) : last_clean (Text.rstrip s).
Proof.
  induction s as [|c s IH]; simpl; [exact I|].
  destruct (Text.rstrip s) as [|a r] eqn:E.
  - destruct (Text.isspace c) eqn:Ec; simpl; [exact I|exact Ec].
  - exact IH.
Qed.

(** X7.  [search] looks at its input without the white space around it:
    the stripped text starts and ends with a character that is no white
    space, stripping it again changes nothing, and [search] on the input and
    on the stripped input give the same search bar. *)
Theorem search_ignores_surrounding_space :
  forall (text : string) (db : database) (sb : search_bar),
    starts_clean (Text.strip text)
    /\ last_clean (Text.strip text)
    /\ Text.strip (Text.strip text) = Text.strip text
    /\ search (Text.strip text) db sb = search text db sb.
Proof.
  intros text db sb. split; [apply rstrip_clean, lstrip_clean|].
  split; [apply rstrip_last_clean|]. split; [apply strip_idem|].
  unfold search. rewrite strip_idem. reflexivity.
Qed.

(** *** The type of an entry *)

Lemma lower_char_idem (c : ascii) :
  Text.lower_char (Text.lower_char c) = Text.lower_char c.
Proof. destruct c as [[] [] [] [] [] [] [] []]; reflexivity. Qed.

Lemma lower_idem (s : string) : Text.lower (Text.lower s) = Text.lower s.
Proof.
  induction s as [|c s IH]; simpl; [reflexivity|].
  rewrite lower_char_idem, IH. reflexivity.
Qed.

Lemma lower_char_dot (c : ascii) :
  Ascii.eqb (Text.lower_char c) "." = Ascii.eqb c ".".
Proof. destruct c as [[] [] [] [] [] [] [] []]; reflexivity. Qed.

Lemma lower_no_dot (s : string) : no_dot (Text.lower s) = no_dot s.
Proof.
  induction s as [|c s IH]; simpl; [reflexivity|].
  rewrite lower_char_dot, IH. reflexivity.
Qed.

Lemma rfind_dot_none (s : string) (k : nat) :
  Text.rfind_dot s k = None -> no_dot s = true.
Proof.
  revert k. induction s as [|c s IH]; intros k H; [reflexivity|].
  simpl in H. destruct (Text.rfind_dot s (S k)) as [i|] eqn:E;
    [discriminate|].
  simpl. destruct (Ascii.eqb c "."); [discriminate|]. exact (IH _ E).
Qed.

(** The dot [rfind_dot] finds is the last one. *)
Lemma rfind_dot_spec (s : string) (k j : nat) :
  Text.rfind_dot s k = Some j ->
  (k <= j)%nat
  /\ exists rest, Text.drop (j - k) s = String "." rest
                  /\ no_dot rest = true.
Proof.
  revert k. induction s as [|c s IH]; intros k H; [discriminate|].
  simpl in H. destruct (Text.rfind_dot s (S k)) as [i|] eqn:E.
  - inversion H; subst i. destruct (IH _ E) as [Hk [rest Hr]].
    split; [lia|]. exists rest.
    replace (j - k)%nat with (S (j - S k)) by lia. exact Hr.
  - destruct (Ascii.eqb c ".") eqn:Ec; [|discriminate].
    inversion H; subst j. apply Ascii.eqb_eq in Ec. subst c.
    split; [lia|]. exists s. rewrite Nat.sub_diag.
    split; [reflexivity|]. exact (rfind_dot_none _ _ E).
Qed.

(** X8.  The type stored for a file is empty or is a dot followed by a text
    without a dot, and it is in lower case: [lower] leaves it as it is. *)
Theorem entry_type_normalised :
  forall (root : string) (f : file) (st : stat_result) (date : string),
    let ty := e_type (entry_of root f st date) in
    (ty = EmptyString
     \/ exists rest, ty = String "." rest /\ no_dot rest = true)
    /\ Text.lower ty = ty.
Proof.
  intros root f st date ty. unfold ty. simpl. clear ty.
  split; [|apply lower_idem].
  unfold Text.splitext_ext.
  destruct (Text.rfind_dot (f_name f) 0) as [i|] eqn:E; [|left; reflexivity].
  destruct (Text.has_nondot (f_name f) i); [|left; reflexivity].
  destruct (rfind_dot_spec _ _ _ E) as [_ [rest [Hr Hn]]].
  rewrite Nat.sub_0_r in Hr. rewrite Hr. right.
  exists (Text.lower rest). split; [reflexivity|].
  rewrite lower_no_dot. exact Hn.
Qed.

(** *** Paths *)

Lemma append_inv_head (p a b : string) :
  (p ++ a)%string = (p ++ b)%string -> a = b.
Proof.
  induction p as [|c p IH]; simpl; intros H; [exact H|].
  inversion H. auto.
Qed.

Lemma path_join_inj (root a b : string) :
  Text.startswith a "/" = false -> Text.startswith b "/" = false ->
  Text.path_join root a = Text.path_join root b -> a = b.
Proof.
  intros Ha Hb. unfold Text.path_join. rewrite Ha, Hb.
  destruct (_ || _); intros H.
  - apply append_inv_head in H. exact H.
  - apply append_inv_head in H. simpl in H. inversion H. reflexivity.
Qed.

(** X9.  In one directory, files of different names get different paths:
    when no name starts with ["/"] and no name occurs twice, no path occurs
    twice, so every such file has a row of its own. *)
Theorem distinct_names_distinct_paths :
  forall (root : string) (files : list file),
    Forall (fun f => Text.startswith (f_name f) "/" = false) files ->
    NoDup (map f_name files) ->
    NoDup (map (fun f => Text.path_join root (f_name f)) files).
Proof.
  intros root files Hs Hn. induction files as [|f files IH]; simpl;
    [constructor|].
  inversion Hs as [|? ? Hf Hfs]; subst. inversion Hn as [|? ? Hnf Hnd]; subst.
  constructor; [|apply IH; assumption].
  intros Hin. apply Hnf. apply in_map_iff in Hin.
  destruct Hin as [g [Hg Hin]]. apply in_map_iff. exists g.
  split; [|exact Hin].
  rewrite Forall_forall in Hfs.
  apply (path_join_inj root); auto.
Qed.

Lemma distinct_names_distinct_paths_witness :
  NoDup (map (fun f => Text.path_join "/data" (f_name f))
             [readable "f1"; unreadable "locked"; readable "f2"]).
Proof.
  apply distinct_names_distinct_paths.
  - repeat constructor.
  - repeat constructor; simpl; intuition discriminate.
Defined.

End TextMore.

(* ------------------------------------------------------------------ *)
(** ** The directory of an indexed path *)

Module PathMore.
Import More.

Lemma head_no_slash (name : string) :
  no_slash name = true -> head_to_last_slash name = EmptyString.
Proof.
  induction name as [|c s IH]; simpl; [reflexivity|].
  intros H. apply andb_true_iff in H. destruct H as [Hc Hs].
  rewrite (IH Hs). apply negb_true_iff in Hc. rewrite Hc. reflexivity.
Qed.

Lemma head_after_slash (root name : string) :
  no_slash name = true ->
  head_to_last_slash (root ++ "/" ++ name)%string = (root ++ "/")%string.
Proof.
  intros H. induction root as [|c r IH]; simpl.
  - rewrite (head_no_slash _ H). reflexivity.
  - simpl in IH. rewrite IH. destruct r; reflexivity.
Qed.

Lemma head_of_slashes (root name : string) :
  all_slashes root = true -> no_slash name = true ->
  head_to_last_slash (root ++ name)%string = root.
Proof.
  intros Hr Hn. induction root as [|c r IH]; simpl.
  - apply head_no_slash. exact Hn.
  - simpl in Hr. apply andb_true_iff in Hr. destruct Hr as [Hc Hr].
    rewrite (IH Hr). rewrite Hc. destruct r; reflexivity.
Qed.

Lemma not_all_slashes (root x : string) :
  root <> EmptyString -> Text.endswith root "/" = false ->
  all_slashes (root ++ x)%string = false.
Proof.
  induction root as [|c r IH]; intros Hne He; [contradiction|].
  simpl. destruct r as [|d r].
  - simpl in He. rewrite He. reflexivity.
  - rewrite IH; [apply andb_false_r|discriminate|exact He].
Qed.

Lemma rstrip_slash_cons (c : ascii) (s : string) :
  rstrip_slash (String c s)
  = match rstrip_slash s with
    | EmptyString => if Ascii.eqb c "/" then EmptyString
                     else String c EmptyString
    | h => String c h
    end.
Proof. reflexivity. Qed.

Lemma rstrip_added_slash (root : string) :
  root <> EmptyString -> Text.endswith root "/" = false ->
  rstrip_slash (root ++ "/")%string = root.
Proof.
  induction root as [|c r IH]; intros Hne He; [contradiction|].
  destruct r as [|d r].
  - simpl in *. rewrite He. reflexivity.
  - change ((String c (String d r) ++ "/")%string)
      with (String c (String d r ++ "/")%string).
    rewrite rstrip_slash_cons, IH; [reflexivity|discriminate|exact He].
Qed.

Lemma no_slash_start (name : string) :
  no_slash name = true -> Text.startswith name "/" = false.
Proof.
  destruct name as [|c s]; simpl; [reflexivity|].
  intros H. apply andb_true_iff in H. destruct H as [H _].
  apply negb_true_iff in H. exact H.
Qed.

Lemma slashes_end (root : string) :
  root <> EmptyString -> all_slashes root = true ->
  Text.endswith root "/" = true.
Proof.
  induction root as [|c r IH]; intros Hne H; [contradiction|].
  simpl in H. apply andb_true_iff in H. destruct H as [Hc Hr].
  destruct r as [|d r]; [exact Hc|].
  change (Text.endswith (String c (String d r)) "/")
    with (Text.endswith (String d r) "/").
  apply IH; [discriminate|exact Hr].
Qed.

(** X10.  [open_location] opens the directory the file was indexed from:
    for a directory path that is only slashes (the root) or does not end
    with a slash, and a file name without a slash, the directory name of
    the joined path is the directory path. *)
Theorem dirname_of_joined_path :
  forall root name : string,
    no_slash name = true ->
    root <> EmptyString ->
    all_slashes root = true \/ Text.endswith root "/" = false ->
    dirname (Text.path_join root name) = root.
Proof.
  intros root name Hn Hne H. unfold Text.path_join.
  rewrite (no_slash_start _ Hn).
  assert (L : (String.length root =? 0)%nat = false)
    by (destruct root; [contradiction|reflexivity]).
  rewrite L. simpl orb. destruct H as [H|H].
  - rewrite (slashes_end _ Hne H). unfold dirname.
    rewrite (head_of_slashes _ _ H Hn), H, andb_false_r. reflexivity.
  - rewrite H. unfold dirname. rewrite (head_after_slash _ _ Hn).
    rewrite (not_all_slashes _ _ Hne H).
    assert (E : ((root ++ "/") =? "")%string = false)
      by (destruct root; reflexivity).
    rewrite E. simpl. apply rstrip_added_slash; assumption.
Qed.

Lemma dirname_of_joined_path_witness :
  dirname (Text.path_join "/home/u" "notes.txt") = "/home/u"%string
  /\ dirname (Text.path_join "/" "notes.txt") = "/"%string.
Proof.
  split.
  - apply dirname_of_joined_path;
      [reflexivity|discriminate|right; reflexivity].
  - apply dirname_of_joined_path;
      [reflexivity|discriminate|left; reflexivity].
Defined.

End PathMore.

(* ------------------------------------------------------------------ *)
(** ** More about a run *)

Module RunMore.
Import Store FileIndexer StoreFacts WalkFacts RunFacts More StoreMore.
#[local] Open Scope Z_scope.
#[local] Open Scope list_scope.

Lemma kept_upserts_incl (r : option exception) (es : list entry) :
  incl (kept_upserts r es) es.
Proof.
  destruct r as [x|]; simpl; [|apply incl_refl].
  intros e H. rewrite <- (firstn_skipn (batch_end (List.length es)) es).
  apply in_or_app. left. exact H.
Qed.

Lemma untouched_other_path (es : list entry) (e : entry) (r : row) :
  In e es -> untouched es r = true -> (path r =? e_path e)%string = false.
Proof.
  intros Hin H. unfold untouched, path_notin in H.
  apply negb_true_iff in H.
  destruct (path r =? e_path e)%string eqn:E; [|reflexivity].
  rewrite <- H. symmetry. apply existsb_exists. exists e.
  split; [exact Hin|exact E].
Qed.

Lemma untouched_insert (es : list entry) (e : entry) (t : table) :
  In e es ->
  filter (untouched es) (insert_or_replace t e) = filter (untouched es) t.
Proof.
  intros Hin. unfold insert_or_replace. rewrite filter_app, filter_filter.
  assert (N : untouched es (mk_row (next_id t) e) = false).
  { unfold untouched, path_notin. apply negb_false_iff, existsb_exists.
    exists e. split; [exact Hin|apply String.eqb_refl]. }
  cbn [filter]. rewrite N, app_nil_r. apply filter_ext_in. intros r _.
  destruct (untouched es r) eqn:U; [|apply andb_false_r].
  rewrite (untouched_other_path es e r Hin U). reflexivity.
Qed.

(** Upserts of entries among [es] leave the rows of the other paths as
    they are. *)
Lemma untouched_rows_kept_among (es es' : list entry) (t : table) :
  incl es' es ->
  filter (untouched es) (fold_left insert_or_replace es' t)
  = filter (untouched es) t.
Proof.
  revert t. induction es' as [|e es' IH]; intros t H; [reflexivity|].
  simpl. rewrite IH by (intros x Hx; apply H; right; exact Hx).
  apply untouched_insert. apply H. left. reflexivity.
Qed.

Section RunMoreOf.

Variable format_mtime : Float.float -> exception + string.
Variable insert_error : entry -> option exception.

#[local] Abbreviation run_connected :=
  (run_connected format_mtime insert_error).
#[local] Abbreviation do_steps := (do_steps format_mtime insert_error).
#[local] Abbreviation entries_of_steps :=
  (entries_of_steps format_mtime insert_error).

Lemma upserted_row_origin (es : list entry) (t : table) (r : row) :
  In r (fold_left insert_or_replace es t) -> In r t \/ In (fields r) es.
Proof.
  revert t. induction es as [|e es IH]; simpl; intros t H; [tauto|].
  apply IH in H. destruct H as [H|H]; [|tauto].
  unfold insert_or_replace in H. apply in_app_iff in H.
  destruct H as [H|[H|[]]].
  - apply filter_In in H. tauto.
  - subst r. simpl. tauto.
Qed.

Lemma entries_of_steps_visible (l : list step) :
  Forall (fun e => Text.startswith (e_name e) "." = false)
         (entries_of_steps l).
Proof.
  apply Forall_forall. intros e He. unfold FileIndexer.entries_of_steps in He.
  apply in_flat_map in He. destruct He as [s [_ He]].
  destruct s as [d|root|root f]; simpl in He; try contradiction.
  unfold verdict_of in He.
  destruct (Text.startswith (f_name f) ".") eqn:E; [contradiction|].
  destruct (f_stat f) as [err|st]; [contradiction|].
  destruct (format_mtime (st_mtime st)) as [x|date].
  - destruct (caught x); contradiction.
  - destruct (insert_error _) as [x|].
    + destruct (caught x); contradiction.
    + destruct He as [He|[]]. subst e. exact E.
Qed.

(** X11.  A run never stores a hidden file: every row of the store after a
    run, with any schedule of [stop], either has a name that does not start
    with a dot or is a row the store held before the run; on a new store no
    name starts with a dot. *)
Theorem hidden_files_never_indexed :
  forall (drives : list dir) (db : database) (pending : option nat),
    Forall (fun r => Text.startswith (name r) "." = false
                     \/ In r (create_table_if_not_exists db))
           (committed (conn (run_connected drives db pending)))
    /\ Forall (fun r => Text.startswith (name r) "." = false)
              (committed (conn (run_connected drives None pending))).
Proof.
  intros drives db pending.
  assert (G : forall db0,
             Forall (fun r => Text.startswith (name r) "." = false
                              \/ In r (create_table_if_not_exists db0))
                    (committed (conn (run_connected drives db0 pending)))).
  { intros db0. rewrite run_connected_committed. apply Forall_forall.
    intros r Hr. apply upserted_row_origin in Hr.
    destruct Hr as [Hr|Hr]; [tauto|]. left.
    apply kept_upserts_incl in Hr.
    pose proof (entries_of_steps_visible (taken pending (steps drives))) as V.
    rewrite Forall_forall in V. exact (V _ Hr). }
  split; [apply G|].
  specialize (G None). revert G. apply Forall_impl.
  intros r [H|[]]. exact H.
Qed.

(** X12.  A run deletes nothing: the rows whose path the run did not upsert
    are, after the run, exactly the rows the store held for these paths
    before, with their rowids and values and in their order.  So a file
    removed from the disk keeps its row. *)
Theorem rows_of_other_paths_kept :
  forall (drives : list dir) (db : database) (pending : option nat),
    let es := entries_of_steps (taken pending (steps drives)) in
    filter (untouched es) (committed (conn (run_connected drives db pending)))
    = filter (untouched es) (create_table_if_not_exists db).
Proof.
  intros drives db pending es. rewrite run_connected_committed.
  apply untouched_rows_kept_among, kept_upserts_incl.
Qed.

End RunMoreOf.

End RunMore.

(* ------------------------------------------------------------------ *)
(** ** Batches and samples *)

Module BatchMore.
Import Store FileIndexer StoreFacts WalkFacts RunFacts More.
#[local] Open Scope Z_scope.
#[local] Open Scope list_scope.

Section BatchOf.

Variable format_mtime : Float.float -> exception + string.
Variable insert_error : entry -> option exception.

#[local] Abbreviation do_steps := (do_steps format_mtime insert_error).
#[local] Abbreviation entries_of_steps :=
  (entries_of_steps format_mtime insert_error).

(** X13.  At every point of the walk, after any number of steps, the
    committed table, which is what another connection reads, is the table
    after a whole number of batches of 500 upserts: it holds the first
    500 * floor(n / 500) of the n upserts done so far, while the connection
    of the run sees all n.  A reader never sees a part of a batch. *)
Theorem committed_in_whole_batches :
  forall (drives : list dir) (db : database) (pending : option nat)
         (k : nat),
    let l := firstn k (steps drives) in
    let w := do_steps l (start drives db pending) in
    let es := entries_of_steps l in
    let n := List.length es in
    working (conn w)
    = fold_left insert_or_replace es (create_table_if_not_exists db)
    /\ committed (conn w)
       = fold_left insert_or_replace (firstn (batch_end n) es)
                   (create_table_if_not_exists db)
    /\ Z.of_nat (batch_end n) = 500 * (Z.of_nat n / 500)
    /\ (batch_end n <= n < batch_end n + 500)%nat.
Proof.
  intros drives db pending k l w es n.
  destruct (batched_steps format_mtime insert_error
              (create_table_if_not_exists db) l []
              (start drives db pending)) as (Hw & Hp & Hc).
  { reflexivity. }
  { repeat split. }
  simpl in Hw, Hc. fold w es n in Hw, Hc.
  split; [exact Hw|]. split; [exact Hc|]. split; [|apply batch_end_le].
  unfold batch_end. rewrite Z2Nat.id; [reflexivity|].
  assert (0 <= Z.of_nat n / 500) by (apply Z.div_pos; lia). lia.
Qed.

End BatchOf.

(** *** The samples of the estimate *)

Lemma file_count_walk_sample (ws : list walk_entry) (acc : Z * Z) (k : nat) :
  snd acc = 20 - Z.of_nat (S k) ->
  file_count_walk ws acc
  = (fst acc + visible_files (firstn (S k) ws),
     snd acc + Z.of_nat (List.length (firstn (S k) ws))).
Proof.
  revert acc k. induction ws as [|[[root dirs] files] ws IH]; intros acc k H.
  - destruct acc. simpl. f_equal; lia.
  - simpl file_count_walk.
    destruct (Z.leb_spec 20 (snd acc + 1)) as [L|L].
    + assert (k = 0%nat) by lia. subst k. cbn [firstn List.length].
      unfold visible_files. cbn [fold_right snd]. f_equal; lia.
    + destruct k as [|k]; [lia|].
      rewrite (IH _ k) by (cbn [snd]; lia).
      cbn [fst snd]. change (firstn (S (S k)) ((root, dirs, files) :: ws))
        with ((root, dirs, files) :: firstn (S k) ws).
      unfold visible_files. cbn [fold_right List.length snd].
      fold (visible_files (firstn (S k) ws)). f_equal; lia.
Qed.

Lemma file_count_walk_app (a b : list walk_entry) (acc : Z * Z) :
  snd acc < 20 ->
  file_count_walk (a ++ b) acc
  = (if 20 <=? snd (file_count_walk a acc) then file_count_walk a acc
     else file_count_walk b (file_count_walk a acc)).
Proof.
  revert acc. induction a as [|[[root dirs] files] a IH]; intros acc H.
  - simpl. destruct (Z.leb_spec 20 (snd acc)); [lia|reflexivity].
  - simpl. destruct (Z.leb_spec 20 (snd acc + 1)) as [L|L].
    + simpl. destruct (Z.leb_spec 20 (snd acc + 1)); [reflexivity|lia].
    + apply IH. simpl. lia.
Qed.

Lemma file_count_drives_flat (drives : list dir) (acc : Z * Z) :
  snd acc < 20 ->
  file_count_drives drives acc = file_count_walk (flat_map walk drives) acc.
Proof.
  revert acc. induction drives as [|d drives IH]; intros acc H;
    [reflexivity|].
  simpl. rewrite file_count_walk_app by exact H.
  destruct (Z.leb_spec 20 (snd (file_count_walk (walk d) acc)));
    [reflexivity|]. apply IH. assumption.
Qed.

Lemma dir_count_walk_sample (ws : list walk_entry) (acc : Z * Z) (k : nat) :
  snd acc = 10 - Z.of_nat (S k) ->
  dir_count_walk ws acc
  = (fst acc + visible_dirs (firstn (S k) ws),
     snd acc + Z.of_nat (List.length (firstn (S k) ws))).
Proof.
  revert acc k. induction ws as [|[[root dirs] files] ws IH]; intros acc k H.
  - destruct acc. simpl. f_equal; lia.
  - simpl dir_count_walk.
    destruct (Z.leb_spec 10 (snd acc + 1)) as [L|L].
    + assert (k = 0%nat) by lia. subst k. cbn [firstn List.length].
      unfold visible_dirs. cbn [fold_right snd fst]. f_equal; lia.
    + destruct k as [|k]; [lia|].
      rewrite (IH _ k) by (cbn [snd]; lia).
      cbn [fst snd]. change (firstn (S (S k)) ((root, dirs, files) :: ws))
        with ((root, dirs, files) :: firstn (S k) ws).
      unfold visible_dirs. cbn [fold_right List.length snd fst].
      fold (visible_dirs (firstn (S k) ws)). f_equal; lia.
Qed.

Lemma dir_count_walk_app (a b : list walk_entry) (acc : Z * Z) :
  snd acc < 10 ->
  dir_count_walk (a ++ b) acc
  = (if 10 <=? snd (dir_count_walk a acc) then dir_count_walk a acc
     else dir_count_walk b (dir_count_walk a acc)).
Proof.
  revert acc. induction a as [|[[root dirs] files] a IH]; intros acc H.
  - simpl. destruct (Z.leb_spec 10 (snd acc)); [lia|reflexivity].
  - simpl. destruct (Z.leb_spec 10 (snd acc + 1)) as [L|L].
    + simpl. destruct (Z.leb_spec 10 (snd acc + 1)); [reflexivity|lia].
    + apply IH. simpl. lia.
Qed.

Lemma dir_count_drives_flat (drives : list dir) (acc : Z * Z) :
  snd acc < 10 ->
  dir_count_drives drives acc = dir_count_walk (flat_map walk drives) acc.
Proof.
  revert acc. induction drives as [|d drives IH]; intros acc H;
    [reflexivity|].
  simpl. rewrite dir_count_walk_app by exact H.
  destruct (Z.leb_spec 10 (snd (dir_count_walk (walk d) acc)));
    [reflexivity|]. apply IH. assumption.
Qed.

(** X14.  The two nested loops of [_estimate_total_files] with their two
    [break]s sample exactly the first 20 directories that the walks of the
    drives yield, taken one after the other: the file count is the number of
    files that are not hidden in these directories and the sample size is
    their number.  Directories after the twentieth have no part in the
    estimate. *)
Theorem estimate_samples_first_20 :
  forall drives : list dir,
    let sample := firstn 20 (flat_map walk drives) in
    file_count_drives drives (0, 0)
    = (visible_files sample, Z.of_nat (List.length sample)).
Proof.
  intros drives sample.
  rewrite file_count_drives_flat by (simpl; lia).
  rewrite (file_count_walk_sample _ _ 19) by reflexivity.
  reflexivity.
Qed.

(** X15.  [_estimate_dir_count] samples exactly the first 10 directories of
    the walks: with [n] of them sampled and [d] subdirectory names that are
    not hidden in them, it returns 1000 when [n] is 0 and otherwise
    max(100, int(d / n * 50)), so never less than 100. *)
Theorem dir_estimate_samples_first_10 :
  forall drives : list dir,
    let sample := firstn 10 (flat_map walk drives) in
    let n := Z.of_nat (List.length sample) in
    dir_count_drives drives (0, 0) = (visible_dirs sample, n)
    /\ _estimate_dir_count drives
       = (if 0 <? n
          then Z.max 100
                 (Float.int
                    (Float.mul (Float.true_div (visible_dirs sample) n)
                               (Float.of_int 50)))
          else 1000)
    /\ 100 <= _estimate_dir_count drives.
Proof.
  intros drives sample n.
  assert (E : dir_count_drives drives (0, 0) = (visible_dirs sample, n)).
  { rewrite dir_count_drives_flat by (simpl; lia).
    rewrite (dir_count_walk_sample _ _ 9) by reflexivity. reflexivity. }
  split; [exact E|].
  unfold _estimate_dir_count. rewrite E.
  destruct (Z.ltb_spec 0 n) as [L|L].
  - replace (Z.max 1 n) with n by lia. split; [reflexivity|lia].
  - split; [reflexivity|lia].
Qed.

End BatchMore.

(* ------------------------------------------------------------------ *)
(** ** The directories a walk visits *)

Module TreeMore.
Import FileIndexer More.
#[local] Open Scope list_scope.

Lemma os_walk_unfold (keep : string -> bool) (top n : string) (l : bool)
    (fs : list file) (sds : list dir) :
  os_walk keep top (Dir n l fs sds)
  = if l then
      (top, map dir_name sds, fs)
      :: flat_map (fun sd => if keep (dir_name sd)
                             then os_walk keep
                                    (Text.path_join top (dir_name sd)) sd
                             else []) sds
    else [].
Proof.
  destruct l; reflexivity.
Qed.

Lemma dir_forall (P : dir -> Prop)
    (H : forall n l fs sds, Forall P sds -> P (Dir n l fs sds)) (d : dir) :
  P d.
Proof.
  revert d. fix IH 1. intros [n l fs sds]. apply H.
  induction sds as [|a sds IHs]; constructor; [apply IH|exact IHs].
Qed.

Lemma os_walk_sound (keep : string -> bool) (d : dir) :
  forall top e,
    In e (os_walk keep top d) ->
    exists names d',
      reaches keep d names d'
      /\ e = (fold_left Text.path_join names top,
              map dir_name (dir_subdirs d'), dir_files d').
Proof.
  induction d as [n l fs sds IH] using dir_forall. intros top e H.
  rewrite os_walk_unfold in H. destruct l; [|contradiction].
  destruct H as [H|H].
  - exists [], (Dir n true fs sds). split; [constructor|].
    symmetry. exact H.
  - apply in_flat_map in H. destruct H as [sd [Hsd H]].
    destruct (keep (dir_name sd)) eqn:K; [|contradiction].
    rewrite Forall_forall in IH.
    destruct (IH sd Hsd _ _ H) as [names [d' [R E]]].
    exists (dir_name sd :: names), d'. split; [|exact E].
    constructor; assumption.
Qed.

Lemma os_walk_complete (keep : string -> bool) (d : dir) (names : list string)
    (d' : dir) :
  reaches keep d names d' ->
  forall top,
    In (fold_left Text.path_join names top,
        map dir_name (dir_subdirs d'), dir_files d')
       (os_walk keep top d).
Proof.
  induction 1 as [n fs sds|n fs sds sd names d' Hin K R IH]; intros top;
    rewrite os_walk_unfold.
  - left. reflexivity.
  - right. apply in_flat_map. exists sd. split; [exact Hin|].
    rewrite K. apply IH.
Qed.

(** X16.  The walk of a drive visits exactly the directories that can be
    listed and are reached from the root of the drive through directories
    that can be listed and whose names start with neither a dot nor a
    dollar sign: hidden directories are neither visited nor descended into.
    Each visit yields the path joined from the names on the way, all the
    subdirectory names and the files of the directory. *)
Theorem walk_visits_unhidden_directories :
  forall (drive : dir) (e : walk_entry),
    In e (walk drive)
    <-> exists names d',
          reaches not_hidden_dir drive names d'
          /\ e = (fold_left Text.path_join names (dir_name drive),
                  map dir_name (dir_subdirs d'), dir_files d').
Proof.
  intros drive e. unfold walk. split.
  - apply os_walk_sound.
  - intros [names [d' [R E]]]. subst e. apply os_walk_complete. exact R.
Qed.

End TreeMore.

(* ------------------------------------------------------------------ *)
(** ** Facts about drives and keys *)

Module AppMore.
Import Store SearchBar App.
#[local] Open Scope Z_scope.
#[local] Open Scope list_scope.

Lemma land_1_testbit (b : Z) : negb (Z.land b 1 =? 0) = Z.testbit b 0.
Proof.
  rewrite Z.bit0_odd. change 1 with (Z.ones 1).
  rewrite Z.land_ones by lia. change (2 ^ 1) with 2.
  rewrite Zmod_odd. destruct (Z.odd b); reflexivity.
Qed.

Lemma filter_map_S (f : nat -> bool) (l : list nat) :
  filter f (map S l) = map S (filter (fun i => f (S i)) l).
Proof.
  induction l as [|x l IH]; simpl; [reflexivity|].
  destruct (f (S x)); simpl; rewrite IH; reflexivity.
Qed.

Lemma drives_from_bits (n a : nat) (b : Z) :
  drives_from (seq a n) b
  = map (fun i => drive_path (a + i))
        (filter (fun i => Z.testbit b (Z.of_nat i)) (seq 0 n)).
Proof.
  revert a b. induction n as [|n IH]; intros a b; [reflexivity|].
  change (seq a (S n)) with (a :: seq (S a) n).
  change (seq 0 (S n)) with (0%nat :: seq 1 n).
  cbn [drives_from filter]. rewrite land_1_testbit, IH.
  rewrite <- (seq_shift n 0), filter_map_S.
  change (Z.of_nat 0) with 0.
  assert (E : map (fun i => drive_path (S a + i))
                  (filter (fun i => Z.testbit (Z.shiftr b 1) (Z.of_nat i))
                          (seq 0 n))
              = map (fun i => drive_path (a + i))
                    (map S (filter (fun i => Z.testbit b (Z.of_nat (S i)))
                                   (seq 0 n)))).
  { rewrite map_map.
    rewrite (filter_ext (fun i => Z.testbit (Z.shiftr b 1) (Z.of_nat i))
                        (fun i => Z.testbit b (Z.of_nat (S i)))).
    - apply map_ext. intros i. f_equal. lia.
    - intros i. rewrite Z.shiftr_spec by lia. f_equal. lia. }
  rewrite E. destruct (Z.testbit b 0); cbn [map app];
    rewrite ?Nat.add_0_r; reflexivity.
Qed.

Lemma drive_path_inj (i j : nat) :
  (i < 256)%nat -> (j < 256)%nat -> drive_path i = drive_path j -> i = j.
Proof.
  intros Hi Hj H. unfold drive_path in H. inversion H as [E].
  rewrite <- (nat_ascii_embedding i Hi), <- (nat_ascii_embedding j Hj), E.
  reflexivity.
Qed.

Lemma NoDup_map_on {A B} (f : A -> B) (l : list A) :
  (forall x y, In x l -> In y l -> f x = f y -> x = y) ->
  NoDup l -> NoDup (map f l).
Proof.
  intros Hf. induction 1 as [|a l Ha Hl IH]; simpl; constructor.
  - intros Hin. apply in_map_iff in Hin. destruct Hin as [x [E Hx]].
    apply Ha. rewrite <- (Hf x a); simpl; auto.
  - apply IH. intros x y Hx Hy. apply Hf; simpl; auto.
Qed.

(** X17.  On Windows [_get_drives] lists the drive of letter number [i]
    (A is 0) exactly when bit [i] of the mask is set, for the 26 letters,
    in the order of the alphabet and each once; bits above the 26th are
    not looked at.  On the other platforms it gives one root. *)
Theorem drives_are_the_set_bits :
  forall (bitmask : Z) (home : string),
    _get_drives win32 bitmask home
    = map (fun i => drive_path (65 + i))
          (filter (fun i => Z.testbit bitmask (Z.of_nat i)) (seq 0 26))
    /\ NoDup (_get_drives win32 bitmask home)
    /\ (List.length (_get_drives win32 bitmask home) <= 26)%nat
    /\ _get_drives win32 (Z.land bitmask (Z.ones 26)) home
       = _get_drives win32 bitmask home
    /\ _get_drives linux bitmask home = ["/"%string]
    /\ _get_drives darwin bitmask home = ["/"%string]
    /\ _get_drives other_platform bitmask home = [home].
Proof.
  intros bitmask home.
  assert (E : forall b, _get_drives win32 b home
              = map (fun i => drive_path (65 + i))
                    (filter (fun i => Z.testbit b (Z.of_nat i)) (seq 0 26))).
  { intros b. apply drives_from_bits. }
  split; [apply E|]. split; [|split; [|split]].
  - rewrite E. apply NoDup_map_on.
    + intros x y Hx Hy H. apply filter_In in Hx, Hy.
      destruct Hx as [Hx _]. destruct Hy as [Hy _].
      apply in_seq in Hx, Hy. apply drive_path_inj in H; lia.
    + apply NoDup_filter, seq_NoDup.
  - rewrite E, length_map.
    etransitivity; [apply filter_length_le|]. rewrite length_seq. lia.
  - rewrite !E. f_equal. apply filter_ext_in. intros i Hi.
    apply in_seq in Hi. rewrite Z.land_spec, Z.ones_spec_low by lia.
    apply andb_true_r.
  - repeat split.
Qed.

(** *** Keys *)

Lemma key_keeps_results (k : key) (v : view) :
  results_list (bar (keyPressEvent k v)) = results_list (bar v).
Proof.
  destruct k; simpl; try reflexivity.
  - destruct (current_item v) as [it|]; [|reflexivity].
    unfold open_file. destruct (_ =? _)%string; reflexivity.
  - destruct (_ <? _); reflexivity.
  - destruct (_ <? _); reflexivity.
Qed.

Lemma key_keeps_selection (k : key) (v : view) :
  selection_ok v -> selection_ok (keyPressEvent k v).
Proof.
  unfold selection_ok. intros H. destruct k; simpl; try exact H.
  - destruct (current_item v) as [it|]; [|exact H].
    unfold open_file. destruct (_ =? _)%string; exact H.
  - destruct (Z.ltb_spec (current_row v)
                (Z.of_nat (List.length (results_list (bar v))) - 1));
      simpl; lia.
  - destruct (Z.ltb_spec 0 (current_row v)); simpl; lia.
Qed.

Lemma key_opens_shown (k : key) (v : view) :
  (exists l, opened (keyPressEvent k v) = opened v ++ l
             /\ Forall (fun p => exists it,
                          In it (results_list (bar v)) /\ item_data it = p) l).
Proof.
  destruct k; simpl; try (exists []; rewrite app_nil_r; split; [reflexivity|constructor]).
  - unfold current_item. destruct (current_row v <? 0);
      [exists []; rewrite app_nil_r; split; [reflexivity|constructor]|].
    destruct (nth_error _ _) as [it|] eqn:E;
      [|exists []; rewrite app_nil_r; split; [reflexivity|constructor]].
    unfold open_file. destruct (_ =? _)%string;
      [exists []; rewrite app_nil_r; split; [reflexivity|constructor]|].
    exists [item_data it]. split; [reflexivity|].
    constructor; [|constructor]. exists it.
    split; [exact (nth_error_In _ _ E)|reflexivity].
  - destruct (_ <? _); exists []; rewrite app_nil_r;
      (split; [reflexivity|constructor]).
  - destruct (_ <? _); exists []; rewrite app_nil_r;
      (split; [reflexivity|constructor]).
Qed.

(** X18.  After a search and any sequence of keys, the items shown are
    those of the search, the current row is a row of the list (or -1 when
    the list is empty: Down on the last row and Up on the first change
    nothing), and every path opened by the keys is the path of an item
    shown. *)
Theorem keys_stay_in_the_list :
  forall (text : string) (db : database) (v : view) (keys : list key),
    let v0 := search_view text db v in
    let v1 := fold_left (fun x k => keyPressEvent k x) keys v0 in
    results_list (bar v1) = results_list (bar v0)
    /\ selection_ok v1
    /\ exists l, opened v1 = opened v ++ l
         /\ Forall (fun p => exists it,
                      In it (results_list (bar v0)) /\ item_data it = p) l.
Proof.
  intros text db v keys v0 v1.
  assert (S0 : selection_ok v0).
  { unfold selection_ok, v0, search_view. cbn [bar current_row].
    destruct (results_list (search text db (bar v))); simpl; lia. }
  assert (O0 : opened v0 = opened v ++ []) by (rewrite app_nil_r; reflexivity).
  unfold v1. clear v1.
  assert (G : forall ks x l0,
             results_list (bar x) = results_list (bar v0) ->
             selection_ok x ->
             opened x = opened v ++ l0 ->
             Forall (fun p => exists it,
                       In it (results_list (bar v0)) /\ item_data it = p) l0 ->
             let y := fold_left (fun x k => keyPressEvent k x) ks x in
             results_list (bar y) = results_list (bar v0)
             /\ selection_ok y
             /\ exists l, opened y = opened v ++ l
                  /\ Forall (fun p => exists it,
                               In it (results_list (bar v0))
                               /\ item_data it = p) l).
  { induction ks as [|k ks IH]; intros x l0 Hr Hs Ho Hf; simpl.
    - split; [exact Hr|]. split; [exact Hs|]. exists l0. tauto.
    - destruct (key_opens_shown k x) as [l [El Fl]].
      apply (IH (keyPressEvent k x) (l0 ++ l)).
      + rewrite key_keeps_results. exact Hr.
      + apply key_keeps_selection. exact Hs.
      + rewrite El, Ho, app_assoc. reflexivity.
      + apply Forall_app. split; [exact Hf|]. rewrite <- Hr. exact Fl. }
  apply (G keys v0 []); [reflexivity|exact S0|exact O0|constructor].
Qed.

End AppMore.

(* ------------------------------------------------------------------ *)
(** ** Signals, paths and the full bar *)

Module SignalMore.
Import Store FileIndexer StoreFacts FloatFacts WalkFacts RunFacts More.
#[local] Open Scope Z_scope.
#[local] Open Scope list_scope.

Lemma multiples_next_full (n : Z) :
  0 <= n -> (n + 1) mod 500 = 0 ->
  multiples_of_500 (n + 1) = multiples_of_500 n ++ [n + 1].
Proof.
  intros Hn H. unfold multiples_of_500.
  pose proof (Z.div_mod (n + 1) 500 ltac:(lia)) as D.
  pose proof (Z.div_mod n 500 ltac:(lia)) as Dn.
  pose proof (Z.mod_pos_bound n 500 ltac:(lia)) as Bn.
  assert (Q : (n + 1) / 500 = n / 500 + 1) by lia.
  assert (Qn : 0 <= n / 500) by (apply Z.div_pos; lia).
  rewrite Q, Z2Nat.inj_add by lia. change (Z.to_nat 1) with 1%nat.
  rewrite seq_app, map_app. simpl. f_equal. f_equal. lia.
Qed.

Lemma multiples_next_same (n : Z) :
  0 <= n -> (n + 1) mod 500 <> 0 ->
  multiples_of_500 (n + 1) = multiples_of_500 n.
Proof.
  intros Hn H. unfold multiples_of_500. do 3 f_equal.
  pose proof (Z.div_mod n 500 ltac:(lia)) as Dn.
  pose proof (Z.mod_pos_bound n 500 ltac:(lia)) as Bn.
  assert (Hr : n mod 500 + 1 < 500).
  { destruct (Z.eq_dec (n mod 500 + 1) 500) as [E|E]; [|lia].
    exfalso. apply H.
    replace (n + 1) with (0 + (n / 500 + 1) * 500) by lia.
    apply Z.mod_add. lia. }
  symmetry. apply (Z.div_unique _ _ _ (n mod 500 + 1)); lia.
Qed.

Section SignalOf.

Variable format_mtime : Float.float -> exception + string.
Variable insert_error : entry -> option exception.

#[local] Abbreviation run_connected :=
  (run_connected format_mtime insert_error).
#[local] Abbreviation effect := (effect format_mtime insert_error).
#[local] Abbreviation effects := (effects format_mtime insert_error).
#[local] Abbreviation do_steps := (do_steps format_mtime insert_error).
#[local] Abbreviation entries_of_steps :=
  (entries_of_steps format_mtime insert_error).

Lemma counted_step (s : step) (w : session) :
  counted w -> counted (effect s w).
Proof.
  intros [Hp Hc]. destruct s as [d|root|root f].
  - split; [exact Hp|]. cbn [FileIndexer.effect announce_drive emit emitted
                             files_processed].
    unfold indexed_counts in *. rewrite flat_map_app, Hc. simpl.
    apply app_nil_r.
  - split; assumption.
  - cbn [FileIndexer.effect].
    destruct (verdict_of format_mtime insert_error root f) as [|x|e];
      [split; assumption|split; assumption|].
    unfold count_file.
    cbn [files_processed set_processed upsert set_conn].
    destruct ((files_processed w + 1) mod 500 =? 0) eqn:E.
    + apply Z.eqb_eq in E. split.
      * cbn [files_processed emit commit set_processed upsert set_conn]. lia.
      * cbn [files_processed emit emitted commit set_processed upsert
             set_conn].
        unfold indexed_counts in *. rewrite flat_map_app, Hc. simpl.
        rewrite (multiples_next_full _ Hp E). reflexivity.
    + apply Z.eqb_neq in E. split.
      * cbn [files_processed set_processed]. lia.
      * cbn [files_processed emitted set_processed upsert set_conn].
        rewrite (multiples_next_same _ Hp E). exact Hc.
Qed.

Lemma counted_effects (l : list step) (w : session) :
  counted w -> counted (effects l w).
Proof.
  revert w. induction l as [|s l IH]; intros w H; [exact H|].
  rewrite effects_cons. apply IH, counted_step, H.
Qed.

Lemma counted_steps (l : list step) (w : session) :
  raised w = None -> counted w -> counted (do_steps l w).
Proof.
  intros Hr H. rewrite do_steps_effects by exact Hr.
  apply (counted_effects (completed format_mtime insert_error l)) in H.
  exact H.
Qed.

(** X19.  A run emits one "Indexed n files" signal for every full 500
    files, in order: with [n] files processed at the end, the counts carried
    by these signals are 500, 1000, ... up to the last multiple of 500 that
    is at most [n], whatever the schedule of [stop]. *)
Theorem one_signal_per_500_files :
  forall (drives : list dir) (db : database) (pending : option nat),
    let w := run_connected drives db pending in
    indexed_counts (emitted w) = multiples_of_500 (files_processed w).
Proof.
  intros drives db pending w. unfold w.
  rewrite run_connected_emitted.
  set (n := files_processed (run_connected drives db pending)).
  assert (En : n = files_processed
                     (do_steps (taken pending (steps drives))
                               (start drives db pending))).
  { unfold n. rewrite run_connected_processed.
    rewrite do_steps_processed by reflexivity. reflexivity. }
  destruct (counted_steps (taken pending (steps drives))
              (start drives db pending)) as [_ H].
  { reflexivity. }
  { split; [simpl; lia|reflexivity]. }
  unfold indexed_counts in *. rewrite flat_map_app, H, En.
  destruct (raised (run_connected drives db pending));
    unfold ending, terminal; cbn [flat_map sig app]; apply app_nil_r.
Qed.

Lemma path_after_insert (t : table) (e : entry) (p : string) :
  In p (map path (insert_or_replace t e))
  <-> In p (map path t) \/ p = e_path e.
Proof.
  unfold insert_or_replace. rewrite map_app, in_app_iff. simpl. split.
  - intros [H|[H|[]]]; [|right; symmetry; exact H].
    left. apply in_map_iff in H. destruct H as [r [E H]].
    apply filter_In in H. apply in_map_iff. exists r. tauto.
  - intros [H|H]; [|right; left; symmetry; exact H].
    destruct (String.eqb_spec p (e_path e)) as [E|E]; [right; left; auto|].
    left. apply in_map_iff in H. destruct H as [r [Er H]].
    apply in_map_iff. exists r. split; [exact Er|].
    apply filter_In. split; [exact H|].
    apply negb_true_iff, String.eqb_neq. congruence.
Qed.

Lemma paths_after_upserts (es : list entry) (t : table) (p : string) :
  In p (map path (fold_left insert_or_replace es t))
  <-> In p (map path t) \/ In p (map e_path es).
Proof.
  revert t. induction es as [|e es IH]; intros t; simpl; [tauto|].
  rewrite IH, path_after_insert. intuition.
Qed.

(** X20.  The paths of the store after a run are the paths it held before
    together with the paths of the upserts the run committed: all the
    upserts of the steps done when [run] returns, those of the whole
    batches of 500 when an exception has left it.  No path is lost, and in
    a run that returns every file upserted has a row under its path. *)
Theorem paths_after_run :
  forall (drives : list dir) (db : database) (pending : option nat)
         (p : string),
    let w := run_connected drives db pending in
    let es := entries_of_steps (taken pending (steps drives)) in
    In p (map path (committed (conn w)))
    <-> In p (map path (create_table_if_not_exists db))
        \/ In p (map e_path (kept_upserts (raised w) es)).
Proof.
  intros drives db pending p w es. unfold w.
  rewrite run_connected_committed. apply paths_after_upserts.
Qed.

End SignalOf.

Lemma rne_one : (Float.rne 1 == 1)%Q.
Proof. reflexivity. Qed.

Lemma rne_hundred : (Float.rne 100 == 100)%Q.
Proof. reflexivity. Qed.

(** X21.  When at least as many files are processed as were estimated, the
    percentage is 99: an estimate that is too low keeps the bar at 99 until
    the terminal signal. *)
Theorem percentage_full_at_99 :
  forall p t : Z, 0 < t -> t <= p -> percentage_of p t = 99.
Proof.
  intros p t Ht Hp. unfold percentage_of.
  assert (HT : (0 < inject_Z t)%Q) by (apply inject_Z_pos; exact Ht).
  assert (Hq : (1 <= inject_Z p / inject_Z t)%Q).
  { apply Qle_shift_div_l; [exact HT|]. rewrite Zle_Qle in Hp. lra. }
  assert (H1 : (1 <= Float.true_div p t)%Q).
  { unfold Float.true_div. rewrite <- rne_one.
    apply rne_mono; [lra|exact Hq]. }
  assert (H2 : (100 <= Float.mul (Float.true_div p t) (Float.of_int 100))%Q).
  { unfold Float.mul. rewrite <- rne_hundred at 1.
    apply rne_mono; [lra|].
    assert (E : (Float.of_int 100 == 100)%Q) by reflexivity.
    rewrite E. lra. }
  assert (H3 : 100 <= Float.int
                        (Float.mul (Float.true_div p t) (Float.of_int 100))).
  { change 100 with (Float.int 100%Q) at 1. apply int_mono; [lra|exact H2]. }
  lia.
Qed.

Lemma percentage_full_at_99_witness : percentage_of 1500 1000 = 99.
Proof. apply percentage_full_at_99; lia. Defined.

End SignalMore.
